(** * valis: the concurrent block indexer and its start command

    A shallow embedding of
      - [indexer/indexer.go]          ([Indexer.ForEachBlock], the retry variables),
      - [indexer/actions/ibc/ibc.go]  ([IBCTransferAction.IndexIBCTransfers]),
      - [cmd/actions.go], [cmd/start.go], [cmd/config.go]
                                      ([GetBlockActionByName], [startCmd],
                                       [GetChainConfig], [AddChainConfig]),
      - the chains command            ([addChainConfigsFromRegistry]).

    [ForEachBlock] is a concurrent program: one goroutine per height, a
    buffered channel used as a counting semaphore, a mutex around the slice
    of failed heights and an errgroup.  It is modelled as an executable
    transition system: a state holds the program counter of the calling
    goroutine, the program counter and the local history of every worker and
    the shared variables; a label says which goroutine moves and what the
    environment (chain node, database, timers) answers.  Properties of all
    interleavings are invariants of the reachable states. *)

From Stdlib Require Import ZArith Lia Bool Sorted.
From stdpp Require Import base option list strings.

Local Open Scope Z_scope.
Local Open Scope list_scope.

(* ===================================================================== *)
(** ** Errors and answers of the environment *)
(* ===================================================================== *)

(** Go [error] values.  [RetryErrors] is the aggregate [retry.Error] that
    [retry.Do] returns when [LastErrorOnly] is off. *)
#[local] Unset Elimination Schemes.
Inductive error : Type :=
| EnvError (code : nat)
| ContextCanceled
| RetryErrors (log : list error)
| ErrInvalidConcurrentBlocks (c : nat)
| ErrChainNotConfigured (chainID : string)
| ErrNoBlockAction (name : string)
| ErrNoBlockActionsConfigured
| ErrDebugListen (addr : string) (cause : error)
| ErrDBSession (cause : error).
#[local] Set Elimination Schemes.

(** What a collaborator answers to one call: [nil] or an error. *)
Inductive resp : Type :=
| ROk
| RErr (e : error).

(* ===================================================================== *)
(** ** The retry policy *)
(* ===================================================================== *)

Module Retry.

(** Durations are [time.Duration] values: nanoseconds. *)
Definition Millisecond : Z := 1000000.

(** Modelled from the spec: the options of the retry helper (section 4.4 of the
    specification; the helper is the third-party package retry-go, which is
    not part of the repository): [Attempts], [Delay], [LastErrorOnly] and the
    delay type. *)
Record Config : Type := mkConfig {
  attempts : nat;
  delay : Z;
  lastErrorOnly : bool;
  delayType : nat -> Z -> Z
}.

(** Modelled from the spec: [BackOffDelay], each successive delay doubles the
    previous one: the base delay shifted left by the attempt number, the
    shift capped so that the duration stays within 62 bits. *)
Definition BackOffDelay (n : nat) (d : Z) : Z :=
  let d := if d <=? 0 then 1 else d in
  let maxBackOffN := 62 - Z.log2 d in
  Z.shiftl d (Z.min (Z.of_nat n) maxBackOffN).

(** Modelled from the spec: the error log kept across attempts.  With
    [LastErrorOnly] a single slot is overwritten by every failed attempt,
    otherwise every attempt has its own slot. *)
Definition record (cfg : Config) (log : list error) (e : error) : list error :=
  if lastErrorOnly cfg then [e] else log ++ [e].

(** Modelled from the spec: the error [retry.Do] returns once the attempts
    are used up. *)
Definition result (cfg : Config) (log : list error) : error :=
  if lastErrorOnly cfg then List.last log (RetryErrors []) else RetryErrors log.

(** Modelled from the spec: the error [retry.Do] returns when its context is
    done while it waits between two attempts. *)
Definition aborted (cfg : Config) (log : list error) : error :=
  if lastErrorOnly cfg then ContextCanceled else RetryErrors (log ++ [ContextCanceled]).

End Retry.

(* ===================================================================== *)
(** ** indexer/indexer.go *)
(* ===================================================================== *)

Module Indexer.

(** [indexer.go:21-26]: the retry variables shared by the indexer. *)
Definition RtyAttNum : nat := 5.
Definition RtyDel : Z := Retry.Millisecond * 400.
Definition RtyErr : bool := true.

(** The options handed to [retry.Do] at [indexer.go:80]:
    [RtyAtt, RtyDel, RtyErr, retry.DelayType(retry.BackOffDelay)]. *)
Definition RtyCfg : Retry.Config :=
  Retry.mkConfig RtyAttNum RtyDel RtyErr Retry.BackOffDelay.

(** [indexer.go:39-43]: a [BlockAction].  The engine only ever reads its
    name; what [MigrateSchema] and [Execute] return depends on the database
    and on the chain node and is an answer of the environment. *)
Record BlockAction : Type := mkBlockAction { Name : string }.

(** Program counter of one worker, the closure of [indexer.go:72-114]. *)
Inductive pc : Type :=
| PRetry                                  (* l.76: retry.Do entered, context checked *)
| PAttempt (n : nat) (log : list error)   (* l.78: attempt number n of RPCClient.Block *)
| PSleep (n : nat) (log : list error)     (* retry.Do: back-off timer against ctx.Done *)
| PLock (err : error)                     (* l.90: mutex.Lock() *)
| PAppend (err : error)                   (* l.92: failedBlocks = append(failedBlocks, h) *)
| PDeferred (err : error)                 (* l.91: the deferred mutex.Lock() *)
| PRecvFail (err : error)                 (* l.95: <-sem *)
| PRetErr (err : error)                   (* l.96: return err *)
| PExec (rest : list BlockAction)         (* l.100-110: actions still to execute *)
| PRecvOk                                 (* l.112: <-sem *)
| PRetNil                                 (* l.113: return nil *)
| PDone (r : option error).               (* the goroutine has ended *)

(** What a worker has done so far, oldest first. *)
Inductive event : Type :=
| EvFetch (n : nat) (r : resp)            (* attempt n of Block(egCtx, &h) and its outcome *)
| EvOnRetry (n : nat) (e : error)         (* l.80-86: "Failed to get block" *)
| EvSleep (d : Z)                         (* a back-off delay that elapsed *)
| EvCtxAbort                              (* retry.Do gave up: context done *)
| EvLock                                  (* a mutex.Lock() that returned *)
| EvAppend (h : Z)                        (* h appended to failedBlocks *)
| EvExecute (a : BlockAction) (r : resp)  (* l.101: a.Execute(egCtx, i, block) *)
| EvWarn (a : BlockAction) (e : error)    (* l.103-108 *)
| EvRecv                                  (* <-sem *)
| EvReturn (r : option error).

Record task : Type := mkTask {
  t_height : Z;
  t_pc : pc;
  t_hist : list event
}.

(** Program counter of the goroutine that called [ForEachBlock]. *)
Inductive mpc : Type :=
| MLoop (rest : list Z)          (* l.68: heights still to launch *)
| MWait                          (* l.116: eg.Wait() *)
| MReturned (r : option error).

Record state : Type := mkState {
  st_pass : nat;                 (* number of recursive calls made at l.122 *)
  st_main : mpc;
  st_sem : nat;                  (* len(sem) *)
  st_mutex : bool;               (* mutex is held *)
  st_failed : list Z;            (* failedBlocks *)
  st_egerr : option error;       (* the errgroup's first error *)
  st_egdone : bool;              (* egCtx cancelled by the errgroup *)
  st_ctx : bool;                 (* ctx cancelled by the caller *)
  st_tasks : list task           (* the goroutines started by eg.Go, in launch order *)
}.

(** Which goroutine moves.  [LTask i r]: worker [i] takes its next step and
    the environment answers [r] when the step is a call to it.  [LHandoff i]:
    worker [i], waiting on the empty channel, receives directly from the
    caller blocked on [sem <- struct{}{}].  [LCancel]: the caller's context is
    cancelled. *)
Inductive label : Type :=
| LMain
| LTask (i : nat) (r : resp)
| LHandoff (i : nat)
| LCancel.

Definition set_pc (p : pc) (evs : list event) (t : task) : task :=
  mkTask (t_height t) p (t_hist t ++ evs).

Definition set_main (m : mpc) (s : state) : state :=
  mkState (st_pass s) m (st_sem s) (st_mutex s) (st_failed s)
          (st_egerr s) (st_egdone s) (st_ctx s) (st_tasks s).

Definition set_sem (n : nat) (s : state) : state :=
  mkState (st_pass s) (st_main s) n (st_mutex s) (st_failed s)
          (st_egerr s) (st_egdone s) (st_ctx s) (st_tasks s).

Definition set_mutex (b : bool) (s : state) : state :=
  mkState (st_pass s) (st_main s) (st_sem s) b (st_failed s)
          (st_egerr s) (st_egdone s) (st_ctx s) (st_tasks s).

Definition set_failed (l : list Z) (s : state) : state :=
  mkState (st_pass s) (st_main s) (st_sem s) (st_mutex s) l
          (st_egerr s) (st_egdone s) (st_ctx s) (st_tasks s).

Definition set_group (e : option error) (d : bool) (s : state) : state :=
  mkState (st_pass s) (st_main s) (st_sem s) (st_mutex s) (st_failed s)
          e d (st_ctx s) (st_tasks s).

Definition set_ctx (b : bool) (s : state) : state :=
  mkState (st_pass s) (st_main s) (st_sem s) (st_mutex s) (st_failed s)
          (st_egerr s) (st_egdone s) b (st_tasks s).

Definition set_tasks (ts : list task) (s : state) : state :=
  mkState (st_pass s) (st_main s) (st_sem s) (st_mutex s) (st_failed s)
          (st_egerr s) (st_egdone s) (st_ctx s) ts.

(** [egCtx.Err() != nil]: the errgroup's context is done when the group
    cancelled it or when its parent is done. *)
Definition egctx_done (s : state) : bool := st_ctx s || st_egdone s.

(** The goroutine [eg.Go] starts for height [h]. *)
Definition new_task (h : Z) : task := mkTask h PRetry [].

(** Start of the loop of l.100 over [acts]. *)
Definition exec_from (acts : list BlockAction) : pc :=
  match acts with
  | [] => PRecvOk
  | _ :: _ => PExec acts
  end.

(** [<-sem] seen from the worker: where it continues once it has received. *)
Definition recv_next (t : task) : option task :=
  match t_pc t with
  | PRecvFail e => Some (set_pc (PRetErr e) [EvRecv] t)
  | PRecvOk => Some (set_pc PRetNil [EvRecv] t)
  | _ => None
  end.

Definition is_done (t : task) : bool :=
  match t_pc t with
  | PDone _ => true
  | _ => false
  end.

Section Engine.

(** The arguments of [ForEachBlock] that every pass shares. *)
Variable actions : list BlockAction.
Variable concurrentBlocks : nat.

(** State on entry of [ForEachBlock(ctx, blocks, actions, concurrentBlocks)],
    l.56-61: a fresh mutex, an empty [failedBlocks], an empty channel of
    capacity [concurrentBlocks], a fresh errgroup. *)
Definition enter (pass : nat) (ctx : bool) (blocks : list Z) : state :=
  mkState pass (MLoop blocks) 0 false [] None false ctx [].

Definition init (blocks : list Z) : state := enter 0 false blocks.

(** One step of a worker. [None]: the worker is blocked (or has ended). *)
Definition task_step (r : resp) (s : state) (t : task) : option (state * task) :=
  let cfg := RtyCfg in
  match t_pc t with
  | PRetry =>
      if egctx_done s
      then Some (s, set_pc (PLock ContextCanceled) [EvCtxAbort] t)
      else Some (s, set_pc (PAttempt 0 []) [] t)
  | PAttempt n log =>
      match r with
      | ROk => Some (s, set_pc (exec_from actions) [EvFetch n ROk] t)
      | RErr e =>
          let log' := Retry.record cfg log e in
          let evs := [EvFetch n (RErr e); EvOnRetry n e] in
          if Nat.eqb n (Retry.attempts cfg - 1)
          then Some (s, set_pc (PLock (Retry.result cfg log')) evs t)
          else Some (s, set_pc (PSleep n log') evs t)
      end
  | PSleep n log =>
      match r with
      | ROk =>
          let d := Retry.delayType cfg n (Retry.delay cfg) in
          Some (s, set_pc (PAttempt (S n) log) [EvSleep d] t)
      | RErr _ =>
          if egctx_done s
          then Some (s, set_pc (PLock (Retry.aborted cfg log)) [EvCtxAbort] t)
          else None
      end
  | PLock e =>
      if st_mutex s then None
      else Some (set_mutex true s, set_pc (PAppend e) [EvLock] t)
  | PAppend e =>
      Some (set_failed (st_failed s ++ [t_height t]) s,
            set_pc (PDeferred e) [EvAppend (t_height t)] t)
  | PDeferred e =>
      if st_mutex s then None
      else Some (set_mutex true s, set_pc (PRecvFail e) [EvLock] t)
  | PRecvFail _ | PRecvOk =>
      match st_sem s, recv_next t with
      | S n, Some t' => Some (set_sem n s, t')
      | _, _ => None
      end
  | PRetErr e =>
      let first := match st_egerr s with Some e0 => Some e0 | None => Some e end in
      Some (set_group first true s, set_pc (PDone (Some e)) [EvReturn (Some e)] t)
  | PExec [] => Some (s, set_pc PRecvOk [] t)
  | PExec (a :: rest) =>
      let evs := match r with
                 | ROk => [EvExecute a ROk]
                 | RErr e => [EvExecute a (RErr e); EvWarn a e]
                 end in
      Some (s, set_pc (exec_from rest) evs t)
  | PRetNil => Some (s, set_pc (PDone None) [EvReturn None] t)
  | PDone _ => None
  end.

(** One step of the calling goroutine, l.68-124. *)
Definition main_step (s : state) : option state :=
  match st_main s with
  | MLoop [] => Some (set_main MWait s)
  | MLoop (h :: rest) =>
      if Nat.ltb (st_sem s) concurrentBlocks
      then Some (set_main (MLoop rest)
                   (set_sem (S (st_sem s))
                      (set_tasks (st_tasks s ++ [new_task h]) s)))
      else None
  | MWait =>
      if forallb is_done (st_tasks s)
      then match st_egerr s with
           | Some e => Some (set_main (MReturned (Some e)) s)
           | None =>
               match st_failed s with
               | [] => Some (set_main (MReturned None) s)
               | _ :: _ => Some (enter (S (st_pass s)) (st_ctx s) (st_failed s))
               end
           end
      else None
  | MReturned _ => None
  end.

(** A send on [sem] that meets worker [i] waiting on the empty channel. *)
Definition handoff_step (i : nat) (s : state) : option state :=
  match st_main s, st_sem s, st_tasks s !! i with
  | MLoop (h :: rest), O, Some t =>
      match recv_next t with
      | Some t' =>
          Some (set_main (MLoop rest)
                  (set_tasks (<[i := t']> (st_tasks s) ++ [new_task h]) s))
      | None => None
      end
  | _, _, _ => None
  end.

Definition step (l : label) (s : state) : option state :=
  match l with
  | LMain => main_step s
  | LTask i r =>
      match st_tasks s !! i with
      | Some t =>
          match task_step r s t with
          | Some (s', t') => Some (set_tasks (<[i := t']> (st_tasks s')) s')
          | None => None
          end
      | None => None
      end
  | LHandoff i => handoff_step i s
  | LCancel => Some (set_ctx true s)
  end.

Fixpoint run (ls : list label) (s : state) : option state :=
  match ls with
  | [] => Some s
  | l :: ls' =>
      match step l s with
      | Some s' => run ls' s'
      | None => None
      end
  end.

(** The states [ForEachBlock(ctx, blocks, actions, concurrentBlocks)] can be in. *)
Inductive reachable (blocks : list Z) : state -> Prop :=
| reach_init : reachable blocks (init blocks)
| reach_step s l s' :
    reachable blocks s -> step l s = Some s' -> reachable blocks s'.

End Engine.

(* --------------------------------------------------------------------- *)
(** *** What the proofs observe of a state *)
(* --------------------------------------------------------------------- *)
Definition holds_lock (t : task) : bool :=
  match t_pc t with PAppend _ | PDeferred _ => true | _ => false end.
Definition at_deferred (t : task) : bool :=
  match t_pc t with PDeferred _ => true | _ => false end.
Definition past_deferred (t : task) : bool :=
  match t_pc t with PRecvFail _ | PRetErr _ | PDone (Some _) => true | _ => false end.
Definition holds_slot (t : task) : bool :=
  match t_pc t with PRetErr _ | PRetNil | PDone _ => false | _ => true end.
Definition slot (t : task) : nat := if holds_slot t then 1%nat else 0%nat.
Definition in_flight (s : state) : nat := length (List.filter holds_slot (st_tasks s)).

Record engine_inv (s : state) : Prop := mkInv {
  inv_lock : Forall (fun t => holds_lock t = true -> st_mutex s = true) (st_tasks s);
  inv_past : Forall (fun t => past_deferred t = false) (st_tasks s);
  inv_egerr : st_egerr s = None;
  inv_egdone : st_egdone s = false;
  inv_pass : st_pass s = 0%nat;
  inv_failed : st_failed s = [] \/ Exists (fun t => at_deferred t = true) (st_tasks s);
  inv_ret : forall r, st_main s = MReturned r ->
            r = None /\ st_failed s = [] /\ forallb is_done (st_tasks s) = true
}.

(** The history a worker's retries leave behind. *)
Definition round (j : nat) (e : error) : list event :=
  [EvFetch j (RErr e); EvOnRetry j e;
   EvSleep (Retry.delayType RtyCfg j (Retry.delay RtyCfg))].

Fixpoint rounds (j : nat) (es : list error) : list event :=
  match es with
  | [] => []
  | e :: es' => round j e ++ rounds (S j) es'
  end.

Definition last_try (j : nat) (e : error) : list event :=
  [EvFetch j (RErr e); EvOnRetry j e].

Definition exec_event (ar : BlockAction * resp) : list event :=
  match snd ar with
  | ROk => [EvExecute (fst ar) ROk]
  | RErr e => [EvExecute (fst ar) (RErr e); EvWarn (fst ar) e]
  end.

Definition exec_events (rs : list (BlockAction * resp)) : list event :=
  concat (map exec_event rs).

(** The failure branch, l.88-96: the error it carries and what the worker
    has done since it entered the branch. *)
Definition fail_tail (h : Z) (p : pc) : option (error * list event) :=
  match p with
  | PLock e => Some (e, [])
  | PAppend e => Some (e, [EvLock])
  | PDeferred e => Some (e, [EvLock; EvAppend h])
  | PRecvFail e => Some (e, [EvLock; EvAppend h; EvLock])
  | PRetErr e => Some (e, [EvLock; EvAppend h; EvLock; EvRecv])
  | PDone (Some e) =>
      Some (e, [EvLock; EvAppend h; EvLock; EvRecv; EvReturn (Some e)])
  | _ => None
  end.

(** The success branch, l.99-113: the actions still to execute and what
    the worker has done after the last [Execute]. *)
Definition ok_tail (p : pc) : option (list BlockAction * list event) :=
  match p with
  | PExec rest => Some (rest, [])
  | PRecvOk => Some ([], [])
  | PRetNil => Some ([], [EvRecv])
  | PDone None => Some ([], [EvRecv; EvReturn None])
  | _ => None
  end.

(** The histories a worker can have, by program counter. *)
Inductive hist_ok (actions : list BlockAction) (t : task) : Prop :=
| hist_entry :
    t_pc t = PRetry -> t_hist t = [] -> hist_ok actions t
| hist_attempt n log es :
    t_pc t = PAttempt n log -> length es = n -> (n < RtyAttNum)%nat ->
    t_hist t = rounds 0 es -> log = option_list (last es) ->
    hist_ok actions t
| hist_sleep n log es e :
    t_pc t = PSleep n log -> length es = n -> (S n < RtyAttNum)%nat ->
    t_hist t = rounds 0 es ++ last_try n e -> log = [e] ->
    hist_ok actions t
| hist_exhausted e tail es :
    fail_tail (t_height t) (t_pc t) = Some (e, tail) ->
    length es = (RtyAttNum - 1)%nat ->
    t_hist t = rounds 0 es ++ last_try (RtyAttNum - 1) e ++ tail ->
    hist_ok actions t
| hist_aborted tail pre :
    fail_tail (t_height t) (t_pc t) = Some (ContextCanceled, tail) ->
    t_hist t = pre ++ EvCtxAbort :: tail ->
    (pre = [] \/
     exists es e, (S (length es) < RtyAttNum)%nat /\
                  pre = rounds 0 es ++ last_try (length es) e) ->
    hist_ok actions t
| hist_fetched pending tail es rs :
    ok_tail (t_pc t) = Some (pending, tail) ->
    (length es < RtyAttNum)%nat ->
    t_hist t = rounds 0 es ++ [EvFetch (length es) ROk] ++ exec_events rs ++ tail ->
    map fst rs ++ pending = actions ->
    hist_ok actions t.

(** The worker's fetch failed on every attempt or was given up: it is in the
    branch of l.88-96 or has left it. *)
Definition failed_fetch (t : task) : bool :=
  match t_pc t with
  | PLock _ | PAppend _ | PDeferred _ | PRecvFail _ | PRetErr _ | PDone (Some _) => true
  | _ => false
  end.

(** The actions a worker has called [Execute] on, oldest first. *)
Definition executed (hist : list event) : list BlockAction :=
  flat_map (fun ev => match ev with EvExecute a _ => [a] | _ => [] end) hist.

(** Several steps of one worker, the others standing still. *)
Fixpoint solo (actions : list BlockAction) (rs : list resp) (s : state) (t : task)
    : option (state * task) :=
  match rs with
  | [] => Some (s, t)
  | r :: rs' =>
      match task_step actions r s t with
      | Some (s1, t1) => solo actions rs' s1 t1
      | None => None
      end
  end.

(** The answers under which the chain node fails worker [i] five times in a
    row, [e0] to [e4] being the errors; each failure but the last is
    followed by the back-off timer, the last by [mutex.Lock()] and the
    append. *)
Definition failing_answers (e0 e1 e2 e3 e4 : error) : list resp :=
  [ROk;
   RErr e0; ROk;
   RErr e1; ROk;
   RErr e2; ROk;
   RErr e3; ROk;
   RErr e4;
   ROk;
   ROk].

Definition failing_schedule (i : nat) (e0 e1 e2 e3 e4 : error) : list label :=
  map (LTask i) (failing_answers e0 e1 e2 e3 e4).

(** The answers under which worker [i] fetches its block at the first
    attempt and its actions answer [answers]. *)
Definition fetched_answers (answers : list resp) : list resp :=
  [ROk; ROk] ++ answers ++ [ROk; ROk].

(** The schedule that launches the heights one after the other, each worker
    running to its end before the next is launched; [ans h a] is what
    [a.Execute] returns on the block of height [h]. *)
Fixpoint sequential_schedule (actions : list BlockAction)
    (ans : Z -> BlockAction -> resp) (i : nat) (blocks : list Z) : list label :=
  match blocks with
  | [] => [LMain; LMain]
  | h :: rest =>
      LMain :: map (LTask i) (fetched_answers (map (ans h) actions))
        ++ sequential_schedule actions ans (S i) rest
  end.

(** A worker that fetched its block at once, executed every action and
    returned. *)
Definition finished (actions : list BlockAction) (ans : Z -> BlockAction -> resp)
    (h : Z) : task :=
  mkTask h (PDone None)
    ([EvFetch 0 ROk] ++ exec_events (map (fun a => (a, ans h a)) actions)
       ++ [EvRecv; EvReturn None]).

(** The history of five failed attempts: the back-off delays between them
    are 400ms, 800ms, 1.6s and 3.2s. *)
Definition exhausted_history (e0 e1 e2 e3 e4 : error) : list event :=
  [EvFetch 0 (RErr e0); EvOnRetry 0 e0; EvSleep (400 * Retry.Millisecond);
   EvFetch 1 (RErr e1); EvOnRetry 1 e1; EvSleep (800 * Retry.Millisecond);
   EvFetch 2 (RErr e2); EvOnRetry 2 e2; EvSleep (1600 * Retry.Millisecond);
   EvFetch 3 (RErr e3); EvOnRetry 3 e3; EvSleep (3200 * Retry.Millisecond);
   EvFetch 4 (RErr e4); EvOnRetry 4 e4].

(** Invariant of [ForEachBlock] called with a concurrency of zero. *)
Definition zero_inv (blocks : list Z) (s : state) : Prop :=
  st_tasks s = [] /\ st_sem s = 0%nat /\ st_failed s = [] /\ st_egerr s = None /\
  (st_main s = MLoop blocks \/
   (blocks = [] /\ (st_main s = MWait \/ st_main s = MReturned None))).

(** A bound on the steps a goroutine still has to take: [la] is the number
    of registered actions. *)
Definition weight (la : nat) (p : pc) : nat :=
  match p with
  | PRetry => la + 17
  | PAttempt n _ => la + 6 + 2 * (RtyAttNum - n)
  | PSleep n _ => la + 5 + 2 * (RtyAttNum - n)
  | PLock _ => 5
  | PAppend _ => 4
  | PDeferred _ => 3
  | PRecvFail _ => 2
  | PRetErr _ => 1
  | PExec rest => length rest + 3
  | PRecvOk => 2
  | PRetNil => 1
  | PDone _ => 0
  end.

Definition main_weight (la : nat) (m : mpc) : nat :=
  match m with
  | MLoop rest => (la + 18) * length rest + 2
  | MWait => 1
  | MReturned _ => 0
  end.

Definition measure (actions : list BlockAction) (s : state) : nat :=
  main_weight (length actions) (st_main s)
  + sum_list_with (fun t => weight (length actions) (t_pc t)) (st_tasks s).

(** Steps of the goroutines, as opposed to the cancellation of the context. *)
Definition is_move (l : label) : bool :=
  match l with
  | LCancel => false
  | _ => true
  end.

(** No fetch has failed or been given up, and the context is live. *)
Definition undisturbed (s : state) : Prop :=
  Forall (fun t => failed_fetch t = false) (st_tasks s) /\ egctx_done s = false.

(** The heights the loop of l.68 has still to launch. *)
Definition pending_heights (s : state) : list Z :=
  match st_main s with
  | MLoop rest => rest
  | _ => []
  end.

(** The worker is between [mutex.Lock()] of l.90 and the append of l.92. *)
Definition at_append (t : task) : bool :=
  match t_pc t with PAppend _ => true | _ => false end.

(** Calls of [RPCClient.Block] a worker has made. *)
Definition is_fetch (ev : event) : bool :=
  match ev with EvFetch _ _ => true | _ => false end.

Definition fetches (hist : list event) : nat := length (List.filter is_fetch hist).

(** Calls of [RPCClient.Block] made by all the workers of a state. *)
Definition total_fetches (s : state) : nat :=
  sum_list_with (fun t => fetches (t_hist t)) (st_tasks s).

(** A worker that has not yet called the chain node, or is on its way to
    the deferred [mutex.Lock()] of l.91. *)
Definition before_deferred (t : task) : bool :=
  match t_pc t with
  | PRetry | PLock _ | PAppend _ | PDeferred _ => true
  | _ => false
  end.

(** The workers about to append and the heights appended: never more than
    one in all, and none while the mutex is free. *)
Definition append_inv (s : state) : Prop :=
  (length (List.filter at_append (st_tasks s)) + length (st_failed s)
   <= if st_mutex s then 1 else 0)%nat.

(** The context is cancelled and a height is still to be launched or a
    worker is on its way to the deferred [mutex.Lock()]. *)
Definition cancelled_inv (s : state) : Prop :=
  st_ctx s = true /\
  ((exists h rest, st_main s = MLoop (h :: rest)) \/
   Exists (fun t => before_deferred t = true) (st_tasks s)).

(** The run used in the examples: heights 7 and 8, one block at a time,
    two actions; the chain node fails the five attempts at height 7. *)
Definition sample_actions : list BlockAction :=
  [mkBlockAction "A"; mkBlockAction "B"].

Definition stuck_schedule : list label :=
  LMain :: failing_schedule 0 (EnvError 0) (EnvError 1) (EnvError 2)
             (EnvError 3) (EnvError 4).

Definition stuck_task : task :=
  mkTask 7 (PDeferred (EnvError 4))
    (exhausted_history (EnvError 0) (EnvError 1) (EnvError 2) (EnvError 3)
       (EnvError 4) ++ [EvLock; EvAppend 7]).

Definition stuck_state : state :=
  mkState 0 (MLoop [8]) 1 true [7] None false false [stuck_task].

(** The answers under which the chain node fails a worker five times in a
    row, up to the point where [retry.Do] returns. *)
Definition exhausting_answers (e0 e1 e2 e3 e4 : error) : list resp :=
  [ROk;
   RErr e0; ROk;
   RErr e1; ROk;
   RErr e2; ROk;
   RErr e3; ROk;
   RErr e4].

(** The run of the examples with two blocks at a time, the chain node
    failing the five attempts at both heights: the worker of height 7
    appends it and waits in the deferred [mutex.Lock()], the worker of
    height 8 has used up its attempts and waits at [mutex.Lock()] of
    l.90. *)
Definition both_failing_schedule : list label :=
  LMain :: LMain
    :: failing_schedule 0 (EnvError 0) (EnvError 1) (EnvError 2) (EnvError 3) (EnvError 4)
    ++ map (LTask 1)
         (exhausting_answers (EnvError 5) (EnvError 6) (EnvError 7) (EnvError 8)
            (EnvError 9)).

Definition waiting_task : task :=
  mkTask 8 (PLock (EnvError 9))
    (exhausted_history (EnvError 5) (EnvError 6) (EnvError 7) (EnvError 8) (EnvError 9)).

Definition both_failing_state : state :=
  mkState 0 (MLoop []) 2 true [7] None false false [stuck_task; waiting_task].

(** The same run when the fetch of height 7 succeeds at once: the worker
    is about to execute the first action. *)
Definition exec_schedule : list label := [LMain; LTask 0 ROk; LTask 0 ROk].

Definition exec_task : task := mkTask 7 (PExec sample_actions) [EvFetch 0 ROk].

Definition exec_state : state :=
  mkState 0 (MLoop [8]) 1 false [] None false false [exec_task].

(** Answers of the actions in the examples: [A] fails on height 7. *)
Definition sample_answers (h : Z) (a : BlockAction) : resp :=
  if (h =? 7) && String.eqb (Name a) "A" then RErr (EnvError 9) else ROk.


(** The run of the examples once it has returned, every fetch having
    succeeded at once. *)
Definition done_state : state :=
  mkState 0 (MReturned None) 0 false [] None false false
    (map (finished sample_actions sample_answers) [7; 8]).

(** The run of the examples when the context is cancelled before the
    first height is launched. *)
Definition cancelled_state : state :=
  mkState 0 (MLoop [7; 8]) 0 false [] None false true [].

End Indexer.

(* ===================================================================== *)
(** ** indexer/actions/ibc *)
(* ===================================================================== *)

Module IBC.

(** [ibc.go:20] *)
Definition BlockActionName : string := "ics20_transfers".

(** The parts of the cosmos-sdk and ibc-go types that the action reads. *)
Record Coin : Type := mkCoin { Denom : string; Amount : Z }.

Record Packet : Type := mkPacket {
  SourcePort : string;
  SourceChannel : string;
  DestinationPort : string;
  DestinationChannel : string
}.

Inductive Msg : Type :=
| MsgTransfer (srcPort srcChannel : string) (token : Coin) (sender receiver : string)
| MsgRecvPacket (packet : Packet) (signer : string)
| MsgTimeout (packet : Packet) (signer : string)
| MsgAcknowledgement (packet : Packet) (signer : string)
| MsgOther.

(** A decoded [sdk.Tx].  [asFeeTx] is [Some fee] when the dynamic type of
    the value also implements [sdk.FeeTx], [fee] being what [GetFee()]
    returns; it is [None] when it does not. *)
Record SdkTx : Type := mkSdkTx {
  GetMsgs : list Msg;
  asFeeTx : option (list Coin)
}.

Record TxResult : Type := mkTxResult {
  Code : Z;
  Log : string;
  GasUsed : Z;
  GasWanted : Z
}.

(** [coretypes.ResultBlock]: height, time and raw transactions. *)
Record Block : Type := mkBlock {
  Height : Z;
  Time : Z;
  Txs : list string
}.

(** [ibc_models.go]: the rows written to the database.  A [pgtype.Bytea]
    that was never set is [None]. *)
Record TxRow : Type := mkTxRow {
  tx_Hash : option string;
  tx_Timestamp : Z;
  tx_ChainID : string;
  tx_BlockHeight : Z;
  tx_RawLog : string;
  tx_Code : Z;
  tx_FeeAmount : string;
  tx_FeeDenom : string;
  tx_GasUsed : Z;
  tx_GasWanted : Z
}.

Record TransferRow : Type := mkTransferRow {
  tr_TxHash : option string;
  tr_MsgIndex : nat;
  tr_Signer : string;
  tr_Sender : string;
  tr_Receiver : string;
  tr_Amount : string;
  tr_Denom : string;
  tr_SrcChannel : string;
  tr_SrcPort : string;
  tr_Route : string
}.

Record PacketRow : Type := mkPacketRow {
  pk_TxHash : option string;
  pk_MsgIndex : nat;
  pk_Signer : string;
  pk_SrcChannel : string;
  pk_DstChannel : string;
  pk_SrcPort : string;
  pk_DstPort : string
}.

Inductive Row : Type :=
| RowTx (r : TxRow)
| RowMsgTransfer (r : TransferRow)
| RowMsgRecvPacket (r : PacketRow)
| RowMsgTimeout (r : PacketRow)
| RowMsgAcknowledgement (r : PacketRow).

Inductive Level : Type := Debug | Info | Warn.

(** A log line: level, message, the block height and the index it reports. *)
Record LogEntry : Type := mkLog {
  level : Level;
  message : string;
  log_height : Z;
  log_index : nat
}.

(** What the action reaches through [*indexer.Indexer] and its context:
    the codec, the chain client, the database, [pgtype] setters.  [W] is
    the state of the outside world (node, database, clock); calls that
    depend on it or change it take it and return it. *)
Record Collaborators (W : Type) : Type := mkCollaborators {
  ChainID : string;
  TxDecoder : string -> error + SdkTx;
  TxHash : string -> string;
  QueryTx : string -> W -> (error + TxResult) * W;
  (* the select of l.64-69: [true] when [ctx.Done()] is taken *)
  CtxDone : W -> bool * W;
  ByteaSet : string -> option error;
  TimestampSet : Z -> option error;
  JSONBSet : string -> option error;
  DBCreate : Row -> W -> option error * W;
  (* [MsgTransfer.Route()] *)
  TransferRoute : string;
  (* [sdk.Int.String()] *)
  IntString : Z -> string
}.

Arguments ChainID {W}.
Arguments TxDecoder {W}.
Arguments TxHash {W}.
Arguments QueryTx {W}.
Arguments CtxDone {W}.
Arguments ByteaSet {W}.
Arguments TimestampSet {W}.
Arguments JSONBSet {W}.
Arguments DBCreate {W}.
Arguments TransferRoute {W}.
Arguments IntString {W}.

(** How a call ends: it returns, or the goroutine panics. *)
Inductive outcome (A : Type) : Type :=
| Normal (a : A)
| Panic (reason : string).

Arguments Normal {A}.
Arguments Panic {A}.

(** Computations of the action: they thread the world and the log written
    so far, and stop at a panic. *)
Definition M (W A : Type) : Type :=
  W * list LogEntry -> outcome A * (W * list LogEntry).

Definition ret {W A : Type} (a : A) : M W A := fun s => (Normal a, s).

Definition bind {W A B : Type} (m : M W A) (k : A -> M W B) : M W B :=
  fun s =>
    match m s with
    | (Normal a, s') => k a s'
    | (Panic r, s') => (Panic r, s')
    end.

Definition panic {W A : Type} (reason : string) : M W A :=
  fun s => (Panic reason, s).

Definition log {W : Type} (e : LogEntry) : M W unit :=
  fun s => (Normal tt, (fst s, snd s ++ [e])).

Definition call {W A : Type} (op : W -> A * W) : M W A :=
  fun s => let r := op (fst s) in (Normal (fst r), (snd r, snd s)).

Notation "x <- m ;; k" := (bind m (fun x => k))
  (at level 100, m at next level, right associativity).
Notation "m ;;; k" := (bind m (fun _ => k))
  (at level 100, right associativity).

Definition quote : string := String (Ascii.ascii_of_nat 34) EmptyString.

(** [fmt.Sprintf] of l.154: the log wrapped as the value of a JSON field
    named error. *)
Definition error_json (l : string) : string :=
  ("{" ++ quote ++ "error" ++ quote ++ ":" ++ quote ++ l ++ quote ++ "}")%string.

Section Action.

Context {W : Type} (c : Collaborators W).

(** [TxHash.Set(hash)] of [HandleIBCMsg]: a failure is logged and the row
    is written all the same, with the hash left unset. *)
Definition set_msg_hash (model : string) (hash : string) (msgIndex : nat)
    (height : Z) : M W (option string) :=
  match ByteaSet c hash with
  | Some _ =>
      log (mkLog Warn ("Failed to set tx hash on " ++ model ++ " model") height msgIndex) ;;;
      ret None
  | None => ret (Some hash)
  end.

Definition create_msg (model : string) (row : Row) (msgIndex : nat)
    (height : Z) : M W unit :=
  r <- call (DBCreate c row) ;;
  match r with
  | Some _ => log (mkLog Warn ("Failed to insert " ++ model ++ " into DB") height msgIndex)
  | None => ret tt
  end.

Definition packet_row (h : option string) (msgIndex : nat) (p : Packet)
    (signer : string) : PacketRow :=
  mkPacketRow h msgIndex signer (SourceChannel p) (DestinationChannel p)
              (SourcePort p) (DestinationPort p).

(** [ibc.go:206-334] *)
Definition HandleIBCMsg (msg : Msg) (msgIndex : nat) (height : Z)
    (hash : string) : M W unit :=
  match msg with
  | MsgTransfer srcPort srcChannel token sender receiver =>
      h <- set_msg_hash "MsgTransfer" hash msgIndex height ;;
      create_msg "MsgTransfer"
        (RowMsgTransfer
           (mkTransferRow h msgIndex sender sender receiver
              (IntString c (Amount token)) (Denom token)
              srcChannel srcPort (TransferRoute c)))
        msgIndex height
  | MsgRecvPacket p signer =>
      h <- set_msg_hash "MsgRecvPacket" hash msgIndex height ;;
      create_msg "MsgRecvPacket"
        (RowMsgRecvPacket (packet_row h msgIndex p signer)) msgIndex height
  | MsgTimeout p signer =>
      h <- set_msg_hash "MsgTimeout" hash msgIndex height ;;
      create_msg "MsgTimeout"
        (RowMsgTimeout (packet_row h msgIndex p signer)) msgIndex height
  | MsgAcknowledgement p signer =>
      h <- set_msg_hash "MsgAcknowledgement" hash msgIndex height ;;
      create_msg "MsgAcknowledgement"
        (RowMsgAcknowledgement (packet_row h msgIndex p signer)) msgIndex height
  | MsgOther => ret tt
  end.

(** The loop of l.174-176. *)
Fixpoint handle_msgs (msgIndex : nat) (msgs : list Msg) (height : Z)
    (hash : string) : M W unit :=
  match msgs with
  | [] => ret tt
  | m :: rest =>
      HandleIBCMsg m msgIndex height hash ;;;
      handle_msgs (S msgIndex) rest height hash
  end.

(** [ibc.go:182-202] *)
Definition LogTxInsertion (err : option error) (msgIndex : nat) (height : Z)
    : M W unit :=
  match err with
  | Some _ => log (mkLog Warn "Failed to write tx to database." height (msgIndex + 1))
  | None => log (mkLog Info "Successfully wrote tx to database." height (msgIndex + 1))
  end.

(** One iteration of the loop of [IndexIBCTransfers], after the context
    check: l.71-176.  Every [continue] ends the iteration. *)
Definition index_tx (block : Block) (index : nat) (tx : string) : M W unit :=
  match TxDecoder c tx with
  | inl _ => log (mkLog Debug "Failed to decode tx" (Height block) (index + 1))
  | inr sdkTx =>
      txRes <- call (QueryTx c (TxHash c tx)) ;;
      match txRes with
      | inl _ => log (mkLog Debug "Failed to query tx results" (Height block) (index + 1))
      | inr txRes =>
          (* l.105: fee := sdkTx.(sdk.FeeTx) *)
          match asFeeTx sdkTx with
          | None => panic "interface conversion: sdk.Tx is not sdk.FeeTx: missing method"
          | Some fee =>
              let feeAmount :=
                match fee with
                | [] => "0"%string
                | coin :: _ => IntString c (Amount coin)
                end in
              let feeDenom :=
                match fee with
                | [] => EmptyString
                | coin :: _ => Denom coin
                end in
              match ByteaSet c (TxHash c tx) with
              | Some _ =>
                  log (mkLog Warn "Failed to set tx hash on Tx model" (Height block) (index + 1))
              | None =>
                  match TimestampSet c (Time block) with
                  | Some _ =>
                      log (mkLog Warn "Failed to set block time on Tx model"
                             (Height block) (index + 1))
                  | None =>
                      let rawLog :=
                        if 0 <? Code txRes then error_json (Log txRes)
                        else Log txRes in
                      match JSONBSet c rawLog with
                      | Some _ =>
                          log (mkLog Warn "Failed to set raw log on Tx model"
                                 (Height block) (index + 1))
                      | None =>
                          r <- call (DBCreate c
                                 (RowTx (mkTxRow (Some (TxHash c tx)) (Time block)
                                           (ChainID c) (Height block) rawLog
                                           (Code txRes) feeAmount feeDenom
                                           (GasUsed txRes) (GasWanted txRes)))) ;;
                          LogTxInsertion r index (Height block) ;;;
                          handle_msgs 0 (GetMsgs sdkTx) (Height block) (TxHash c tx)
                      end
                  end
              end
          end
      end
  end.

(** The loop of l.61-177 from transaction number [index] on. *)
Fixpoint index_txs (block : Block) (index : nat) (txs : list string)
    : M W (option error) :=
  match txs with
  | [] => ret None
  | tx :: rest =>
      done <- call (CtxDone c) ;;
      if done then ret (Some ContextCanceled)
      else index_tx block index tx ;;; index_txs block (S index) rest
  end.

(** [ibc.go:60] *)
Definition IndexIBCTransfers (block : Block) : M W (option error) :=
  index_txs block 0 (Txs block).

(** [ibc.go:54-56] *)
Definition Execute (block : Block) : M W (option error) :=
  IndexIBCTransfers block.

End Action.

(** Collaborators used in the examples: the world has no state, the
    context is never done, every transaction decodes to a value with one
    unknown message that does not implement [sdk.FeeTx], and its results
    are found. *)
Definition sample_collaborators : Collaborators unit :=
  mkCollaborators unit "cosmoshub-4"
    (fun _ => inr (mkSdkTx [MsgOther] None))
    (fun tx => tx)
    (fun _ w => (inr (mkTxResult 0 EmptyString 10 20), w))
    (fun w => (false, w))
    (fun _ => None) (fun _ => None) (fun _ => None)
    (fun _ w => (None, w))
    "transfer"
    (fun _ => "0"%string).

(** [c] with a database that also keeps the rows handed to [DB.Create], in
    the order of the calls; every answer is that of [c]. *)
Definition recording {W : Type} (c : Collaborators W) : Collaborators (W * list Row) :=
  mkCollaborators (W * list Row) (ChainID c) (TxDecoder c) (TxHash c)
    (fun hash w => let r := QueryTx c hash (fst w) in (fst r, (snd r, snd w)))
    (fun w => let r := CtxDone c (fst w) in (fst r, (snd r, snd w)))
    (ByteaSet c) (TimestampSet c) (JSONBSet c)
    (fun row w => let r := DBCreate c row (fst w) in (fst r, (snd r, snd w ++ [row])))
    (TransferRoute c) (IntString c).

(** A state of the recording database without its record. *)
Definition forget {W : Type} (s : (W * list Row) * list LogEntry) : W * list LogEntry :=
  (fst (fst s), snd s).

(** What the checks of a row read. *)
Definition is_tx_row (row : Row) : bool :=
  match row with
  | RowTx _ => true
  | _ => false
  end.

Definition row_hash (row : Row) : option string :=
  match row with
  | RowTx r => tx_Hash r
  | RowMsgTransfer r => tr_TxHash r
  | RowMsgRecvPacket r | RowMsgTimeout r | RowMsgAcknowledgement r => pk_TxHash r
  end.

Definition row_index (row : Row) : option nat :=
  match row with
  | RowTx _ => None
  | RowMsgTransfer r => Some (tr_MsgIndex r)
  | RowMsgRecvPacket r | RowMsgTimeout r | RowMsgAcknowledgement r => Some (pk_MsgIndex r)
  end.

(** The messages [HandleIBCMsg] has a case for. *)
Definition is_ibc (m : Msg) : bool :=
  match m with
  | MsgOther => false
  | _ => true
  end.

(** [row] is of the model of message [m]. *)
Definition same_kind (m : Msg) (row : Row) : bool :=
  match m, row with
  | MsgTransfer _ _ _ _ _, RowMsgTransfer _
  | MsgRecvPacket _ _, RowMsgRecvPacket _
  | MsgTimeout _ _, RowMsgTimeout _
  | MsgAcknowledgement _ _, RowMsgAcknowledgement _ => true
  | _, _ => false
  end.

(** The rows of one indexed transaction: its [Tx] row and the rows of its
    messages. *)
Definition group_rows (g : TxRow * list Row) : list Row := RowTx (fst g) :: snd g.

(** The rows of transaction [tx] when the chain node is in state [w] as
    its results are asked for: the transaction decodes to a fee
    transaction, its results are found, its hash, the time of the block
    and its raw log can be set; the [Tx] row is the one of l.115-126 and
    l.152-155, and there is one row per IBC message, none of them a [Tx]
    row, each with the hash of the transaction. *)
Definition tx_rows {W : Type} (c : Collaborators W) (block : Block)
    (tx : string) (w : W) (g : TxRow * list Row) : Prop :=
  exists sdkTx fee txRes w1,
    TxDecoder c tx = inr sdkTx /\
    QueryTx c (TxHash c tx) w = (inr txRes, w1) /\
    asFeeTx sdkTx = Some fee /\
    ByteaSet c (TxHash c tx) = None /\
    TimestampSet c (Time block) = None /\
    JSONBSet c (tx_RawLog (fst g)) = None /\
    fst g =
      mkTxRow (Some (TxHash c tx)) (Time block) (ChainID c) (Height block)
        (if 0 <? Code txRes then error_json (Log txRes) else Log txRes)
        (Code txRes)
        (match fee with
         | [] => "0"%string
         | coin :: _ => IntString c (Amount coin)
         end)
        (match fee with
         | [] => EmptyString
         | coin :: _ => Denom coin
         end)
        (GasUsed txRes) (GasWanted txRes) /\
    length (snd g) = length (List.filter is_ibc (GetMsgs sdkTx)) /\
    Forall (fun row => is_tx_row row = false /\ row_hash row = Some (TxHash c tx)) (snd g).

(** The group of rows [snd ig] is the one of the transaction at position
    [fst ig] of the block, in the run of [Execute] from [s0]: the
    transactions before it have been gone through without the context
    being done, the context is not done at its turn, and the rows are
    those of the transaction in the state the chain node is in then. *)
Definition tx_group {W : Type} (c : Collaborators W) (block : Block)
    (s0 : (W * list Row) * list LogEntry) (ig : nat * (TxRow * list Row)) : Prop :=
  exists tx s1 w0,
    Txs block !! fst ig = Some tx /\
    index_txs (recording c) block 0 (take (fst ig) (Txs block)) s0 = (Normal None, s1) /\
    CtxDone c (fst (fst s1)) = (false, w0) /\
    tx_rows c block tx w0 (snd ig).

(** Collaborators used in the examples of the rows written: as
    [sample_collaborators], but every transaction decodes to a fee
    transaction of a transfer, an unknown message and an acknowledgement,
    and the database refuses every row. *)
Definition sample_packet : Packet := mkPacket "transfer" "channel-0" "transfer" "channel-1".

Definition sample_tx : SdkTx :=
  mkSdkTx [MsgTransfer "transfer" "channel-0" (mkCoin "uatom" 5) "alice" "bob";
           MsgOther;
           MsgAcknowledgement sample_packet "relayer"]
          (Some [mkCoin "uatom" 2]).

Definition refusing_collaborators : Collaborators unit :=
  mkCollaborators unit "cosmoshub-4"
    (fun _ => inr sample_tx)
    (fun tx => tx)
    (fun _ w => (inr (mkTxResult 0 EmptyString 10 20), w))
    (fun w => (false, w))
    (fun _ => None) (fun _ => None) (fun _ => None)
    (fun _ w => (Some (EnvError 3), w))
    "transfer"
    (fun _ => "5"%string).

(** Collaborators whose context is done from the start. *)
Definition cancelled_collaborators : Collaborators unit :=
  mkCollaborators unit "cosmoshub-4"
    (fun _ => inr sample_tx)
    (fun tx => tx)
    (fun _ w => (inr (mkTxResult 0 EmptyString 10 20), w))
    (fun w => (true, w))
    (fun _ => None) (fun _ => None) (fun _ => None)
    (fun _ w => (None, w))
    "transfer"
    (fun _ => "5"%string).

End IBC.

(* ===================================================================== *)
(** ** cmd *)
(* ===================================================================== *)

Module Cmd.

Import Indexer.

(** [config.go:34-38]: the chains are kept by their [ChainID]; the database
    settings only travel to [ConnectToDatabase]. *)
Record Config : Type := mkConfig {
  ChainConfigs : list string;
  Actions : list string
}.

(** [config.go:233-240] *)
Fixpoint GetChainConfig (chains : list string) (chainID : string) : error + string :=
  match chains with
  | [] => inl (ErrChainNotConfigured chainID)
  | chain :: rest =>
      if String.eqb chainID chain then inr chain
      else GetChainConfig rest chainID
  end.

(** [ibc.go:30-35] seen from the engine. *)
Definition NewIBCTransfer : BlockAction := mkBlockAction IBC.BlockActionName.

(** [actions.go:16-23] *)
Definition GetBlockActionByName (name : string) : error + BlockAction :=
  if String.eqb name IBC.BlockActionName then inr NewIBCTransfer
  else inl (ErrNoBlockAction name).

(** The flags of [start] as cobra hands them out. *)
Record Flags : Type := mkFlags {
  flagConcurrentBlocks : error + nat;
  flagDebugAddr : error + string;
  flagBeginBlock : error + Z;
  flagEndBlock : error + Z
}.

(** What the collaborators of [startCmd] answer. *)
Record Env : Type := mkEnv {
  NewChainClient : string -> option error;
  ConnectToDatabase : option error;
  Listen : string -> option error;
  QueryLatestHeight : error + Z;
  MigrateSchema : BlockAction -> option error;
  ForEachBlock : list Z -> list BlockAction -> nat -> option error
}.

(** The calls [startCmd] makes and the lines it logs, in order. *)
Inductive call : Type :=
| CallNewChainClient (chainID : string)
| CallConnectToDatabase
| CallNewIndexer
| CallListen (addr : string)
| CallStartDebugServer (addr : string)
| CallQueryLatestHeight
| CallMigrateSchema (a : BlockAction)
| CallForEachBlock (blocks : list Z) (actions : list BlockAction) (c : nat)
| LogInfo (msg field : string)
| LogError (msg : string).

(** Computations of the command: an error ends them; the trace of calls
    is kept either way. *)
Definition M (A : Type) : Type := list call -> (error + A) * list call.

Definition ret {A : Type} (a : A) : M A := fun t => (inr a, t).

Definition fail {A : Type} (e : error) : M A := fun t => (inl e, t).

Definition bind {A B : Type} (m : M A) (k : A -> M B) : M B :=
  fun t =>
    match m t with
    | (inr a, t') => k a t'
    | (inl e, t') => (inl e, t')
    end.

Definition emit (c : call) : M unit := fun t => (inr tt, t ++ [c]).

(** [v, err := f(); if err != nil { return err }] *)
Definition try {A : Type} (r : error + A) : M A :=
  match r with
  | inl e => fail e
  | inr a => ret a
  end.

Definition check (r : option error) : M unit :=
  match r with
  | Some e => fail e
  | None => ret tt
  end.

Notation "x <- m ;; k" := (bind m (fun x => k))
  (at level 100, m at next level, right associativity).
Notation "m ;;; k" := (bind m (fun _ => k))
  (at level 100, right associativity).

(** [start.go:109-112]: [for i := beginBlock; i < endBlock; i++]. *)
Definition block_range (beginBlock endBlock : Z) : list Z :=
  map (fun k => beginBlock + Z.of_nat k) (seq 0 (Z.to_nat (endBlock - beginBlock))).

(** [start.go:114-122]: a name that does not resolve is logged and skipped. *)
Fixpoint resolve_actions (names : list string) (actions : list BlockAction)
    : M (list BlockAction) :=
  match names with
  | [] => ret actions
  | name :: rest =>
      match GetBlockActionByName name with
      | inl _ =>
          emit (LogInfo "Failed to get block action" name) ;;;
          resolve_actions rest actions
      | inr action => resolve_actions rest (actions ++ [action])
      end
  end.

(** [start.go:29-107], the first half of the [RunE] of the command, up to
    the two ends of the range of heights; [chainID] is [args[0]].  It hands
    on the concurrency and the two ends. *)
Definition prelude (flags : Flags) (cfg : Config) (env : Env) (chainID : string)
    : M (nat * Z * Z) :=
  concurrentBlocks <- try (flagConcurrentBlocks flags) ;;
  (if Nat.ltb concurrentBlocks 1
   then fail (ErrInvalidConcurrentBlocks concurrentBlocks)
   else ret tt) ;;;
  chain <- try (GetChainConfig (ChainConfigs cfg) chainID) ;;
  emit (CallNewChainClient chain) ;;;
  check (NewChainClient env chain) ;;;
  emit CallConnectToDatabase ;;;
  check (ConnectToDatabase env) ;;;
  emit CallNewIndexer ;;;
  debugAddr <- try (flagDebugAddr flags) ;;
  (match debugAddr with
   | EmptyString =>
       emit (LogInfo "Skipping debug server due to empty debug address flag" EmptyString)
   | _ =>
       emit (CallListen debugAddr) ;;;
       match Listen env debugAddr with
       | Some e =>
           emit (LogError "Failed to listen on debug address.") ;;;
           fail (ErrDebugListen debugAddr e)
       | None =>
           emit (LogInfo "Debug server listening" debugAddr) ;;;
           emit (CallStartDebugServer debugAddr)
       end
   end) ;;;
  beginBlock <- try (flagBeginBlock flags) ;;
  endBlock <- try (flagEndBlock flags) ;;
  endBlock <- (if endBlock =? 0
               then emit CallQueryLatestHeight ;;; try (QueryLatestHeight env)
               else ret endBlock) ;;
  ret (concurrentBlocks, beginBlock, endBlock).

(** [start.go:109-133], the second half: the heights, the actions and the
    run of the indexer. *)
Definition startCmd (flags : Flags) (cfg : Config) (env : Env) (chainID : string)
    : M unit :=
  p <- prelude flags cfg env chainID ;;
  let concurrentBlocks := fst (fst p) in
  let blocks := block_range (snd (fst p)) (snd p) in
  actions <- resolve_actions (Actions cfg) [] ;;
  (match actions with
   | [] => fail ErrNoBlockActionsConfigured
   | _ :: _ => ret tt
   end) ;;;
  emit (CallForEachBlock blocks actions concurrentBlocks) ;;;
  check (ForEachBlock env blocks actions concurrentBlocks).

(** What the caller of the command sees: the error returned, the trace. *)
Definition run_start (flags : Flags) (cfg : Config) (env : Env) (chainID : string)
    : option error * list call :=
  match startCmd flags cfg env chainID [] with
  | (inl e, t) => (Some e, t)
  | (inr _, t) => (None, t)
  end.

(** The actions the configured names resolve to, in order. *)
Definition resolved (names : list string) : list BlockAction :=
  omap (fun name => match GetBlockActionByName name with
                    | inr a => Some a
                    | inl _ => None
                    end) names.

(** The configured names that resolve, and those that do not. *)
Definition known (names : list string) : list string :=
  List.filter (fun name => String.eqb name IBC.BlockActionName) names.

Definition unknown (names : list string) : list string :=
  List.filter (fun name => negb (String.eqb name IBC.BlockActionName)) names.

(** The lines logged at l.118 for [names]. *)
Definition skipped (names : list string) : list call :=
  map (LogInfo "Failed to get block action") (unknown names).

(** Calls to collaborators, as opposed to log lines. *)
Definition is_call (c : call) : bool :=
  match c with
  | LogInfo _ _ | LogError _ => false
  | _ => true
  end.

(** [env] with another answer to [MigrateSchema]. *)
Definition with_migrate (env : Env) (m : BlockAction -> option error) : Env :=
  mkEnv (NewChainClient env) (ConnectToDatabase env) (Listen env)
        (QueryLatestHeight env) m (ForEachBlock env).

Definition is_migrate (c : call) : bool :=
  match c with
  | CallMigrateSchema _ => true
  | _ => false
  end.

Definition is_run (c : call) : bool :=
  match c with
  | CallForEachBlock _ _ _ => true
  | _ => false
  end.

(** [config.go:292-297]: the defaults of the flags of [start]. *)
Definition defaultDebugAddr : string := "localhost:49666".
Definition defaultConcurrentBlocks : nat := 100.
Definition defaultBeginBlock : Z := 1.
Definition defaultEndBlock : Z := 0.

(** [config.go:318-348]: the flags of [start] when the command line gives
    none of them. *)
Definition default_flags : Flags :=
  mkFlags (inr defaultConcurrentBlocks) (inr defaultDebugAddr)
          (inr defaultBeginBlock) (inr defaultEndBlock).

(** The errors of [AddChainConfig]. *)
Inductive config_error : Type :=
| ErrEmptyChainID
| ErrChainExists (chainID : string).

(** [config.go:222-232]: the configuration is changed in place; the
    function hands back the error and the configuration as it is left. *)
Definition AddChainConfig (c : Config) (chainConfig : string)
    : option config_error * Config :=
  match chainConfig with
  | EmptyString => (Some ErrEmptyChainID, c)
  | _ =>
      match GetChainConfig (ChainConfigs c) chainConfig with
      | inr _ => (Some (ErrChainExists chainConfig), c)
      | inl _ => (None, mkConfig (ChainConfigs c ++ [chainConfig]) (Actions c))
      end
  end.

(** Several [AddChainConfig] in a row, whatever each returns. *)
Definition add_all (c : Config) (chainIDs : list string) : Config :=
  foldl (fun c chainID => snd (AddChainConfig c chainID)) c chainIDs.

(** A start of the indexer used in the examples: two blocks at a time,
    no debug server, heights 1 and 2, every collaborator answering
    success, except that [MigrateSchema] would fail for every action. *)
Definition sample_flags : Flags :=
  mkFlags (inr 2%nat) (inr EmptyString) (inr 1) (inr 3).

Definition sample_env : Env :=
  mkEnv (fun _ => None) None (fun _ => None) (inr 100)
        (fun _ => Some (EnvError 1)) (fun _ _ _ => None).

(** The same when the debug server is asked for on port 49666 and the
    port is taken. *)
Definition debug_flags : Flags :=
  mkFlags (inr 2%nat) (inr defaultDebugAddr) (inr 1) (inr 3).

Definition busy_env : Env :=
  mkEnv (fun _ => None) None (fun _ => Some (EnvError 2)) (inr 100)
        (fun _ => None) (fun _ _ _ => None).

Definition sample_config (actions : list string) : Config :=
  mkConfig ["cosmoshub-4"%string] actions.

End Cmd.

(* ===================================================================== *)
(** ** cmd: the chains command *)
(* ===================================================================== *)

Module Chains.

Import Cmd.

(** What [addChainConfigsFromRegistry] returns: the error of the chain
    registry or the one of [AddChainConfig]. *)
Inductive chains_error : Type :=
| ErrRegistry (e : error)
| ErrConfig (e : config_error).

(** The chain registry.  [W] is the state of the network; [I] is what the
    registry knows of a chain ([registry.ChainInfo]).  [ChainInfoConfig] is
    the method [GetChainConfig] of a [ChainInfo]: the configuration it
    generates, kept by its [ChainID]. *)
Record Registry (W I : Type) : Type := mkRegistry {
  ListChains : W -> (error + list string) * W;
  GetChain : string -> W -> (error + I) * W;
  ChainInfoConfig : I -> W -> (error + string) * W
}.

Arguments ListChains {W I}.
Arguments GetChain {W I}.
Arguments ChainInfoConfig {W I}.

(** The part of [appState] the command works on: the configuration in
    memory and the warnings logged, each with the chain it is about. *)
Record app (W : Type) : Type := mkApp {
  world : W;
  Cfg : Config;
  warnings : list (string * string)
}.

Arguments mkApp {W}.
Arguments world {W}.
Arguments Cfg {W}.
Arguments warnings {W}.

Definition warn {W : Type} (msg chain : string) (a : app W) : app W :=
  mkApp (world a) (Cfg a) (warnings a ++ [(msg, chain)]).

Definition set_world {W : Type} (w : W) (a : app W) : app W :=
  mkApp w (Cfg a) (warnings a).

Definition set_cfg {W : Type} (c : Config) (a : app W) : app W :=
  mkApp (world a) c (warnings a).

Section Registry.

Context {W I : Type} (r : Registry W I).

(** The inner loop of [addChainConfigsFromRegistry] (l.159-205 of the
    chains command) over the registry entries still to visit; [found] is
    the variable of l.158.  [Some e]: the function returns [e]; [None]: the
    loop has ended or was left by [break]. *)
Fixpoint try_chain (chain : string) (found : bool) (possible : list string)
    (a : app W) : option chains_error * app W :=
  match possible with
  | [] => (None, a)
  | possibleChain :: rest =>
      let found := if String.eqb chain possibleChain then true else found in
      if negb found
      then try_chain chain found rest (warn "Unable to find chain" chain a)
      else
        match GetChain r chain (world a) with
        | (inl _, w) =>
            try_chain chain found rest
              (warn "Error retrieving chain" chain (set_world w a))
        | (inr chainInfo, w) =>
            match ChainInfoConfig r chainInfo w with
            | (inl _, w') =>
                try_chain chain found rest
                  (warn "Error generating chain config" chain (set_world w' a))
            | (inr chainConfig, w') =>
                match AddChainConfig (Cfg a) chainConfig with
                | (Some e, c) =>
                    (Some (ErrConfig e),
                     warn "Failed to add chain to config" chain
                       (set_cfg c (set_world w' a)))
                | (None, c) => (None, set_cfg c (set_world w' a))
                end
            end
        end
  end.

(** The outer loop, l.157-206. *)
Fixpoint add_chains (allChains : list string) (chains : list string) (a : app W)
    : option chains_error * app W :=
  match chains with
  | [] => (None, a)
  | chain :: rest =>
      match try_chain chain false allChains a with
      | (Some e, a') => (Some e, a')
      | (None, a') => add_chains allChains rest a'
      end
  end.

(** [addChainConfigsFromRegistry], l.150-209 of the chains command. *)
Definition addChainConfigsFromRegistry (chains : list string) (a : app W)
    : option chains_error * app W :=
  match ListChains r (world a) with
  | (inl e, w) => (Some (ErrRegistry e), set_world w a)
  | (inr allChains, w) => add_chains allChains chains (set_world w a)
  end.

End Registry.

(** The warnings logged for a chain that [n] registry entries do not
    match. *)
Definition not_found (chain : string) (n : nat) : list (string * string) :=
  replicate n ("Unable to find chain"%string, chain).

(** A registry used in the examples: three chains, each known under a
    chain ID of its own; the network has no state. *)
Definition sample_registry : Registry unit string :=
  mkRegistry unit string
    (fun w => (inr ["akash"; "cosmoshub"; "osmosis"]%string, w))
    (fun chain w => (inr chain, w))
    (fun info w => (inr (info ++ "-1")%string, w)).

(** The same registry when it cannot deliver the metadata of any chain. *)
Definition failing_registry : Registry unit string :=
  mkRegistry unit string
    (fun w => (inr ["akash"; "cosmoshub"; "osmosis"]%string, w))
    (fun chain w => (inl (EnvError 5), w))
    (fun info w => (inr (info ++ "-1")%string, w)).

Definition sample_app : app unit := mkApp tt (mkConfig [] []) [].

End Chains.
(* ===================================================================== *)
(** * Properties of [ForEachBlock] *)
(* ===================================================================== *)

Import Indexer.

Ltac list_eq :=
  repeat (simpl; rewrite ?app_nil_r, <- ?app_assoc); try reflexivity.

Section EngineFacts.
Variable actions : list BlockAction.
Variable concurrentBlocks : nat.
Abbreviation step := (step actions concurrentBlocks).
Abbreviation task_step := (task_step actions).
Abbreviation reachable := (reachable actions concurrentBlocks).
Abbreviation run := (run actions concurrentBlocks).

(* --------------------------------------------------------------------- *)
(** *** Reading a step backwards *)
(* --------------------------------------------------------------------- *)

Lemma run_app ls1 ls2 s :
  run (ls1 ++ ls2) s = match run ls1 s with Some s' => run ls2 s' | None => None end.
Proof.
  revert s. induction ls1 as [|l ls1 IH]; intros s; simpl; [reflexivity|].
  destruct (step l s); [apply IH | reflexivity].
Qed.

Lemma reachable_run blocks ls s s' :
  reachable blocks s -> run ls s = Some s' -> reachable blocks s'.
Proof.
  revert s. induction ls as [|l ls IH]; intros s Hs Hrun; simpl in Hrun.
  - congruence.
  - destruct (step l s) as [s1|] eqn:Hstep; [|discriminate].
    eapply IH; [|exact Hrun]. eapply reach_step; eauto.
Qed.

Lemma run_reachable blocks ls s :
  run ls (init blocks) = Some s -> reachable blocks s.
Proof. apply reachable_run. constructor. Qed.


Lemma task_step_frame r s t s' t' :
  task_step r s t = Some (s', t') ->
  st_main s' = st_main s /\ st_pass s' = st_pass s /\ st_tasks s' = st_tasks s /\
  st_ctx s' = st_ctx s /\ t_height t' = t_height t /\
  (st_mutex s = true -> st_mutex s' = true).
Proof.
  unfold task_step, recv_next. intros H.
  repeat (case_match; simplify_eq/=); auto 10.
Qed.

Lemma task_step_done r s t : is_done t = true -> task_step r s t = None.
Proof.
  unfold is_done, task_step. intros H. destruct (t_pc t); try discriminate. reflexivity.
Qed.

Lemma task_step_locks r s t s' t' :
  task_step r s t = Some (s', t') ->
  (holds_lock t = true -> st_mutex s = true) ->
  past_deferred t = false ->
  (holds_lock t' = true -> st_mutex s' = true) /\
  past_deferred t' = false /\
  at_deferred t = false /\
  st_egerr s' = st_egerr s /\ st_egdone s' = st_egdone s /\
  (st_failed s' = st_failed s \/ at_deferred t' = true).
Proof.
  unfold task_step, recv_next, holds_lock, past_deferred, at_deferred, exec_from.
  intros H Hl Hp.
  repeat (case_match; simplify_eq/=); auto 10;
    try (specialize (Hl eq_refl); congruence).
Qed.

Lemma Exists_insert_other (P : task -> Prop) (l : list task) i t t' :
  l !! i = Some t -> ~ P t -> Exists P l -> Exists P (<[i := t']> l).
Proof.
  intros Hi Hn Hex. apply Exists_exists in Hex as (x & Hx & HP).
  apply list_elem_of_lookup in Hx as (j & Hj).
  apply Exists_exists. exists x. split; [|exact HP].
  apply list_elem_of_lookup. exists j.
  destruct (decide (i = j)) as [->|Hne]; [congruence|].
  by rewrite list_lookup_insert_ne.
Qed.

Lemma all_done_no_deferred (l : list task) :
  forallb is_done l = true -> Exists (fun t => at_deferred t = true) l -> False.
Proof.
  intros Hall Hex. apply Exists_exists in Hex as (x & Hx & HP).
  rewrite forallb_forall in Hall. apply list_elem_of_In in Hx.
  specialize (Hall _ Hx). unfold is_done, at_deferred in *.
  destruct (t_pc x); congruence.
Qed.

Lemma engine_inv_init blocks : engine_inv (init blocks).
Proof.
  constructor; simpl; auto. intros r; discriminate.
Qed.

Lemma engine_inv_step l s s' :
  engine_inv s -> step l s = Some s' -> engine_inv s'.
Proof.
  intros [Hl Hp He Hd Hpass Hf Hr] Hstep.
  destruct l as [|i r|i|]; simpl in Hstep.
  - (* the caller moves *)
    unfold main_step in Hstep.
    destruct (st_main s) as [[|h rest]| |r] eqn:Hm; [| | |discriminate].
    + simplify_eq. constructor; simpl; auto. intros ?; discriminate.
    + destruct (Nat.ltb _ _); [|discriminate]. simplify_eq.
      constructor; simpl; auto.
      * apply Forall_app; split; [exact Hl|]. repeat constructor. discriminate.
      * apply Forall_app; split; [exact Hp|]. repeat constructor.
      * destruct Hf as [?|Hex]; [by left|right]. apply Exists_app; by left.
      * intros ?; discriminate.
    + destruct (forallb is_done (st_tasks s)) eqn:Hall; [|discriminate].
      rewrite He in Hstep.
      destruct (st_failed s) as [|h0 fl] eqn:Hfl.
      * simplify_eq. constructor; simpl; auto.
        intros ? [= <-]. rewrite Hfl. auto.
      * exfalso. destruct Hf as [Hf|Hex]; [discriminate|].
        eapply all_done_no_deferred; eauto.
  - (* a worker moves *)
    destruct (st_tasks s !! i) as [t|] eqn:Hi; [|discriminate].
    destruct (task_step r s t) as [[s1 t1]|] eqn:Hts; [|discriminate].
    simplify_eq/=.
    pose proof (Forall_lookup_1 _ _ _ _ Hl Hi) as Hlt.
    pose proof (Forall_lookup_1 _ _ _ _ Hp Hi) as Hpt.
    destruct (task_step_frame _ _ _ _ _ Hts) as (Hm & Hps & Hts' & _ & _ & Hmono).
    destruct (task_step_locks _ _ _ _ _ Hts Hlt Hpt) as (Hl1 & Hp1 & Hnd & He1 & Hd1 & Hf1).
    constructor; simpl.
    + rewrite Hts'. apply Forall_insert; [|exact Hl1].
      eapply Forall_impl; [exact Hl|]. simpl. intros x Hx Hh. auto.
    + rewrite Hts'. by apply Forall_insert.
    + congruence.
    + congruence.
    + congruence.
    + rewrite Hts'. destruct Hf1 as [Hsame|Hdef].
      * rewrite Hsame. destruct Hf as [?|Hex]; [by left|right].
        eapply Exists_insert_other; eauto. simpl. congruence.
      * right. apply Exists_exists. exists t1. split; [|exact Hdef].
        apply list_elem_of_lookup. exists i.
        apply list_lookup_insert_eq. by eapply lookup_lt_Some.
    + rewrite Hm. intros r0 Hr0. destruct (Hr _ Hr0) as (_ & _ & Hall).
      exfalso. rewrite forallb_forall in Hall.
      assert (Hin : In t (st_tasks s)).
      { apply list_elem_of_In, list_elem_of_lookup. eauto. }
      apply Hall in Hin. by rewrite (task_step_done _ _ _ Hin) in Hts.
  - (* a worker receives from the blocked caller *)
    unfold handoff_step in Hstep.
    destruct (st_main s) as [[|h rest]| |r0] eqn:Hm; try discriminate.
    destruct (st_sem s); [|discriminate].
    destruct (st_tasks s !! i) as [t|] eqn:Hi; [|discriminate].
    destruct (recv_next t) as [t1|] eqn:Hrecv; [|discriminate].
    simplify_eq.
    pose proof (Forall_lookup_1 _ _ _ _ Hp Hi) as Hpt.
    unfold recv_next in Hrecv. unfold past_deferred in Hpt.
    destruct (t_pc t) eqn:Hpc; try discriminate. simplify_eq.
    constructor; simpl; auto.
    + apply Forall_app; split; [|repeat constructor; discriminate].
      apply Forall_insert; [exact Hl|]. discriminate.
    + apply Forall_app; split; [|repeat constructor].
      apply Forall_insert; [exact Hp|]. reflexivity.
    + destruct Hf as [?|Hex]; [by left|right]. apply Exists_app; left.
      eapply Exists_insert_other; eauto. unfold at_deferred.
      rewrite Hpc. discriminate.
    + intros ?; discriminate.
  - simplify_eq. constructor; simpl; auto.
Qed.

Lemma engine_inv_reachable blocks s : reachable blocks s -> engine_inv s.
Proof.
  induction 1; [apply engine_inv_init | eauto using engine_inv_step].
Qed.

(* --------------------------------------------------------------------- *)
(** *** Invariants of a single worker *)
(* --------------------------------------------------------------------- *)

Lemma task_local_inv (P : task -> Prop) :
  (forall h, P (new_task h)) ->
  (forall r s t s' t', P t -> task_step r s t = Some (s', t') -> P t') ->
  (forall t t', P t -> recv_next t = Some t' -> P t') ->
  forall blocks s, reachable blocks s -> Forall P (st_tasks s).
Proof.
  intros Hnew Hstep Hrecv blocks s Hreach.
  induction Hreach as [|s l s' _ IH Hs]; [constructor|].
  destruct l as [|i r|i|]; simpl in Hs.
  - unfold main_step in Hs.
    destruct (st_main s) as [[|h rest]| |r]; try discriminate.
    + by simplify_eq.
    + destruct (Nat.ltb _ _); [|discriminate]. simplify_eq. simpl.
      apply Forall_app; split; [exact IH|]. repeat constructor. apply Hnew.
    + destruct (forallb _ _); [|discriminate].
      destruct (st_egerr s); [by simplify_eq|].
      destruct (st_failed s); simplify_eq; [exact IH|constructor].
  - destruct (st_tasks s !! i) as [t|] eqn:Hi; [|discriminate].
    destruct (task_step r s t) as [[s1 t1]|] eqn:Hts; [|discriminate].
    simplify_eq. simpl.
    destruct (task_step_frame _ _ _ _ _ Hts) as (_ & _ & -> & _).
    apply Forall_insert; [exact IH|].
    eapply Hstep; [|exact Hts]. eapply Forall_lookup_1; eauto.
  - unfold handoff_step in Hs.
    destruct (st_main s) as [[|h rest]| |r0]; try discriminate.
    destruct (st_sem s); [|discriminate].
    destruct (st_tasks s !! i) as [t|] eqn:Hi; [|discriminate].
    destruct (recv_next t) as [t1|] eqn:Hr; [|discriminate].
    simplify_eq. simpl.
    apply Forall_app; split; [|repeat constructor; apply Hnew].
    apply Forall_insert; [exact IH|].
    eapply Hrecv; [|exact Hr]. eapply Forall_lookup_1; eauto.
  - by simplify_eq.
Qed.

Lemma rounds_snoc j es e :
  rounds j (es ++ [e]) = rounds j es ++ round (j + length es) e.
Proof.
  revert j. induction es as [|e0 es IH]; intros j; simpl.
  - by rewrite Nat.add_0_r.
  - rewrite IH. by rewrite Nat.add_succ_r.
Qed.

Lemma exec_events_snoc rs ar :
  exec_events (rs ++ [ar]) = exec_events rs ++ exec_event ar.
Proof.
  unfold exec_events. rewrite map_app, concat_app. simpl. by rewrite app_nil_r.
Qed.

Lemma hist_ok_new h : hist_ok actions (new_task h).
Proof. by apply hist_entry. Qed.

Lemma hist_ok_step r s t s' t' :
  hist_ok actions t -> task_step r s t = Some (s', t') -> hist_ok actions t'.
Proof.
  destruct t as [h p hist]. unfold task_step, recv_next, set_pc. simpl.
  intros Hok Hstep.
  destruct Hok as [Hpc Hh|n log es Hpc Hlen Hn Hh Hlog|n log es e Hpc Hlen Hn Hh Hlog
                  |e tail es Hpc Hlen Hh|tail pre Hpc Hh Hpre
                  |pending tail es rs Hpc Hn Hh Hact]; simpl in *; subst.
  - (* entry of retry.Do *)
    destruct (egctx_done s); simplify_eq.
    + eapply hist_aborted with (pre := []); simpl; eauto.
    + eapply hist_attempt with (es := []); simpl; eauto. unfold RtyAttNum; lia.
  - (* an attempt *)
    destruct r as [|e]; simplify_eq.
    + eapply hist_fetched with (rs := []) (tail := match actions with [] => [] | _ => [] end);
        simpl; [destruct actions; reflexivity|exact Hn| |].
      * destruct actions; by rewrite ?app_nil_r.
      * reflexivity.
    + destruct (Nat.eqb_spec (length es) 4) as [Hlast|Hlast]; simplify_eq.
      * eapply hist_exhausted with (es := es); simpl; eauto.
        by rewrite Hlast.
      * eapply hist_sleep with (es := es); simpl; eauto.
        unfold RtyAttNum in *; lia.
  - (* between two attempts *)
    destruct r as [|e']; simplify_eq.
    + eapply hist_attempt with (es := es ++ [e]); simpl; eauto.
      * rewrite length_app; simpl; lia.
      * rewrite rounds_snoc. simpl. by rewrite <- app_assoc.
      * by rewrite last_snoc.
    + destruct (egctx_done s); simplify_eq.
      eapply hist_aborted with (pre := rounds 0 es ++ last_try (length es) e); simpl; eauto.
  - (* the failure branch, retries used up *)
    destruct p; simplify_eq/=; repeat (case_match; simplify_eq/=);
      eapply hist_exhausted with (es := es); simpl; eauto;
      rewrite <- !app_assoc; simpl; reflexivity.
  - (* the failure branch, context done *)
    destruct p; simplify_eq/=; repeat (case_match; simplify_eq/=);
      eapply hist_aborted with (pre := pre); simpl; eauto;
      rewrite <- !app_assoc; simpl; reflexivity.
  - (* the success branch *)
    destruct p as [| | | | | | | |[|a rest]| | |[e|]]; simplify_eq/=;
      repeat (case_match; simplify_eq/=).
    + eapply hist_fetched with (rs := rs); simpl; eauto.
      by rewrite !app_nil_r.
    + eapply hist_fetched with (rs := rs ++ [(a, ROk)])
        (tail := []) (pending := rest); [by destruct rest|exact Hn| |].
      * rewrite exec_events_snoc. list_eq.
      * rewrite map_app. list_eq.
    + eapply hist_fetched with (rs := rs ++ [(a, RErr e)])
        (tail := []) (pending := rest); [by destruct rest|exact Hn| |].
      * rewrite exec_events_snoc. list_eq.
      * rewrite map_app. list_eq.
    + eapply hist_fetched with (rs := rs); simpl; eauto. list_eq.
    + eapply hist_fetched with (rs := rs); simpl; eauto. list_eq.
Qed.

Lemma recv_next_task_step t t' s n :
  recv_next t = Some t' -> st_sem s = S n ->
  task_step ROk s t = Some (set_sem n s, t').
Proof.
  unfold task_step. intros Hr Hs. pose proof Hr as Hr'. unfold recv_next in Hr'.
  destruct (t_pc t); try discriminate; by rewrite Hs, Hr.
Qed.

Lemma hist_ok_recv t t' :
  hist_ok actions t -> recv_next t = Some t' -> hist_ok actions t'.
Proof.
  intros Hok Hr.
  eapply hist_ok_step; [exact Hok|].
  apply (recv_next_task_step t t' (mkState 0 MWait 1 false [] None false false []) 0 Hr).
  reflexivity.
Qed.

Lemma hist_ok_reachable blocks s :
  reachable blocks s -> Forall (hist_ok actions) (st_tasks s).
Proof.
  apply task_local_inv;
    eauto using hist_ok_new, hist_ok_step, hist_ok_recv.
Qed.

(* --------------------------------------------------------------------- *)
(** *** The semaphore counts the workers in flight *)
(* --------------------------------------------------------------------- *)

Lemma filter_length_insert (l : list task) i t t' :
  l !! i = Some t ->
  (length (List.filter holds_slot (<[i := t']> l)) + slot t =
   length (List.filter holds_slot l) + slot t')%nat.
Proof.
  revert i. induction l as [|x l IH]; intros [|i] Hi; simplify_eq/=.
  - unfold slot. destruct (holds_slot t), (holds_slot t'); simpl; lia.
  - specialize (IH _ Hi). destruct (holds_slot x); simpl; lia.
Qed.

Lemma filter_length_app (l1 l2 : list task) :
  length (List.filter holds_slot (l1 ++ l2)) =
  (length (List.filter holds_slot l1) + length (List.filter holds_slot l2))%nat.
Proof. by rewrite List.filter_app, length_app. Qed.

Lemma task_step_slot r s t s' t' :
  task_step r s t = Some (s', t') ->
  (st_sem s' + slot t = st_sem s + slot t')%nat /\ (slot t' <= slot t)%nat.
Proof.
  unfold task_step, recv_next, slot, holds_slot, exec_from, set_pc. intros H.
  repeat (case_match; simplify_eq/=); lia.
Qed.

Lemma in_flight_step l s s' :
  step l s = Some s' ->
  st_sem s = in_flight s /\ (st_sem s <= concurrentBlocks)%nat ->
  st_sem s' = in_flight s' /\ (st_sem s' <= concurrentBlocks)%nat.
Proof.
  unfold in_flight. intros Hstep [Hc Hb].
  destruct l as [|i r|i|]; simpl in Hstep.
  - unfold main_step in Hstep.
    destruct (st_main s) as [[|h rest]| |r]; try discriminate.
    + by simplify_eq.
    + destruct (Nat.ltb_spec (st_sem s) concurrentBlocks); [|discriminate].
      simplify_eq. simpl. rewrite filter_length_app. simpl. lia.
    + destruct (forallb _ _); [|discriminate].
      destruct (st_egerr s); [by simplify_eq|].
      destruct (st_failed s); simplify_eq; simpl; [done|lia].
  - destruct (st_tasks s !! i) as [t|] eqn:Hi; [|discriminate].
    destruct (task_step r s t) as [[s1 t1]|] eqn:Hts; [|discriminate].
    simplify_eq. simpl.
    destruct (task_step_frame _ _ _ _ _ Hts) as (_ & _ & -> & _).
    pose proof (task_step_slot _ _ _ _ _ Hts) as [? ?].
    pose proof (filter_length_insert _ _ _ t1 Hi).
    unfold slot in *. destruct (holds_slot t), (holds_slot t1); lia.
  - unfold handoff_step in Hstep.
    destruct (st_main s) as [[|h rest]| |r0]; try discriminate.
    destruct (st_sem s) eqn:Hsem; [|discriminate].
    destruct (st_tasks s !! i) as [t|] eqn:Hi; [|discriminate].
    destruct (recv_next t) as [t1|] eqn:Hr; [|discriminate].
    simplify_eq. simpl. rewrite Hsem, filter_length_app. simpl.
    pose proof (filter_length_insert _ _ _ t1 Hi) as Hins.
    assert (slot t = 1%nat /\ slot t1 = 0%nat) as [Ht Ht1].
    { unfold recv_next in Hr. unfold slot, holds_slot.
      destruct (t_pc t); simplify_eq; by simpl. }
    lia.
  - by simplify_eq.
Qed.

Lemma in_flight_reachable blocks s :
  reachable blocks s ->
  st_sem s = in_flight s /\ (in_flight s <= concurrentBlocks)%nat.
Proof.
  intros Hreach.
  assert (st_sem s = in_flight s /\ (st_sem s <= concurrentBlocks)%nat) as [H1 H2].
  { induction Hreach; [split; simpl; [done|lia]|eauto using in_flight_step]. }
  split; [done|lia].
Qed.

(* --------------------------------------------------------------------- *)
(** *** The failure branch *)
(* --------------------------------------------------------------------- *)

Lemma deferred_blocked r s t e :
  st_mutex s = true -> t_pc t = PDeferred e -> task_step r s t = None.
Proof. unfold task_step. by intros -> ->. Qed.

Lemma lock_blocked r s t e :
  st_mutex s = true -> t_pc t = PLock e -> task_step r s t = None.
Proof. unfold task_step. by intros -> ->. Qed.

(** A worker in the deferred [mutex.Lock()] is not moved by any step, and
    the mutex stays held. *)
Lemma stuck_step l s s' i t e :
  st_tasks s !! i = Some t -> t_pc t = PDeferred e -> st_mutex s = true ->
  step l s = Some s' ->
  st_tasks s' !! i = Some t /\ st_mutex s' = true.
Proof.
  intros Hi Hpc Hmx Hstep.
  destruct l as [|j r|j|]; simpl in Hstep.
  - unfold main_step in Hstep.
    destruct (st_main s) as [[|h rest]| |r]; try discriminate.
    + by simplify_eq.
    + destruct (Nat.ltb _ _); [|discriminate]. simplify_eq. simpl.
      split; [|done]. by apply lookup_app_l_Some.
    + destruct (forallb is_done (st_tasks s)) eqn:Hall; [|discriminate].
      exfalso. rewrite forallb_forall in Hall.
      assert (Hin : In t (st_tasks s)).
      { apply list_elem_of_In, list_elem_of_lookup. eauto. }
      apply Hall in Hin. unfold is_done in Hin. by rewrite Hpc in Hin.
  - destruct (st_tasks s !! j) as [tj|] eqn:Hj; [|discriminate].
    destruct (task_step r s tj) as [[s1 t1]|] eqn:Hts; [|discriminate].
    simplify_eq. simpl.
    destruct (task_step_frame _ _ _ _ _ Hts) as (_ & _ & -> & _ & _ & Hmono).
    split; [|auto].
    destruct (decide (j = i)) as [->|Hne].
    + simplify_eq. by rewrite (deferred_blocked _ _ _ _ Hmx Hpc) in Hts.
    + by rewrite list_lookup_insert_ne.
  - unfold handoff_step in Hstep.
    destruct (st_main s) as [[|h rest]| |r0]; try discriminate.
    destruct (st_sem s); [|discriminate].
    destruct (st_tasks s !! j) as [tj|] eqn:Hj; [|discriminate].
    destruct (recv_next tj) as [t1|] eqn:Hr; [|discriminate].
    simplify_eq. simpl. split; [|done].
    apply lookup_app_l_Some.
    destruct (decide (j = i)) as [->|Hne].
    + simplify_eq. unfold recv_next in Hr. by rewrite Hpc in Hr.
    + by rewrite list_lookup_insert_ne.
  - by simplify_eq.
Qed.

Lemma stuck_run ls s s' i t e :
  st_tasks s !! i = Some t -> t_pc t = PDeferred e -> st_mutex s = true ->
  run ls s = Some s' ->
  st_tasks s' !! i = Some t /\ st_mutex s' = true.
Proof.
  revert s. induction ls as [|l ls IH]; intros s Hi Hpc Hmx Hrun; simpl in Hrun.
  - by simplify_eq.
  - destruct (step l s) as [s1|] eqn:Hstep; [|discriminate].
    destruct (stuck_step _ _ _ _ _ _ Hi Hpc Hmx Hstep) as [Hi1 Hmx1]. eauto.
Qed.

(** C1. The claim: every append to the Failure Set acquires the mutex once
    and releases it once, so that workers appending concurrently never
    deadlock.  The code: the deferred call of l.91 is a second
    [mutex.Lock()].  A worker that has appended its height holds the mutex
    and waits for it; on every schedule it stays there for ever, the mutex
    is never released, and every other worker that reaches [mutex.Lock()]
    of l.90 is blocked as well. *)
Theorem failed_append_deadlocks blocks s i t e :
  reachable blocks s -> st_tasks s !! i = Some t -> t_pc t = PDeferred e ->
  st_mutex s = true /\
  forall ls s', run ls s = Some s' ->
    st_tasks s' !! i = Some t /\ st_mutex s' = true /\
    (forall r, step (LTask i r) s' = None) /\
    (forall j tj ej r, st_tasks s' !! j = Some tj -> t_pc tj = PLock ej ->
                       step (LTask j r) s' = None).
Proof.
  intros Hreach Hi Hpc.
  assert (Hmx : st_mutex s = true).
  { apply engine_inv_reachable in Hreach. destruct Hreach as [Hl _ _ _ _ _ _].
    apply (Forall_lookup_1 _ _ _ _ Hl Hi). unfold holds_lock. by rewrite Hpc. }
  split; [exact Hmx|].
  intros ls s' Hrun.
  destruct (stuck_run _ _ _ _ _ _ Hi Hpc Hmx Hrun) as [Hi' Hmx'].
  repeat split; auto.
  - intros r. simpl. rewrite Hi'. by rewrite (deferred_blocked _ _ _ _ Hmx' Hpc).
  - intros j tj ej r Hj Hpcj. simpl. rewrite Hj.
    by rewrite (lock_blocked _ _ _ _ Hmx' Hpcj).
Qed.

Lemma failed_grows l s s' :
  engine_inv s -> step l s = Some s' ->
  exists more, st_failed s' = st_failed s ++ more.
Proof.
  intros Hinv Hstep.
  destruct l as [|j r|j|]; simpl in Hstep.
  - unfold main_step in Hstep.
    destruct (st_main s) as [[|h rest]| |r]; try discriminate.
    + simplify_eq. exists []. by rewrite app_nil_r.
    + destruct (Nat.ltb _ _); [|discriminate]. simplify_eq.
      exists []. by rewrite app_nil_r.
    + destruct (forallb is_done (st_tasks s)) eqn:Hall; [|discriminate].
      destruct (st_egerr s); [simplify_eq; exists []; by rewrite app_nil_r|].
      destruct (st_failed s) eqn:Hf; simplify_eq.
      * exists []. simpl. by rewrite Hf.
      * exfalso. destruct (inv_failed _ Hinv) as [?|Hex]; [congruence|].
        eapply all_done_no_deferred; eauto.
  - destruct (st_tasks s !! j) as [tj|] eqn:Hj; [|discriminate].
    destruct (task_step r s tj) as [[s1 t1]|] eqn:Hts; [|discriminate].
    simplify_eq. simpl. clear Hj Hinv.
    unfold task_step, recv_next in Hts.
    repeat (case_match; simplify_eq/=); eauto;
      exists []; by rewrite app_nil_r.
  - unfold handoff_step in Hstep.
    repeat (case_match; simplify_eq/=). all: exists []; by rewrite app_nil_r.
  - simplify_eq. exists []. by rewrite app_nil_r.
Qed.

(** C2. The claim: a height whose fetch failed on every attempt is added to
    the Failure Set without ending the run, and once the pass is over
    [ForEachBlock] calls itself on the Failure Set until a pass leaves it
    empty, and then returns success.  The code: the recursive call of l.122
    is never made on any schedule, and once a height is in [failedBlocks]
    [ForEachBlock] never returns: the worker that appended it waits in the
    deferred [mutex.Lock()] and [eg.Wait()] waits for that worker. *)
Theorem failed_height_is_never_retried blocks s :
  reachable blocks s ->
  st_pass s = 0%nat /\
  (st_failed s <> [] ->
   forall ls s', run ls s = Some s' ->
     st_pass s' = 0%nat /\ st_failed s' <> [] /\
     (forall r, st_main s' <> MReturned r) /\
     exists i t e, st_tasks s' !! i = Some t /\ t_pc t = PDeferred e).
Proof.
  intros Hreach. split; [apply (inv_pass _ (engine_inv_reachable _ _ Hreach))|].
  intros Hne ls. revert s Hreach Hne.
  induction ls as [|l ls IH]; intros s Hreach Hne s' Hrun; simpl in Hrun.
  - simplify_eq. pose proof (engine_inv_reachable _ _ Hreach) as Hinv.
    split; [apply (inv_pass _ Hinv)|]. split; [exact Hne|]. split.
    + intros r Hr. destruct (inv_ret _ Hinv _ Hr) as (_ & Hnil & _). congruence.
    + destruct (inv_failed _ Hinv) as [?|Hex]; [congruence|].
      apply Exists_exists in Hex as (t & Hin & Hd).
      apply list_elem_of_lookup in Hin as (i & Hi).
      unfold at_deferred in Hd. destruct (t_pc t) eqn:Hpc; try discriminate.
      eauto.
  - destruct (step l s) as [s1|] eqn:Hstep; [|discriminate].
    eapply (IH s1); eauto.
    + eapply reach_step; eauto.
    + destruct (failed_grows _ _ _ (engine_inv_reachable _ _ Hreach) Hstep)
        as (more & ->).
      destruct (st_failed s); [congruence|discriminate].
Qed.

(* --------------------------------------------------------------------- *)
(** *** The semaphore *)
(* --------------------------------------------------------------------- *)

Lemma failed_fetch_step r s t s' t' :
  task_step r s t = Some (s', t') -> failed_fetch t = true -> failed_fetch t' = true.
Proof.
  unfold task_step, recv_next, failed_fetch. intros H Hf.
  repeat (case_match; simplify_eq/=); auto.
Qed.

Lemma stay_failed l s s' i t :
  engine_inv s -> st_tasks s !! i = Some t -> failed_fetch t = true ->
  step l s = Some s' ->
  exists t', st_tasks s' !! i = Some t' /\ failed_fetch t' = true.
Proof.
  intros Hinv Hi Hf Hstep.
  destruct l as [|j r|j|]; simpl in Hstep.
  - unfold main_step in Hstep.
    destruct (st_main s) as [[|h rest]| |r]; try discriminate.
    + simplify_eq. eauto.
    + destruct (Nat.ltb _ _); [|discriminate]. simplify_eq. simpl.
      exists t. split; [|done]. by apply lookup_app_l_Some.
    + destruct (forallb is_done (st_tasks s)) eqn:Hall; [|discriminate].
      exfalso. rewrite forallb_forall in Hall.
      assert (Hin : In t (st_tasks s)).
      { apply list_elem_of_In, list_elem_of_lookup. eauto. }
      apply Hall in Hin.
      pose proof (Forall_lookup_1 _ _ _ _ (inv_past _ Hinv) Hi) as Hp.
      unfold is_done in Hin. unfold failed_fetch in Hf. unfold past_deferred in Hp.
      destruct (t_pc t) as [| | | | | | | | | | |[?|]]; congruence.
  - destruct (st_tasks s !! j) as [tj|] eqn:Hj; [|discriminate].
    destruct (task_step r s tj) as [[s1 t1]|] eqn:Hts; [|discriminate].
    simplify_eq. simpl.
    destruct (task_step_frame _ _ _ _ _ Hts) as (_ & _ & -> & _).
    destruct (decide (j = i)) as [->|Hne].
    + simplify_eq. exists t1. split; [|eauto using failed_fetch_step].
      apply list_lookup_insert_eq. by eapply lookup_lt_Some.
    + exists t. by rewrite list_lookup_insert_ne.
  - unfold handoff_step in Hstep.
    destruct (st_main s) as [[|h rest]| |r0]; try discriminate.
    destruct (st_sem s); [|discriminate].
    destruct (st_tasks s !! j) as [tj|] eqn:Hj; [|discriminate].
    destruct (recv_next tj) as [t1|] eqn:Hr; [|discriminate].
    simplify_eq. simpl.
    destruct (decide (j = i)) as [->|Hne].
    + simplify_eq. exists t1. split.
      * apply lookup_app_l_Some, list_lookup_insert_eq. by eapply lookup_lt_Some.
      * unfold recv_next in Hr. unfold failed_fetch in *.
        destruct (t_pc t); simplify_eq; done.
    + exists t. split; [|done].
      apply lookup_app_l_Some. by rewrite list_lookup_insert_ne.
  - simplify_eq. eauto.
Qed.

Lemma failed_fetch_holds_slot t :
  failed_fetch t = true -> past_deferred t = false -> holds_slot t = true.
Proof.
  unfold failed_fetch, past_deferred, holds_slot.
  destruct (t_pc t) as [| | | | | | | | | | |[?|]]; congruence.
Qed.

Lemma in_flight_pos s i t :
  st_tasks s !! i = Some t -> holds_slot t = true -> (1 <= in_flight s)%nat.
Proof.
  unfold in_flight. intros Hi Hs.
  assert (Hin : In t (List.filter holds_slot (st_tasks s))).
  { apply List.filter_In. split; [|done].
    apply list_elem_of_In, list_elem_of_lookup. eauto. }
  destruct (List.filter holds_slot (st_tasks s)); [done|simpl; lia].
Qed.

(** C4. The claim: never more than [c] workers are in flight, and every
    worker gives its slot back when it ends, whether its fetch succeeded
    or failed.  The code: the first half holds, the semaphore counts the
    workers in flight and never exceeds [concurrentBlocks]; the second
    half fails for a worker whose fetch failed: on every schedule it still
    holds its slot, because it never gets past the deferred
    [mutex.Lock()] of l.91 to the [<-sem] of l.95. *)
Theorem failed_worker_keeps_its_slot blocks s :
  reachable blocks s ->
  (st_sem s = in_flight s /\ (in_flight s <= concurrentBlocks)%nat) /\
  forall i t, st_tasks s !! i = Some t -> failed_fetch t = true ->
    forall ls s', run ls s = Some s' ->
      exists t', st_tasks s' !! i = Some t' /\ failed_fetch t' = true /\
                 holds_slot t' = true /\ (1 <= st_sem s')%nat.
Proof.
  intros Hreach. split; [by apply in_flight_reachable in Hreach|].
  intros i t Hi Hf ls. revert s t Hreach Hi Hf.
  induction ls as [|l ls IH]; intros s t Hreach Hi Hf s' Hrun; simpl in Hrun.
  - simplify_eq. exists t.
    pose proof (engine_inv_reachable _ _ Hreach) as Hinv.
    pose proof (Forall_lookup_1 _ _ _ _ (inv_past _ Hinv) Hi) as Hp.
    pose proof (failed_fetch_holds_slot _ Hf Hp) as Hs.
    repeat split; auto.
    destruct (in_flight_reachable _ _ Hreach) as [-> _].
    eapply in_flight_pos; eauto.
  - destruct (step l s) as [s1|] eqn:Hstep; [|discriminate].
    destruct (stay_failed _ _ _ _ _ (engine_inv_reachable _ _ Hreach) Hi Hf Hstep)
      as (t1 & Hi1 & Hf1).
    eapply (IH s1 t1); eauto. eapply reach_step; eauto.
Qed.

(* --------------------------------------------------------------------- *)
(** *** Retries and the order of the actions *)
(* --------------------------------------------------------------------- *)

Lemma executed_app l1 l2 : executed (l1 ++ l2) = executed l1 ++ executed l2.
Proof. unfold executed. apply flat_map_app. Qed.

Lemma executed_rounds j es : executed (rounds j es) = [].
Proof. revert j. induction es as [|e es IH]; intros j; simpl; auto. Qed.

Lemma executed_exec_events rs : executed (exec_events rs) = map fst rs.
Proof.
  induction rs as [|[a r] rs IH]; [done|].
  unfold exec_events in *. simpl. rewrite executed_app, IH.
  unfold exec_event. simpl. by destruct r.
Qed.

Lemma executed_ok_tail p pending tail :
  ok_tail p = Some (pending, tail) -> executed tail = [].
Proof.
  destruct p as [| | | | | | | | | | |[?|]]; intros; simplify_eq/=; done.
Qed.

Lemma executed_fail_tail h p e tail :
  fail_tail h p = Some (e, tail) -> executed tail = [].
Proof.
  destruct p as [| | | | | | | | | | |[?|]]; intros; simplify_eq/=; done.
Qed.

Lemma ok_tail_fail_tail h p :
  match ok_tail p with Some _ => fail_tail h p = None | None => True end.
Proof. by destruct p as [| | | | | | | | | | |[?|]]. Qed.

Lemma executed_hist_ok t :
  hist_ok actions t ->
  match ok_tail (t_pc t) with
  | Some (pending, _) => executed (t_hist t) ++ pending = actions
  | None => executed (t_hist t) = []
  end.
Proof.
  intros [Hpc Hh|n log es Hpc Hlen Hn Hh Hlog|n log es e Hpc Hlen Hn Hh Hlog
         |e tail es Hpc Hlen Hh|tail pre Hpc Hh Hpre
         |pending tail es rs Hpc Hn Hh Hact].
  - by rewrite Hpc, Hh.
  - rewrite Hpc, Hh. simpl. apply executed_rounds.
  - rewrite Hpc, Hh. simpl. rewrite executed_app, executed_rounds. done.
  - pose proof (ok_tail_fail_tail (t_height t) (t_pc t)) as Hx.
    destruct (ok_tail (t_pc t)) as [[? ?]|]; [congruence|].
    rewrite Hh, !executed_app, executed_rounds, (executed_fail_tail _ _ _ _ Hpc). done.
  - pose proof (ok_tail_fail_tail (t_height t) (t_pc t)) as Hx.
    destruct (ok_tail (t_pc t)) as [[? ?]|]; [congruence|].
    rewrite Hh, executed_app. simpl. rewrite (executed_fail_tail _ _ _ _ Hpc).
    destruct Hpre as [->|(es & e & _ & ->)]; [done|].
    rewrite executed_app, executed_rounds. done.
  - rewrite Hpc, Hh, !executed_app, executed_rounds, executed_exec_events,
      (executed_ok_tail _ _ _ Hpc). simpl. by rewrite app_nil_r.
Qed.

(** C7. For every block that was fetched, the worker calls [Execute] of the
    registered actions one at a time in registration order: on every
    schedule the actions it has executed followed by those still pending
    are the registered list, a worker that has not fetched its block has
    executed none, and the next step of a worker inside the loop of l.100
    is never blocked and executes exactly the next pending action. *)
Theorem actions_run_in_registration_order blocks s i t :
  reachable blocks s -> st_tasks s !! i = Some t ->
  match ok_tail (t_pc t) with
  | Some (pending, _) => executed (t_hist t) ++ pending = actions
  | None => executed (t_hist t) = []
  end /\
  forall a rest r, t_pc t = PExec (a :: rest) ->
    exists s' t', step (LTask i r) s = Some s' /\
                  st_tasks s' !! i = Some t' /\
                  t_height t' = t_height t /\
                  t_pc t' = exec_from rest /\
                  executed (t_hist t') = executed (t_hist t) ++ [a].
Proof.
  intros Hreach Hi. split.
  - apply executed_hist_ok.
    eapply Forall_lookup_1; [apply (hist_ok_reachable _ _ Hreach)|exact Hi].
  - intros a rest r Hpc. simpl. rewrite Hi. unfold task_step. rewrite Hpc.
    eexists _, _. split; [reflexivity|]. simpl.
    split; [apply list_lookup_insert_eq; by eapply lookup_lt_Some|].
    split; [done|]. split; [done|].
    unfold set_pc. simpl. rewrite executed_app. by destruct r.
Qed.

Lemma hist_ok_exhausted t e tail :
  hist_ok actions t ->
  fail_tail (t_height t) (t_pc t) = Some (e, tail) ->
  ~ In EvCtxAbort (t_hist t) ->
  exists e0 e1 e2 e3, t_hist t = exhausted_history e0 e1 e2 e3 e ++ tail.
Proof.
  intros [Hpc Hh|n log es Hpc Hlen Hn Hh Hlog|n log es e' Hpc Hlen Hn Hh Hlog
         |e' tail' es Hpc Hlen Hh|tail' pre Hpc Hh Hpre
         |pending tail' es rs Hpc Hn Hh Hact] Hft Hno.
  - by rewrite Hpc in Hft.
  - by rewrite Hpc in Hft.
  - by rewrite Hpc in Hft.
  - rewrite Hpc in Hft. simplify_eq.
    destruct es as [|e0 [|e1 [|e2 [|e3 [|? ?]]]]]; simplify_eq/=.
    exists e0, e1, e2, e3. rewrite Hh. reflexivity.
  - exfalso. apply Hno. rewrite Hh. apply in_or_app. right. by left.
  - pose proof (ok_tail_fail_tail (t_height t) (t_pc t)) as Hx.
    rewrite Hpc in Hx. congruence.
Qed.

End EngineFacts.


(* --------------------------------------------------------------------- *)
(** *** Runs in which the workers take turns *)
(* --------------------------------------------------------------------- *)

Section Runs.
Variable actions : list BlockAction.
Variable concurrentBlocks : nat.
Variable ans : Z -> BlockAction -> resp.
Abbreviation step := (step actions concurrentBlocks).
Abbreviation task_step := (task_step actions).
Abbreviation run := (run actions concurrentBlocks).
Abbreviation solo := (solo actions).
Abbreviation fin := (finished actions ans).

Lemma task_step_set_tasks r s t l :
  task_step r (set_tasks l s) t =
  match task_step r s t with
  | Some (s', t') => Some (set_tasks l s', t')
  | None => None
  end.
Proof.
  unfold task_step, recv_next, egctx_done.
  destruct (t_pc t) as [| | | | | | | |[|]| | |]; simpl;
    repeat (case_match; simplify_eq/=); reflexivity.
Qed.

Lemma solo_set_tasks rs s t l :
  solo rs (set_tasks l s) t =
  match solo rs s t with
  | Some (s', t') => Some (set_tasks l s', t')
  | None => None
  end.
Proof.
  revert s t. induction rs as [|r rs IH]; intros s t; simpl; [done|].
  rewrite task_step_set_tasks.
  destruct (task_step r s t) as [[s1 t1]|]; [apply IH|done].
Qed.

Lemma solo_app rs1 rs2 s t :
  solo (rs1 ++ rs2) s t =
  match solo rs1 s t with
  | Some (s', t') => solo rs2 s' t'
  | None => None
  end.
Proof.
  revert s t. induction rs1 as [|r rs1 IH]; intros s t; simpl; [done|].
  destruct (task_step r s t) as [[s1 t1]|]; [apply IH|done].
Qed.

(** While the last worker launched moves alone, the run is its solo run. *)
Lemma run_solo rs s pre t s' t' :
  st_tasks s = pre ++ [t] ->
  solo rs s t = Some (s', t') ->
  run (map (LTask (length pre)) rs) s = Some (set_tasks (pre ++ [t']) s').
Proof.
  revert s t s'. induction rs as [|r rs IH]; intros s t s' Hts Hsolo; simpl in *.
  - simplify_eq. destruct s'; simpl in *; by subst.
  - rewrite Hts, list_lookup_middle by done.
    destruct (task_step r s t) as [[s1 t1]|] eqn:Hstep; [|discriminate].
    destruct (task_step_frame _ _ _ _ _ _ Hstep) as (_ & _ & Hts1 & _).
    rewrite Hts1, Hts.
    replace (<[length pre := t1]> (pre ++ [t])) with (pre ++ [t1])
      by (rewrite insert_app_r_alt by lia; by rewrite Nat.sub_diag).
    rewrite (IH (set_tasks (pre ++ [t1]) s1) t1 (set_tasks (pre ++ [t1]) s'));
      [by destruct s'|done|by rewrite solo_set_tasks, Hsolo].
Qed.

Lemma solo_exec h rest hist s :
  solo (map (ans h) rest) s (mkTask h (exec_from rest) hist) =
  Some (s, mkTask h PRecvOk (hist ++ exec_events (map (fun a => (a, ans h a)) rest))).
Proof.
  revert hist. induction rest as [|a rest IH]; intros hist; simpl.
  - by rewrite app_nil_r.
  - unfold task_step, set_pc. simpl. rewrite IH. unfold exec_events. simpl.
    unfold exec_event at 2. simpl.
    by destruct (ans h a); rewrite <- app_assoc.
Qed.

Lemma solo_fetched h s n :
  egctx_done s = false -> st_sem s = S n ->
  solo (fetched_answers (map (ans h) actions)) s (new_task h) =
  Some (set_sem n s, fin h).
Proof.
  intros Hctx Hsem. unfold fetched_answers.
  change ([ROk; ROk] ++ map (ans h) actions ++ [ROk; ROk])
    with (ROk :: ROk :: (map (ans h) actions ++ [ROk; ROk])).
  cbn [Indexer.solo]. unfold task_step at 1. simpl. rewrite Hctx.
  unfold task_step at 1. simpl. unfold set_pc. simpl.
  rewrite solo_app, solo_exec. simpl.
  unfold task_step, recv_next. simpl. rewrite Hsem. simpl.
  unfold finished, set_pc. simpl. by rewrite <- !app_assoc.
Qed.

Lemma forallb_finished pre : forallb is_done (map fin pre) = true.
Proof. induction pre; simpl; auto. Qed.

Lemma run_cons l ls s :
  run (l :: ls) s = match step l s with Some s' => run ls s' | None => None end.
Proof. reflexivity. Qed.

Lemma launch_first h rest ts :
  (0 < concurrentBlocks)%nat ->
  step LMain (mkState 0 (MLoop (h :: rest)) 0 false [] None false false ts) =
  Some (mkState 0 (MLoop rest) 1 false [] None false false (ts ++ [new_task h])).
Proof.
  intros Hc. simpl. unfold main_step. simpl.
  by destruct (Nat.ltb_spec 0 concurrentBlocks); [|lia].
Qed.

Lemma sequential_run pre rest :
  (0 < concurrentBlocks)%nat ->
  run (sequential_schedule actions ans (length pre) rest)
      (mkState 0 (MLoop rest) 0 false [] None false false (map fin pre)) =
  Some (mkState 0 (MReturned None) 0 false [] None false false
          (map fin (pre ++ rest))).
Proof.
  intros Hc. revert pre. induction rest as [|h rest IH]; intros pre.
  - simpl. unfold main_step. simpl. rewrite forallb_finished. simpl.
    by rewrite app_nil_r.
  - cbn [sequential_schedule]. rewrite run_cons, launch_first by done.
    rewrite run_app.
    rewrite <- (length_map fin pre).
    erewrite run_solo; [|simpl; reflexivity|apply solo_fetched; reflexivity].
    specialize (IH (pre ++ [h])).
    rewrite length_app, map_app in IH. simpl in IH.
    rewrite Nat.add_1_r in IH. rewrite length_map.
    unfold set_tasks, set_sem. simpl.
    rewrite IH. by rewrite <- app_assoc.
Qed.

(* --------------------------------------------------------------------- *)
(** *** A concurrency of zero *)
(* --------------------------------------------------------------------- *)

Lemma zero_inv_step blocks l s s' :
  concurrentBlocks = 0%nat ->
  zero_inv blocks s -> step l s = Some s' -> zero_inv blocks s'.
Proof.
  intros Hc (Hts & Hsem & Hf & He & Hm) Hstep. unfold zero_inv.
  destruct l as [|i r|i|]; simpl in Hstep.
  - unfold main_step in Hstep. rewrite Hc, Hts, He, Hf in Hstep. simpl in Hstep.
    destruct Hm as [Hm|(-> & [Hm|Hm])]; rewrite Hm in Hstep.
    + destruct blocks as [|h rest]; [|by destruct (st_sem s)].
      simplify_eq. simpl. auto 10.
    + simplify_eq. simpl. auto 10.
    + discriminate.
  - by rewrite Hts in Hstep.
  - unfold handoff_step in Hstep. rewrite Hts in Hstep.
    destruct (st_main s) as [[|? ?]| |?]; try discriminate.
    by destruct (st_sem s).
  - simplify_eq. simpl. auto 10.
Qed.

Lemma zero_inv_reachable blocks s :
  concurrentBlocks = 0%nat ->
  reachable actions concurrentBlocks blocks s -> zero_inv blocks s.
Proof.
  intros Hc. induction 1 as [|s l s' _ IH Hstep].
  - unfold zero_inv. simpl. auto 10.
  - eauto using zero_inv_step.
Qed.

End Runs.

(* --------------------------------------------------------------------- *)
(** *** Every schedule is finite, and without failed fetches it returns *)
(* --------------------------------------------------------------------- *)

Section Liveness.
Variable actions : list BlockAction.
Variable concurrentBlocks : nat.
Abbreviation step := (step actions concurrentBlocks).
Abbreviation task_step := (task_step actions).
Abbreviation run := (run actions concurrentBlocks).
Abbreviation reachable := (reachable actions concurrentBlocks).
Abbreviation wt := (fun t : task => weight (length actions) (t_pc t)).

Lemma sum_weight_insert (l : list task) i t t' :
  l !! i = Some t ->
  (sum_list_with wt (<[i := t']> l) + wt t = sum_list_with wt l + wt t')%nat.
Proof.
  revert i. induction l as [|x l IH]; intros [|i] Hi; simplify_eq/=; [lia|].
  specialize (IH _ Hi). lia.
Qed.

Lemma weight_task_step r s t s' t' :
  hist_ok actions t -> task_step r s t = Some (s', t') -> (wt t' < wt t)%nat.
Proof.
  intros Hok Hstep.
  assert (Hsleep : forall n log, t_pc t = PSleep n log -> (S n < RtyAttNum)%nat).
  { intros n log Hpc.
    destruct Hok as [Hpc' _|? ? ? Hpc' _ _ _ _|? ? ? ? Hpc' _ Hn _ _
                    |? ? ? Hpc' _ _|? ? Hpc' _ _|? ? ? ? Hpc' _ _ _];
      rewrite Hpc in Hpc'; simplify_eq/=; done. }
  destruct t as [h p hist]. unfold task_step, recv_next, set_pc in Hstep.
  simpl in *.
  destruct p as [|n log|n log| | | | | |[|a rest]| | |];
    repeat (case_match; simplify_eq/=); simplify_eq/=;
    unfold exec_from, RtyAttNum in *;
    try (specialize (Hsleep _ _ eq_refl));
    try lia.
  all: try (destruct actions; simpl; lia).
  all: destruct rest; simpl; lia.
Qed.

Lemma weight_recv_next t t' :
  recv_next t = Some t' -> (wt t' < wt t)%nat.
Proof.
  unfold recv_next. destruct (t_pc t) eqn:Hpc; intros; simplify_eq/=; lia.
Qed.

(** Every step of a goroutine brings the end nearer. *)
Lemma measure_step blocks l s s' :
  reachable blocks s -> step l s = Some s' -> is_move l = true ->
  (measure actions s' < measure actions s)%nat.
Proof.
  intros Hreach Hstep Hmove. unfold measure.
  pose proof (engine_inv_reachable _ _ _ _ Hreach) as Hinv.
  pose proof (hist_ok_reachable _ _ _ _ Hreach) as Hok.
  destruct l as [|i r|i|]; simpl in Hstep; [| | |discriminate].
  - unfold main_step in Hstep.
    destruct (st_main s) as [[|h rest]| |r] eqn:Hm; try discriminate.
    + simplify_eq. simpl. lia.
    + destruct (Nat.ltb _ _); [|discriminate]. simplify_eq. simpl.
      rewrite sum_list_with_app. simpl. lia.
    + destruct (forallb is_done (st_tasks s)) eqn:Hall; [|discriminate].
      rewrite (inv_egerr _ Hinv) in Hstep.
      destruct (st_failed s) eqn:Hf; simplify_eq.
      * simpl. lia.
      * exfalso. destruct (inv_failed _ Hinv) as [?|Hex]; [congruence|].
        eapply all_done_no_deferred; eauto.
  - destruct (st_tasks s !! i) as [t|] eqn:Hi; [|discriminate].
    destruct (task_step r s t) as [[s1 t1]|] eqn:Hts; [|discriminate].
    simplify_eq. simpl.
    destruct (task_step_frame _ _ _ _ _ _ Hts) as (-> & _ & -> & _).
    pose proof (sum_weight_insert _ _ _ t1 Hi).
    pose proof (weight_task_step _ _ _ _ _ (Forall_lookup_1 _ _ _ _ Hok Hi) Hts).
    lia.
  - unfold handoff_step in Hstep.
    destruct (st_main s) as [[|h rest]| |r0] eqn:Hm; try discriminate.
    destruct (st_sem s); [|discriminate].
    destruct (st_tasks s !! i) as [t|] eqn:Hi; [|discriminate].
    destruct (recv_next t) as [t1|] eqn:Hr; [|discriminate].
    simplify_eq. simpl. rewrite sum_list_with_app. simpl.
    pose proof (sum_weight_insert _ _ _ t1 Hi).
    pose proof (weight_recv_next _ _ Hr).
    lia.
Qed.

Lemma measure_cancel l s s' :
  step l s = Some s' -> is_move l = false -> measure actions s' = measure actions s.
Proof. destruct l; try discriminate. simpl. by intros [= <-] _. Qed.

(** A schedule makes no more moves than the measure of its first state. *)
Lemma moves_bounded blocks ls s s' :
  reachable blocks s -> run ls s = Some s' ->
  (length (List.filter is_move ls) + measure actions s' <= measure actions s)%nat.
Proof.
  revert s. induction ls as [|l ls IH]; intros s Hreach Hrun; simpl in Hrun.
  - simplify_eq. simpl. lia.
  - destruct (step l s) as [s1|] eqn:Hstep; [|discriminate].
    assert (Hreach1 : reachable blocks s1) by (eapply reach_step; eauto).
    specialize (IH s1 Hreach1 Hrun). simpl.
    destruct (is_move l) eqn:Hl; simpl.
    + pose proof (measure_step _ _ _ _ Hreach Hstep Hl). lia.
    + rewrite <- (measure_cancel _ _ _ Hstep Hl). lia.
Qed.

(** A worker whose fetch has not failed can take its next step, as long
    as the context is live and, where it gives its slot back, the
    semaphore is not empty; the step keeps it out of the failure branch
    when the chain node answers with the block. *)
Lemma worker_can_move s t :
  failed_fetch t = false -> is_done t = false -> egctx_done s = false ->
  (holds_slot t = true -> (1 <= st_sem s)%nat) ->
  exists s' t', task_step ROk s t = Some (s', t') /\
                failed_fetch t' = false /\ egctx_done s' = false.
Proof.
  unfold failed_fetch, is_done, holds_slot, task_step, recv_next.
  intros Hf Hd Hctx Hsem.
  destruct (t_pc t) as [| | | | | | | |[|a rest]| | |] eqn:Hpc; try discriminate.
  - rewrite Hctx. eexists _, _. split; [reflexivity|]. by simpl.
  - eexists _, _. split; [reflexivity|]. simpl. split; [|done].
    unfold exec_from. by destruct actions.
  - eexists _, _. split; [reflexivity|]. by simpl.
  - eexists _, _. split; [reflexivity|]. by simpl.
  - eexists _, _. split; [reflexivity|]. simpl. split; [|done].
    unfold exec_from. by destruct rest.
  - specialize (Hsem eq_refl). destruct (st_sem s) as [|n] eqn:Hs; [lia|].
    eexists _, _. split; [reflexivity|]. simpl. split; [done|].
    unfold egctx_done in *. by simpl.
  - eexists _, _. split; [reflexivity|]. by simpl.
Qed.

Lemma exists_slot_holder (l : list task) :
  (1 <= length (List.filter holds_slot l))%nat ->
  exists i t, l !! i = Some t /\ holds_slot t = true.
Proof.
  intros Hlen. destruct (List.filter holds_slot l) as [|t f] eqn:Hf; [simpl in Hlen; lia|].
  assert (Hin : In t (List.filter holds_slot l)) by (rewrite Hf; by left).
  apply List.filter_In in Hin as [Hin Hs].
  apply list_elem_of_In, list_elem_of_lookup in Hin as (i & Hi). eauto.
Qed.

Lemma exists_not_done (l : list task) :
  forallb is_done l = false -> exists i t, l !! i = Some t /\ is_done t = false.
Proof.
  induction l as [|x l IH]; simpl; [discriminate|].
  destruct (is_done x) eqn:Hx; simpl.
  - intros H. destruct (IH H) as (i & t & Hi & Ht). exists (S i), t. eauto.
  - intros _. exists 0%nat, x. eauto.
Qed.

Lemma holds_slot_not_done t : holds_slot t = true -> is_done t = false.
Proof. unfold holds_slot, is_done. by destruct (t_pc t). Qed.

(** Without failed fetches and with a live context, as long as
    [ForEachBlock] has not returned some goroutine can move, and the move
    leaves the run undisturbed. *)
Lemma undisturbed_progress blocks s :
  (1 <= concurrentBlocks)%nat ->
  reachable blocks s -> undisturbed s ->
  (forall r, st_main s <> MReturned r) ->
  exists l s', is_move l = true /\ step l s = Some s' /\ undisturbed s'.
Proof.
  intros Hc Hreach [Hnf Hctx] Hnr.
  pose proof (engine_inv_reachable _ _ _ _ Hreach) as Hinv.
  destruct (in_flight_reachable _ _ _ _ Hreach) as [Hsem Hbound].
  assert (Hworker : forall i t, st_tasks s !! i = Some t -> is_done t = false ->
            exists l s', is_move l = true /\ step l s = Some s' /\ undisturbed s').
  { intros i t Hi Hd.
    pose proof (Forall_lookup_1 _ _ _ _ Hnf Hi) as Hf.
    destruct (worker_can_move s t Hf Hd Hctx) as (s1 & t1 & Hts & Hf1 & Hctx1).
    { intros Hs. rewrite Hsem. eapply in_flight_pos; eauto. }
    exists (LTask i ROk). eexists. split; [done|]. simpl. rewrite Hi, Hts.
    split; [reflexivity|].
    destruct (task_step_frame _ _ _ _ _ _ Hts) as (_ & _ & Hts1 & Hc1 & _).
    split; simpl.
    - rewrite Hts1. by apply Forall_insert.
    - unfold egctx_done in *. by simpl. }
  destruct (st_main s) as [[|h rest]| |r] eqn:Hm.
  - exists LMain. eexists. split; [done|]. simpl. unfold main_step. rewrite Hm.
    split; [reflexivity|]. split; [exact Hnf|exact Hctx].
  - destruct (Nat.ltb_spec (st_sem s) concurrentBlocks) as [Hlt|Hge].
    + exists LMain. eexists. split; [done|]. simpl. unfold main_step. rewrite Hm.
      destruct (Nat.ltb_spec (st_sem s) concurrentBlocks); [|lia].
      split; [reflexivity|]. split; simpl; [|exact Hctx].
      apply Forall_app; split; [exact Hnf|]. by repeat constructor.
    + destruct (exists_slot_holder (st_tasks s)) as (i & t & Hi & Hs).
      { unfold in_flight in Hsem. lia. }
      eapply Hworker; eauto using holds_slot_not_done.
  - destruct (forallb is_done (st_tasks s)) eqn:Hall.
    + assert (Hf : st_failed s = []).
      { destruct (inv_failed _ Hinv) as [?|Hex]; [done|].
        exfalso. eapply all_done_no_deferred; eauto. }
      exists LMain. eexists. split; [done|]. simpl. unfold main_step.
      rewrite Hm, Hall, (inv_egerr _ Hinv), Hf.
      split; [reflexivity|]. split; [exact Hnf|exact Hctx].
    + destruct (exists_not_done _ Hall) as (i & t & Hi & Hd). eauto.
  - by destruct (Hnr r).
Qed.

End Liveness.

(** C6. An error returned by [Execute] is only logged.
    - The step of a worker whose action fails moves the worker on to the
      next action, adds the call and the warning to its history and
      changes nothing else: neither [failedBlocks] nor the errgroup.
    - Whatever the actions answer on whatever block ([ans] is arbitrary),
      when every fetch succeeds the run in which the workers take turns
      ends with [ForEachBlock] returning [nil], every action executed on
      every block and [failedBlocks] empty.
    - On every schedule: as long as no fetch has failed and the context is
      live, some goroutine can move until [ForEachBlock] has returned; no
      schedule makes more than [(length actions + 18) * length blocks + 2]
      moves; and when [ForEachBlock] returns it returns [nil] with
      [failedBlocks] empty. *)
Theorem action_errors_are_only_logged :
  (forall actions c s i t a rest e,
     st_tasks s !! i = Some t -> t_pc t = PExec (a :: rest) ->
     step actions c (LTask i (RErr e)) s =
     Some (set_tasks
             (<[i := mkTask (t_height t) (exec_from rest)
                       (t_hist t ++ [EvExecute a (RErr e); EvWarn a e])]>
                (st_tasks s)) s)) /\
  (forall actions c ans blocks,
     run actions (S c) (sequential_schedule actions ans 0 blocks) (init blocks) =
     Some (mkState 0 (MReturned None) 0 false [] None false false
             (map (finished actions ans) blocks))) /\
  (forall actions c blocks s,
     (1 <= c)%nat -> reachable actions c blocks s -> undisturbed s ->
     (forall r, st_main s <> MReturned r) ->
     exists l s', is_move l = true /\ step actions c l s = Some s' /\ undisturbed s') /\
  (forall actions c blocks ls s,
     run actions c ls (init blocks) = Some s ->
     (length (List.filter is_move ls) <= (length actions + 18) * length blocks + 2)%nat) /\
  (forall actions c blocks s r,
     reachable actions c blocks s -> st_main s = MReturned r ->
     r = None /\ st_failed s = []).
Proof.
  split; [|split; [|split; [|split]]].
  - intros actions c s i t a rest e Hi Hpc. simpl. rewrite Hi.
    unfold task_step. rewrite Hpc. reflexivity.
  - intros actions c ans blocks.
    apply (sequential_run actions (S c) ans [] blocks). lia.
  - intros actions c blocks s. apply undisturbed_progress.
  - intros actions c blocks ls s Hrun.
    pose proof (moves_bounded actions c blocks ls (init blocks) s
                  (reach_init _ _ _) Hrun) as Hb.
    unfold measure in Hb at 2. simpl in Hb. lia.
  - intros actions c blocks s r Hreach Hr.
    destruct (inv_ret _ (engine_inv_reachable _ _ _ _ Hreach) _ Hr) as (? & ? & _).
    auto.
Qed.

(* ===================================================================== *)
(** * Properties of [startCmd] *)
(* ===================================================================== *)

Section StartFacts.
Import Cmd.

Lemma resolved_cons name names :
  resolved (name :: names) =
  if String.eqb name IBC.BlockActionName then NewIBCTransfer :: resolved names
  else resolved names.
Proof.
  unfold resolved. simpl. unfold GetBlockActionByName at 1.
  by destruct (String.eqb name IBC.BlockActionName).
Qed.

Lemma known_cons name names :
  known (name :: names) =
  if String.eqb name IBC.BlockActionName then name :: known names
  else known names.
Proof. reflexivity. Qed.

Lemma skipped_cons name names :
  skipped (name :: names) =
  if String.eqb name IBC.BlockActionName then skipped names
  else LogInfo "Failed to get block action" name :: skipped names.
Proof.
  unfold skipped, unknown. simpl.
  by destruct (String.eqb name IBC.BlockActionName).
Qed.

Lemma resolve_actions_spec names acc t :
  resolve_actions names acc t = (inr (acc ++ resolved names), t ++ skipped names).
Proof.
  revert acc t. induction names as [|name names IH]; intros acc t.
  - simpl. by rewrite !app_nil_r.
  - rewrite resolved_cons, skipped_cons. simpl. unfold GetBlockActionByName.
    destruct (String.eqb name IBC.BlockActionName) eqn:Hn.
    + rewrite IH. by rewrite <- app_assoc.
    + unfold bind, emit. rewrite IH. by rewrite <- app_assoc.
Qed.

Lemma resolved_known names : resolved (known names) = resolved names.
Proof.
  induction names as [|name names IH]; [done|].
  rewrite known_cons, resolved_cons.
  destruct (String.eqb name IBC.BlockActionName) eqn:Hn; [|exact IH].
  by rewrite resolved_cons, Hn, IH.
Qed.

Lemma skipped_known names : skipped (known names) = [].
Proof.
  induction names as [|name names IH]; [done|].
  rewrite known_cons.
  destruct (String.eqb name IBC.BlockActionName) eqn:Hn; [|exact IH].
  by rewrite skipped_cons, Hn.
Qed.

Lemma filter_is_call_skipped names : List.filter is_call (skipped names) = [].
Proof. unfold skipped. induction (unknown names); simpl; auto. Qed.

Lemma forall_not_migrate_skipped names :
  Forall (fun c => is_migrate c = false) (skipped names).
Proof. unfold skipped. induction (unknown names); simpl; constructor; auto. Qed.

(** [startCmd] is its prelude, the resolution of the configured names and
    the call of [ForEachBlock]. *)
Lemma run_start_shape flags cfg env chainID :
  run_start flags cfg env chainID =
  match prelude flags cfg env chainID [] with
  | (inl e, t) => (Some e, t)
  | (inr (c, b, e), t) =>
      match resolved (Actions cfg) with
      | [] => (Some ErrNoBlockActionsConfigured, t ++ skipped (Actions cfg))
      | a :: acts =>
          (ForEachBlock env (block_range b e) (a :: acts) c,
           t ++ skipped (Actions cfg)
             ++ [CallForEachBlock (block_range b e) (a :: acts) c])
      end
  end.
Proof.
  unfold run_start, startCmd. unfold bind at 1.
  destruct (prelude flags cfg env chainID []) as [[?|[[c b] e]] t]; [done|].
  unfold bind, check, emit, fail, ret. rewrite resolve_actions_spec. simpl.
  destruct (resolved (Actions cfg)); simpl; [done|].
  rewrite <- app_assoc. by destruct (ForEachBlock env _ _ c).
Qed.

Ltac prelude_cases :=
  unfold prelude, bind, try, check, emit, fail, ret;
  repeat (simpl in *; case_match; simplify_eq/=).

Lemma prelude_trace flags cfg env chainID r t :
  prelude flags cfg env chainID [] = (r, t) ->
  Forall (fun c => is_migrate c = false /\ is_run c = false) t.
Proof.
  prelude_cases; intros; simplify_eq; repeat constructor.
Qed.

Lemma prelude_concurrency flags cfg env chainID c b e t :
  prelude flags cfg env chainID [] = (inr (c, b, e), t) -> (1 <= c)%nat.
Proof.
  prelude_cases; intros; simplify_eq.
  all: match goal with H : Nat.ltb _ 1 = false |- _ =>
         apply Nat.ltb_ge in H; exact H end.
Qed.

Lemma prelude_known flags cfg env chainID :
  prelude flags (mkConfig (ChainConfigs cfg) (known (Actions cfg))) env chainID =
  prelude flags cfg env chainID.
Proof. reflexivity. Qed.

(** C3. The claim: before any block is processed the schema preparation of
    every registered action is invoked once, and a failure of it keeps the
    run from starting.  The code: the [BlockAction] interface declares
    [MigrateSchema] and every action implements it, but the call is
    missing from [startCmd]: no such call is in its trace on any path, and
    neither the error it returns nor the calls it makes depend on what
    [MigrateSchema] would answer. *)
Theorem start_never_prepares_schemas flags cfg env chainID migrate :
  run_start flags cfg (with_migrate env migrate) chainID =
    run_start flags cfg env chainID /\
  Forall (fun c => is_migrate c = false) (snd (run_start flags cfg env chainID)).
Proof.
  split; [reflexivity|].
  rewrite run_start_shape.
  destruct (prelude flags cfg env chainID []) as [[?|[[c b] e]] t] eqn:Hp.
  - simpl. eapply Forall_impl; [eapply prelude_trace; eauto|]. by intros ? [? ?].
  - assert (Ht : Forall (fun c => is_migrate c = false) t).
    { eapply Forall_impl; [eapply prelude_trace; eauto|]. by intros ? [? ?]. }
    destruct (resolved (Actions cfg)); simpl;
      repeat first
        [ exact Ht
        | apply forall_not_migrate_skipped
        | apply Forall_nil_2
        | apply Forall_cons_2; [reflexivity|]
        | apply Forall_app_2 ].
Qed.

(** C3 at the start of the examples: with a [MigrateSchema] that fails
    for every action the command still calls [ForEachBlock] and returns
    success, and it has not called [MigrateSchema] for the registered
    action. *)
Lemma schema_failure_does_not_stop_the_run :
  MigrateSchema sample_env NewIBCTransfer = Some (EnvError 1) /\
  run_start sample_flags (sample_config [IBC.BlockActionName]) sample_env "cosmoshub-4" =
  (None,
   [CallNewChainClient "cosmoshub-4"; CallConnectToDatabase; CallNewIndexer;
    LogInfo "Skipping debug server due to empty debug address flag" EmptyString;
    CallForEachBlock [1; 2] [NewIBCTransfer] 2]).
Proof. split; reflexivity. Qed.

(** C8, as the code has it.  A configured name that does not resolve is
    logged and skipped: the error the command returns and the calls it
    makes are those of the configuration without the unknown names; when
    [ForEachBlock] is called it is called with the actions the known names
    resolve to, of which there is at least one, and every unknown name has
    been logged.  Once the first half of the command has succeeded, the
    command refuses to run exactly when no configured name resolves: it
    then returns the error "no block actions configured" after the log
    lines of the unknown names, without calling [ForEachBlock]; otherwise
    it calls [ForEachBlock] with the resolved actions and returns what
    that returns. *)
Theorem unknown_action_names_are_skipped flags cfg env chainID :
  fst (run_start flags cfg env chainID) =
    fst (run_start flags (mkConfig (ChainConfigs cfg) (known (Actions cfg))) env chainID) /\
  List.filter is_call (snd (run_start flags cfg env chainID)) =
    List.filter is_call
      (snd (run_start flags (mkConfig (ChainConfigs cfg) (known (Actions cfg))) env chainID)) /\
  (forall blocks acts c,
    In (CallForEachBlock blocks acts c) (snd (run_start flags cfg env chainID)) ->
    acts = resolved (Actions cfg) /\ acts <> [] /\
    forall name, In name (unknown (Actions cfg)) ->
      In (LogInfo "Failed to get block action" name) (snd (run_start flags cfg env chainID))) /\
  (forall c b e t,
     prelude flags cfg env chainID [] = (inr (c, b, e), t) ->
     match known (Actions cfg) with
     | [] =>
         run_start flags cfg env chainID =
           (Some ErrNoBlockActionsConfigured, t ++ skipped (Actions cfg))
     | _ :: _ =>
         run_start flags cfg env chainID =
           (ForEachBlock env (block_range b e) (resolved (Actions cfg)) c,
            t ++ skipped (Actions cfg)
              ++ [CallForEachBlock (block_range b e) (resolved (Actions cfg)) c])
     end).
Proof.
  assert (Hlast : forall c b e t,
     prelude flags cfg env chainID [] = (inr (c, b, e), t) ->
     match known (Actions cfg) with
     | [] =>
         run_start flags cfg env chainID =
           (Some ErrNoBlockActionsConfigured, t ++ skipped (Actions cfg))
     | _ :: _ =>
         run_start flags cfg env chainID =
           (ForEachBlock env (block_range b e) (resolved (Actions cfg)) c,
            t ++ skipped (Actions cfg)
              ++ [CallForEachBlock (block_range b e) (resolved (Actions cfg)) c])
     end).
  { intros c b e t Hp. rewrite run_start_shape, Hp.
    assert (Hk : resolved (Actions cfg) = [] <-> known (Actions cfg) = []).
    { induction (Actions cfg) as [|name names IH]; [done|].
      rewrite resolved_cons, known_cons.
      by destruct (String.eqb name IBC.BlockActionName). }
    destruct (known (Actions cfg)) as [|k ks].
    - by rewrite (proj2 Hk eq_refl).
    - destruct (resolved (Actions cfg)) as [|a acts]; [|done].
      discriminate (proj1 Hk eq_refl). }
  refine ((fun H => conj (proj1 H) (conj (proj1 (proj2 H))
            (conj (proj2 (proj2 H)) Hlast))) _).
  clear Hlast.
  rewrite !run_start_shape, prelude_known. simpl.
  rewrite resolved_known, skipped_known.
  destruct (prelude flags cfg env chainID []) as [[?|[[c b] e]] t] eqn:Hp.
  { simpl. split; [done|]. split; [done|].
    intros blocks acts c Hin. exfalso.
    pose proof (prelude_trace _ _ _ _ _ _ Hp) as Ht.
    rewrite Forall_forall in Ht. apply list_elem_of_In, Ht in Hin. by destruct Hin. }
  assert (Hrun : forall blocks acts c0, ~ In (CallForEachBlock blocks acts c0) t).
  { intros blocks acts c0 Hin.
    pose proof (prelude_trace _ _ _ _ _ _ Hp) as Ht.
    rewrite Forall_forall in Ht. apply list_elem_of_In, Ht in Hin. by destruct Hin. }
  assert (Hskip : forall blocks acts c0,
             ~ In (CallForEachBlock blocks acts c0) (skipped (Actions cfg))).
  { intros blocks acts c0 Hin. unfold skipped in Hin.
    apply in_map_iff in Hin as (? & ? & _). discriminate. }
  destruct (resolved (Actions cfg)) as [|a acts] eqn:Hres; simpl.
  - split; [done|]. split.
    + by rewrite !List.filter_app, filter_is_call_skipped.
    + intros blocks acts c0 Hin. exfalso.
      apply in_app_iff in Hin as [Hin|Hin]; [eapply Hrun|eapply Hskip]; eauto.
  - split; [done|]. split.
    + by rewrite !List.filter_app, filter_is_call_skipped.
    + intros blocks acts0 c0 Hin.
      apply in_app_iff in Hin as [Hin|Hin]; [exfalso; eapply Hrun; eauto|].
      apply in_app_iff in Hin as [Hin|Hin]; [exfalso; eapply Hskip; eauto|].
      destruct Hin as [Hin|[]]. simplify_eq.
      split; [done|]. split; [done|].
      intros name Hn. apply in_app_iff. right. apply in_app_iff. left.
      unfold skipped. apply in_map_iff. eauto.
Qed.

(** C8, as stated, fails: of the two configured names the first does not
    resolve, and the command logs it, goes on and runs the indexer with the
    action of the second. *)
Lemma unknown_name_does_not_stop_the_run :
  GetBlockActionByName "bogus" = inl (ErrNoBlockAction "bogus") /\
  run_start sample_flags (sample_config ["bogus"%string; IBC.BlockActionName])
            sample_env "cosmoshub-4" =
  (None,
   [CallNewChainClient "cosmoshub-4"; CallConnectToDatabase; CallNewIndexer;
    LogInfo "Skipping debug server due to empty debug address flag" EmptyString;
    LogInfo "Failed to get block action" "bogus";
    CallForEachBlock [1; 2] [NewIBCTransfer] 2]).
Proof. split; reflexivity. Qed.

(** C9, as the code has it.  The concurrency is validated by [startCmd],
    not by [ForEachBlock]: a flag below 1 makes the command return an error
    before it calls anything, so that the command only ever calls
    [ForEachBlock] with a concurrency of at least 1.  [ForEachBlock]
    itself called with 0 never launches a worker and never returns an
    error: it returns [nil] when there is no height and never returns
    when there is one. *)
Theorem concurrency_is_validated_by_start :
  (forall flags cfg env chainID c,
     flagConcurrentBlocks flags = inr c -> (c < 1)%nat ->
     run_start flags cfg env chainID = (Some (ErrInvalidConcurrentBlocks c), [])) /\
  (forall flags cfg env chainID blocks acts c,
     In (CallForEachBlock blocks acts c) (snd (run_start flags cfg env chainID)) ->
     (1 <= c)%nat) /\
  (forall actions blocks s,
     reachable actions 0 blocks s ->
     st_tasks s = [] /\
     forall r, st_main s = MReturned r -> r = None /\ blocks = []).
Proof.
  split; [|split].
  - intros flags cfg env chainID c Hc Hlt. rewrite run_start_shape.
    unfold prelude, bind, try, fail. rewrite Hc. simpl.
    destruct (Nat.ltb_spec c 1); [reflexivity|lia].
  - intros flags cfg env chainID blocks acts c. rewrite run_start_shape.
    destruct (prelude flags cfg env chainID []) as [[?|[[c0 b] e]] t] eqn:Hp.
    { simpl. intros Hin. exfalso.
      pose proof (prelude_trace _ _ _ _ _ _ Hp) as Ht.
      rewrite Forall_forall in Ht. apply list_elem_of_In, Ht in Hin. by destruct Hin. }
    pose proof (prelude_concurrency _ _ _ _ _ _ _ _ Hp) as Hc.
    assert (Hrun : ~ In (CallForEachBlock blocks acts c) (t ++ skipped (Actions cfg))).
    { intros Hin. apply in_app_iff in Hin as [Hin|Hin].
      - pose proof (prelude_trace _ _ _ _ _ _ Hp) as Ht.
        rewrite Forall_forall in Ht. apply list_elem_of_In, Ht in Hin. by destruct Hin.
      - unfold skipped in Hin. apply in_map_iff in Hin as (? & ? & _). discriminate. }
    destruct (resolved (Actions cfg)); simpl; intros Hin; [by apply Hrun in Hin|].
    rewrite app_assoc in Hin.
    apply in_app_iff in Hin as [Hin|Hin]; [by apply Hrun in Hin|].
    destruct Hin as [Hin|[]]. by simplify_eq.
  - intros actions blocks s Hreach.
    destruct (zero_inv_reachable actions 0 blocks s eq_refl Hreach)
      as (Hts & _ & _ & _ & Hm).
    split; [exact Hts|]. intros r Hr.
    destruct Hm as [Hm|(-> & [Hm|Hm])]; rewrite Hm in Hr; simplify_eq. done.
Qed.

End StartFacts.

(** C9, as stated, fails: [ForEachBlock] called with a concurrency of 0 and
    no height returns [nil], not an error; called with one height, no
    goroutine of it can ever move, the caller waiting on [sem] for ever. *)
Lemma zero_concurrency_is_not_rejected :
  run [] 0 [LMain; LMain] (init []) =
    Some (mkState 0 (MReturned None) 0 false [] None false false []) /\
  forall l, l <> LCancel -> step [] 0 l (init [1]) = None.
Proof.
  split; [reflexivity|].
  intros [|i r|i|] Hl; try reflexivity; try congruence; by destruct i.
Qed.

(* ===================================================================== *)
(** * Properties of the IBC transfer action *)
(* ===================================================================== *)

Section IBCFacts.
Import IBC.
Context {W : Type} (c : Collaborators W).

(** The loop over a list of transactions is the loop over its first part
    followed, unless that returned early or panicked, by the loop over the
    rest. *)
Lemma index_txs_app block i pre l s :
  index_txs c block i (pre ++ l) s =
  match index_txs c block i pre s with
  | (Normal None, s1) => index_txs c block (i + length pre) l s1
  | other => other
  end.
Proof.
  revert i s. induction pre as [|tx pre IH]; intros i s; simpl.
  - unfold ret. by rewrite Nat.add_0_r.
  - unfold bind at 1 3. destruct (call (CtxDone c) s) as [[d|?] s1]; [|done].
    destruct d; [done|].
    unfold bind at 1 2. destruct (index_tx c block i tx s1) as [[[]|?] s2]; [|done].
    rewrite IH. by rewrite Nat.add_succ_r.
Qed.

(** C10. In the IBC transfer action, a transaction that decodes and whose
    results are found is cast to [sdk.FeeTx] by an unchecked type
    assertion: when the loop of [IndexIBCTransfers] reaches such a
    transaction with its context not done and the decoded value does not
    implement [sdk.FeeTx], [Execute] panics; it neither skips the
    transaction nor returns an error, and it has logged nothing about
    it. *)
Theorem unchecked_fee_assertion_panics block pre tx post s0 s1 w1 w2 sdkTx txRes :
  Txs block = pre ++ tx :: post ->
  index_txs c block 0 pre s0 = (Normal None, s1) ->
  CtxDone c (fst s1) = (false, w1) ->
  TxDecoder c tx = inr sdkTx ->
  QueryTx c (TxHash c tx) w1 = (inr txRes, w2) ->
  asFeeTx sdkTx = None ->
  exists reason, Execute c block s0 = (Panic reason, (w2, snd s1)).
Proof.
  intros Htxs Hpre Hctx Hdec Hq Hfee.
  unfold Execute, IndexIBCTransfers. rewrite Htxs, index_txs_app, Hpre.
  simpl. unfold bind at 1. unfold call at 1. rewrite Hctx. simpl.
  unfold bind at 1. unfold index_tx. rewrite Hdec.
  unfold bind at 1. unfold call at 1. simpl. rewrite Hq. simpl.
  rewrite Hfee. unfold panic. eauto.
Qed.

End IBCFacts.

(* ===================================================================== *)
(** * Further properties of [ForEachBlock] *)
(* ===================================================================== *)

Section EngineMore.
Variable actions : list BlockAction.
Variable concurrentBlocks : nat.
Abbreviation step := (step actions concurrentBlocks).
Abbreviation task_step := (task_step actions).
Abbreviation reachable := (reachable actions concurrentBlocks).
Abbreviation run := (run actions concurrentBlocks).

Lemma map_height_insert (l : list task) i t t' :
  l !! i = Some t -> t_height t' = t_height t ->
  map t_height (<[i := t']> l) = map t_height l.
Proof.
  revert i. induction l as [|x l IH]; intros [|i] Hi Hh; simplify_eq/=.
  - by rewrite Hh.
  - by rewrite (IH _ Hi Hh).
Qed.

Lemma lookup_map_height (l : list task) i t :
  l !! i = Some t -> map t_height l !! i = Some (t_height t).
Proof.
  revert i. induction l as [|x l IH]; intros [|i] Hi; simplify_eq/=; auto.
Qed.

Lemma recv_next_height t t' : recv_next t = Some t' -> t_height t' = t_height t.
Proof. unfold recv_next. intros H. by repeat (case_match; simplify_eq/=). Qed.

Lemma launched_step l s s' :
  engine_inv s -> step l s = Some s' ->
  map t_height (st_tasks s) ++ pending_heights s =
  map t_height (st_tasks s') ++ pending_heights s'.
Proof.
  intros Hinv Hstep. destruct l as [|i r|i|]; simpl in Hstep.
  - unfold main_step, pending_heights in *.
    destruct (st_main s) as [[|h rest]| |r0] eqn:Hm; simplify_eq/=.
    + by rewrite app_nil_r.
    + destruct (Nat.ltb _ _); simplify_eq/=.
      rewrite map_app. simpl. by rewrite <- app_assoc.
    + destruct (forallb is_done (st_tasks s)) eqn:Hd; [|done].
      rewrite (inv_egerr _ Hinv) in Hstep.
      destruct (inv_failed _ Hinv) as [Hf|Hex].
      * rewrite Hf in Hstep. by simplify_eq/=.
      * destruct (all_done_no_deferred _ Hd Hex).
  - destruct (st_tasks s !! i) as [t|] eqn:Hi; [|done].
    destruct (task_step r s t) as [[s1 t1]|] eqn:Hts; [|done]. simplify_eq/=.
    destruct (task_step_frame _ _ _ _ _ _ Hts) as (Hm & _ & Ht & _ & Hh & _).
    unfold pending_heights. simpl. rewrite Hm, Ht.
    by rewrite (map_height_insert _ _ _ _ Hi Hh).
  - unfold handoff_step, pending_heights in *.
    destruct (st_main s) as [[|h rest]| |r0] eqn:Hm; simplify_eq/=.
    destruct (st_sem s); [|done].
    destruct (st_tasks s !! i) as [t|] eqn:Hi; [|done].
    destruct (recv_next t) as [t'|] eqn:Hr; [|done]. simplify_eq/=.
    rewrite map_app, (map_height_insert _ _ _ _ Hi (recv_next_height _ _ Hr)).
    simpl. by rewrite <- app_assoc.
  - by simplify_eq/=.
Qed.

Lemma launched_reachable blocks s :
  reachable blocks s -> map t_height (st_tasks s) ++ pending_heights s = blocks.
Proof.
  induction 1 as [|s l s' Hreach IH Hstep]; [done|].
  rewrite <- (launched_step _ _ _ (engine_inv_reachable _ _ _ _ Hreach) Hstep).
  exact IH.
Qed.

(** No height of [blocks] is handed to two workers, and the workers are
    launched in the order of the slice: at any moment the heights of the
    workers launched so far, followed by the heights the loop of l.68 has
    still to launch, are [blocks]; worker number [i] works on [blocks[i]];
    there are never more workers than heights; and once the loop of l.68
    is over the heights of the workers are [blocks].  (A height may stay
    among those still to launch for ever.) *)
Theorem heights_are_launched_at_most_once_in_order blocks s :
  reachable blocks s ->
  map t_height (st_tasks s) ++ pending_heights s = blocks /\
  (length (st_tasks s) <= length blocks)%nat /\
  (forall i t, st_tasks s !! i = Some t -> blocks !! i = Some (t_height t)) /\
  ((forall rest, st_main s <> MLoop rest) -> map t_height (st_tasks s) = blocks).
Proof.
  intros Hreach. pose proof (launched_reachable _ _ Hreach) as Hl.
  split; [exact Hl|]. split; [|split].
  - rewrite <- Hl, length_app, length_map. lia.
  - intros i t Hi. rewrite <- Hl.
    apply lookup_app_l_Some. by apply lookup_map_height.
  - intros Hm. unfold pending_heights in Hl.
    destruct (st_main s) as [rest| |r]; [by destruct (Hm rest)| |];
      by rewrite app_nil_r in Hl.
Qed.

Lemma done_nil_executed t :
  hist_ok actions t -> is_done t = true -> past_deferred t = false ->
  t_pc t = PDone None /\ executed (t_hist t) = actions.
Proof.
  intros Hh Hd Hp. pose proof (executed_hist_ok _ _ Hh) as He.
  unfold is_done, past_deferred in *.
  destruct (t_pc t) as [| | | | | | | | | | |[e|]]; try done.
  simpl in He. split; [done|]. by rewrite app_nil_r in He.
Qed.

(** When [ForEachBlock] returns, on whatever schedule, it has launched one
    worker per height of [blocks], in order, and every worker has ended
    with [nil] after calling [Execute] of every registered action, once
    each and in registration order. *)
Theorem returned_run_has_executed_everything blocks s r :
  reachable blocks s -> st_main s = MReturned r ->
  map t_height (st_tasks s) = blocks /\
  Forall (fun t => t_pc t = PDone None /\ executed (t_hist t) = actions) (st_tasks s).
Proof.
  intros Hreach Hr.
  pose proof (engine_inv_reachable _ _ _ _ Hreach) as Hinv.
  destruct (inv_ret _ Hinv _ Hr) as (_ & _ & Hd).
  split.
  - pose proof (launched_reachable _ _ Hreach) as Hl.
    unfold pending_heights in Hl. rewrite Hr, app_nil_r in Hl. exact Hl.
  - pose proof (hist_ok_reachable _ _ _ _ Hreach) as Hh.
    pose proof (inv_past _ Hinv) as Hp.
    rewrite forallb_forall in Hd. rewrite Forall_forall in *.
    intros t Ht. apply done_nil_executed; auto.
    apply Hd. by apply list_elem_of_In.
Qed.

(* --------------------------------------------------------------------- *)
(** ** The slice of failed heights *)
(* --------------------------------------------------------------------- *)

Lemma count_insert (f : task -> bool) (l : list task) i t t' :
  l !! i = Some t ->
  (length (List.filter f (<[i := t']> l)) + (if f t then 1 else 0) =
   length (List.filter f l) + (if f t' then 1 else 0))%nat.
Proof.
  revert i. induction l as [|x l IH]; intros [|i] Hi; simplify_eq/=.
  - destruct (f t), (f t'); simpl; lia.
  - specialize (IH _ Hi). destruct (f x); simpl; lia.
Qed.

Lemma count_app (f : task -> bool) (l1 l2 : list task) :
  length (List.filter f (l1 ++ l2)) =
  (length (List.filter f l1) + length (List.filter f l2))%nat.
Proof. by rewrite List.filter_app, length_app. Qed.

Lemma append_inv_task_step r s t s' t' :
  task_step r s t = Some (s', t') ->
  (length (st_failed s') + (if at_append t' then 1 else 0)
     + (if st_mutex s then 1 else 0)
   <= length (st_failed s) + (if at_append t then 1 else 0)
     + (if st_mutex s' then 1 else 0))%nat /\
  ((if st_mutex s then 1 else 0) <= (if st_mutex s' then 1 else 0))%nat /\
  ((if st_mutex s' then 1 else 0) <= 1)%nat /\
  (at_append t' = true -> at_append t = false -> st_mutex s = false) /\
  (st_failed s' = st_failed s \/ st_failed s' = st_failed s ++ [t_height t]).
Proof.
  unfold task_step, at_append. intros H. destruct t as [h p hist].
  repeat (case_match; simplify_eq/=); simplify_eq/=;
    try match goal with
        | H : exec_from ?l = PAppend _ |- _ => by destruct l
        end;
    rewrite ?length_app; simpl; repeat split; auto; try lia; try done.
Qed.

Lemma append_inv_step l s s' :
  append_inv s -> step l s = Some s' -> append_inv s'.
Proof.
  unfold append_inv. intros Hinv Hstep. destruct l as [|i r|i|]; simpl in Hstep.
  - unfold main_step in Hstep.
    destruct (st_main s) as [[|h rest]| |r0] eqn:Hm; simplify_eq/=; [done| |].
    + destruct (Nat.ltb _ _); simplify_eq/=.
      rewrite count_app. simpl. lia.
    + destruct (forallb is_done (st_tasks s)); [|done].
      destruct (st_egerr s); simplify_eq/=; [done|].
      destruct (st_failed s) eqn:Hf; simplify_eq/=; [rewrite Hf; exact Hinv|lia].
  - destruct (st_tasks s !! i) as [t|] eqn:Hi; [|done].
    destruct (task_step r s t) as [[s1 t1]|] eqn:Hts; [|done]. simplify_eq/=.
    destruct (task_step_frame _ _ _ _ _ _ Hts) as (_ & _ & Ht & _).
    destruct (append_inv_task_step _ _ _ _ _ Hts) as (H1 & H2 & H3 & _).
    rewrite Ht. pose proof (count_insert at_append _ _ _ t1 Hi) as Hc.
    lia.
  - unfold handoff_step in Hstep.
    destruct (st_main s) as [[|h rest]| |r0] eqn:Hm; simplify_eq/=.
    destruct (st_sem s); [|done].
    destruct (st_tasks s !! i) as [t|] eqn:Hi; [|done].
    destruct (recv_next t) as [t'|] eqn:Hr; [|done]. simplify_eq/=.
    rewrite count_app. simpl.
    pose proof (count_insert at_append _ _ _ t' Hi) as Hc.
    assert (at_append t = false /\ at_append t' = false) as [Ha Ha'].
    { unfold recv_next, at_append in *.
      by repeat (case_match; simplify_eq/=). }
    rewrite Ha, Ha' in Hc. lia.
  - by simplify_eq/=.
Qed.

Lemma append_inv_reachable blocks s : reachable blocks s -> append_inv s.
Proof.
  induction 1 as [|s l s' _ IH Hstep]; [unfold append_inv; simpl; lia|].
  eapply append_inv_step; eauto.
Qed.

Lemma failed_of_blocks_step blocks l s s' :
  reachable blocks s -> step l s = Some s' ->
  Forall (fun h => In h blocks) (st_failed s) ->
  Forall (fun h => In h blocks) (st_failed s').
Proof.
  intros Hreach Hstep Hf. destruct l as [|i r|i|]; simpl in Hstep.
  - unfold main_step in Hstep.
    repeat (case_match; simplify_eq/=); simpl; auto;
      try match goal with H : st_failed _ = [] |- _ => by rewrite H end.
  - destruct (st_tasks s !! i) as [t|] eqn:Hi; [|done].
    destruct (task_step r s t) as [[s1 t1]|] eqn:Hts; [|done]. simplify_eq/=.
    destruct (append_inv_task_step _ _ _ _ _ Hts) as (_ & _ & _ & _ & [->| ->]);
      [done|].
    apply Forall_app_2; [done|]. apply Forall_cons_2; [|done].
    pose proof (launched_reachable _ _ Hreach) as Hl.
    rewrite <- Hl. apply in_or_app. left. apply in_map.
    apply list_elem_of_In. by eapply list_elem_of_lookup_2.
  - unfold handoff_step in Hstep.
    repeat (case_match; simplify_eq/=); simpl; auto;
      try match goal with H : st_failed _ = [] |- _ => by rewrite H end.
  - by simplify_eq/=.
Qed.

Lemma failed_of_blocks blocks s :
  reachable blocks s -> Forall (fun h => In h blocks) (st_failed s).
Proof.
  induction 1 as [|s l s' Hreach IH Hstep]; [constructor|].
  eapply failed_of_blocks_step; eauto.
Qed.

(** [failedBlocks] never holds more than one height, and that height is one
    of [blocks]: the worker that appends takes the mutex at l.90 and the
    mutex is never released, so that no other worker reaches the append of
    l.92; and no worker is at the append while the mutex is free. *)
Theorem failed_blocks_holds_at_most_one_height blocks s :
  reachable blocks s ->
  (length (st_failed s) <= 1)%nat /\
  (forall h, In h (st_failed s) -> In h blocks) /\
  (st_mutex s = false ->
   st_failed s = [] /\ Forall (fun t => at_append t = false) (st_tasks s)).
Proof.
  intros Hreach. pose proof (append_inv_reachable _ _ Hreach) as Hinv.
  unfold append_inv in Hinv. split; [destruct (st_mutex s); lia|]. split.
  - pose proof (failed_of_blocks _ _ Hreach) as Hf.
    rewrite Forall_forall in Hf. intros h Hh. apply Hf. by apply list_elem_of_In.
  - intros Hm. rewrite Hm in Hinv. split.
    + destruct (st_failed s); [done|simpl in Hinv; lia].
    + assert (Hnil : List.filter at_append (st_tasks s) = []).
      { destruct (List.filter at_append (st_tasks s)); [done|simpl in Hinv; lia]. }
      rewrite Forall_forall. intros t Ht.
      destruct (at_append t) eqn:Ha; [|done].
      assert (In t (List.filter at_append (st_tasks s))) as Hin.
      { apply List.filter_In. split; [by apply list_elem_of_In|done]. }
      rewrite Hnil in Hin. destruct Hin.
Qed.

(* --------------------------------------------------------------------- *)
(** ** Calls of the chain node *)
(* --------------------------------------------------------------------- *)

Lemma fetches_app l1 l2 : fetches (l1 ++ l2) = (fetches l1 + fetches l2)%nat.
Proof. unfold fetches. by rewrite List.filter_app, length_app. Qed.

Lemma fetches_rounds j es : fetches (rounds j es) = length es.
Proof.
  revert j. induction es as [|e es IH]; intros j; [done|].
  change (rounds j (e :: es)) with (round j e ++ rounds (S j) es).
  rewrite fetches_app, IH. reflexivity.
Qed.

Lemma fetches_exec_events rs : fetches (exec_events rs) = 0%nat.
Proof.
  induction rs as [|[a [|e]] rs IH]; [done| |];
    change (exec_events (?x :: rs)) with (exec_event x ++ exec_events rs);
    rewrite fetches_app, IH; reflexivity.
Qed.

Lemma fetches_ok_tail p pending tail :
  ok_tail p = Some (pending, tail) -> fetches tail = 0%nat.
Proof. destruct p as [| | | | | | | | | | |[e|]]; intros; by simplify_eq/=. Qed.

Lemma fetches_fail_tail h p e tail :
  fail_tail h p = Some (e, tail) -> fetches tail = 0%nat.
Proof. destruct p as [| | | | | | | | | | |[e'|]]; intros; by simplify_eq/=. Qed.

Lemma fetches_hist_ok t : hist_ok actions t -> (fetches (t_hist t) <= RtyAttNum)%nat.
Proof.
  unfold RtyAttNum.
  intros [Hpc Hh|n log es Hpc Hn Hlt Hh _|n log es e Hpc Hn Hlt Hh _
         |e tail es Hft Hn Hh|tail pre Hft Hh Hpre|pending tail es rs Hok Hlt Hh _];
    rewrite Hh; unfold RtyAttNum in *.
  - unfold fetches. simpl. lia.
  - rewrite fetches_rounds. lia.
  - rewrite fetches_app, fetches_rounds.
    change (fetches (last_try n e)) with 1%nat. lia.
  - rewrite !fetches_app, fetches_rounds, (fetches_fail_tail _ _ _ _ Hft), Hn.
    change (fetches (last_try (5 - 1) e)) with 1%nat. lia.
  - change (pre ++ EvCtxAbort :: tail) with (pre ++ [EvCtxAbort] ++ tail).
    rewrite !fetches_app, (fetches_fail_tail _ _ _ _ Hft).
    change (fetches [EvCtxAbort]) with 0%nat.
    destruct Hpre as [->|(es & e & Hlt & ->)].
    + change (fetches []) with 0%nat. lia.
    + rewrite fetches_app, fetches_rounds.
      change (fetches (last_try (length es) e)) with 1%nat. lia.
  - rewrite !fetches_app, fetches_rounds, fetches_exec_events,
      (fetches_ok_tail _ _ _ Hok).
    change (fetches [EvFetch (length es) ROk]) with 1%nat. lia.
Qed.

Lemma sum_list_with_bound (f : task -> nat) (b : nat) (l : list task) :
  Forall (fun t => (f t <= b)%nat) l -> (sum_list_with f l <= b * length l)%nat.
Proof. induction 1; simpl; lia. Qed.

(** The chain node is asked for the block of a height at most [RtyAttNum]
    times by the worker of that height, whatever it answers and whenever
    the context is cancelled; a call of [ForEachBlock] makes at most
    [RtyAttNum] times [len(blocks)] calls of [RPCClient.Block] in all. *)
Theorem at_most_five_fetches_per_height blocks s :
  reachable blocks s ->
  Forall (fun t => (fetches (t_hist t) <= RtyAttNum)%nat) (st_tasks s) /\
  (total_fetches s <= RtyAttNum * length blocks)%nat.
Proof.
  intros Hreach.
  assert (Hall : Forall (fun t => (fetches (t_hist t) <= RtyAttNum)%nat) (st_tasks s)).
  { eapply Forall_impl; [exact (hist_ok_reachable _ _ _ _ Hreach)|].
    intros t Ht. by apply fetches_hist_ok. }
  split; [exact Hall|].
  pose proof (sum_list_with_bound _ _ _ Hall) as Hsum.
  pose proof (launched_reachable _ _ Hreach) as Hl.
  assert (length (st_tasks s) <= length blocks)%nat.
  { rewrite <- Hl, length_app, length_map. lia. }
  unfold total_fetches. nia.
Qed.

(* --------------------------------------------------------------------- *)
(** ** Cancellation *)
(* --------------------------------------------------------------------- *)

Lemma Exists_insert_impl (P : task -> Prop) (l : list task) i t t' :
  l !! i = Some t -> (P t -> P t') -> Exists P l -> Exists P (<[i := t']> l).
Proof.
  intros Hi Himp. rewrite !Exists_exists.
  intros (x & Hx & HP). apply list_elem_of_lookup in Hx as [j Hj].
  destruct (decide (i = j)) as [->|Hne].
  - simplify_eq. exists t'. split; [|auto].
    apply list_elem_of_lookup. exists j.
    apply list_lookup_insert_eq. by eapply lookup_lt_Some.
  - exists x. split; [|done]. apply list_elem_of_lookup. exists j.
    by rewrite list_lookup_insert_ne.
Qed.

Lemma before_deferred_step r s t s' t' :
  st_ctx s = true -> (holds_lock t = true -> st_mutex s = true) ->
  task_step r s t = Some (s', t') ->
  before_deferred t = true -> before_deferred t' = true.
Proof.
  unfold task_step, before_deferred, holds_lock, egctx_done. intros Hc Hl H.
  destruct t as [h p hist]. simpl in *. rewrite Hc in H. simpl in H.
  destruct p; simplify_eq/=; try done.
  - by destruct (st_mutex s); simplify_eq/=.
  - rewrite Hl in H; done.
Qed.

Lemma before_deferred_not_done (l : list task) :
  Exists (fun t => before_deferred t = true) l -> forallb is_done l = false.
Proof.
  induction 1 as [t l Ht|t l _ IH]; simpl.
  - unfold before_deferred, is_done in *. by destruct (t_pc t).
  - rewrite IH. apply andb_false_r.
Qed.

Lemma cancelled_inv_step l s s' :
  engine_inv s -> cancelled_inv s -> step l s = Some s' -> cancelled_inv s'.
Proof.
  intros Hinv [Hc Hd] Hstep. destruct l as [|i r|i|]; simpl in Hstep.
  - unfold main_step in Hstep.
    destruct (st_main s) as [[|h rest]| |r0] eqn:Hm; simplify_eq/=.
    + destruct Hd as [(? & ? & ?)|Hd]; [done|]. split; [done|by right].
    + destruct (Nat.ltb _ _); simplify_eq/=. split; [done|]. right.
      apply Exists_app. right. by constructor.
    + destruct Hd as [(? & ? & ?)|Hd]; [done|].
      by rewrite (before_deferred_not_done _ Hd) in Hstep.
  - destruct (st_tasks s !! i) as [t|] eqn:Hi; [|done].
    destruct (task_step r s t) as [[s1 t1]|] eqn:Hts; [|done]. simplify_eq/=.
    destruct (task_step_frame _ _ _ _ _ _ Hts) as (Hm & _ & Ht & Hctx & _).
    split; [simpl; congruence|]. simpl. rewrite Hm, Ht.
    destruct Hd as [Hd|Hd]; [by left|]. right.
    eapply Exists_insert_impl; [exact Hi| |exact Hd].
    intros Hb. eapply before_deferred_step; [exact Hc| |exact Hts|exact Hb].
    pose proof (inv_lock _ Hinv) as Hl. rewrite Forall_forall in Hl.
    apply Hl. by eapply list_elem_of_lookup_2.
  - unfold handoff_step in Hstep.
    destruct (st_main s) as [[|h rest]| |r0] eqn:Hm; simplify_eq/=.
    destruct (st_sem s); [|done].
    destruct (st_tasks s !! i) as [t|] eqn:Hi; [|done].
    destruct (recv_next t) as [t'|] eqn:Hr; [|done]. simplify_eq/=.
    split; [done|]. right. apply Exists_app. right. by constructor.
  - simplify_eq/=. split; [done|]. exact Hd.
Qed.

(** Cancelling the context does not make [ForEachBlock] return.  Once the
    context is cancelled while a height is still to be launched, or while
    a worker has not yet started its first attempt, [ForEachBlock] never
    returns on any schedule: the loop of l.68 goes on launching workers
    without looking at the context, [retry.Do] gives up for each of them,
    and the worker ends in the deferred [mutex.Lock()] of l.91. *)
Theorem cancelled_run_never_returns blocks s :
  reachable blocks s -> st_ctx s = true ->
  ((exists h rest, st_main s = MLoop (h :: rest)) \/
   Exists (fun t => t_pc t = PRetry) (st_tasks s)) ->
  forall ls s', run ls s = Some s' ->
    st_ctx s' = true /\ forall r, st_main s' <> MReturned r.
Proof.
  intros Hreach Hc Hd ls s' Hrun.
  assert (Hcan : cancelled_inv s).
  { split; [done|]. destruct Hd as [Hd|Hd]; [by left|right].
    eapply Exists_impl; [exact Hd|]. intros t Ht.
    unfold before_deferred. by rewrite Ht. }
  clear Hc Hd.
  assert (Hboth : cancelled_inv s' /\ engine_inv s').
  { pose proof (engine_inv_reachable _ _ _ _ Hreach) as Hinv. clear Hreach.
    revert s Hrun Hcan Hinv. induction ls as [|l ls IH]; intros s Hrun Hcan Hinv.
    - by simplify_eq/=.
    - simpl in Hrun. destruct (Indexer.step actions concurrentBlocks l s) as [s1|] eqn:Hs;
        [|done].
      apply (IH s1 Hrun).
      + by eapply cancelled_inv_step.
      + by eapply engine_inv_step. }
  destruct Hboth as [[Hc' Hd'] Hinv']. split; [done|].
  intros r Hr. destruct (inv_ret _ Hinv' _ Hr) as (_ & _ & Hdone).
  destruct Hd' as [(h & rest & Hm)|Hd']; [congruence|].
  by rewrite (before_deferred_not_done _ Hd') in Hdone.
Qed.

End EngineMore.

(* ===================================================================== *)
(** * The retry of the fetch and the slice of failed heights *)
(* ===================================================================== *)

Section RetryFacts.
Variable actions : list BlockAction.
Variable concurrentBlocks : nat.
Abbreviation step := (step actions concurrentBlocks).
Abbreviation task_step := (task_step actions).
Abbreviation reachable := (reachable actions concurrentBlocks).
Abbreviation run := (run actions concurrentBlocks).

(** Five failed attempts of a worker that enters [retry.Do] with a live
    context, whatever the state of the other goroutines: the steps neither
    read nor change anything shared. *)
Lemma solo_exhausting s h hist e0 e1 e2 e3 e4 :
  egctx_done s = false ->
  solo actions (exhausting_answers e0 e1 e2 e3 e4) s (mkTask h PRetry hist) =
  Some (s, mkTask h (PLock e4) (hist ++ exhausted_history e0 e1 e2 e3 e4)).
Proof.
  intros Hctx. simpl. unfold Indexer.task_step at 1. simpl. rewrite Hctx. simpl.
  unfold set_pc. simpl. do 2 f_equal. f_equal. list_eq.
Qed.

Lemma In_fetch_rounds k r j es :
  In (EvFetch k r) (rounds j es) -> (j <= k < j + length es)%nat.
Proof.
  revert j. induction es as [|e es IH]; intros j; [done|].
  change (rounds j (e :: es)) with (round j e ++ rounds (S j) es).
  rewrite in_app_iff. intros [Hin|Hin].
  - simpl in Hin. destruct Hin as [Hin|[Hin|[Hin|[]]]]; simplify_eq. simpl. lia.
  - apply IH in Hin. simpl. lia.
Qed.

Lemma In_fetch_last_try k r j e :
  In (EvFetch k r) (last_try j e) -> k = j /\ r = RErr e.
Proof. simpl. intros [Hin|[Hin|[]]]; by simplify_eq. Qed.

Lemma In_fetch_fail_tail k r h p e tail :
  fail_tail h p = Some (e, tail) -> ~ In (EvFetch k r) tail.
Proof.
  destruct p as [| | | | | | | | | | |[e'|]]; intros H Hin; simplify_eq/=;
    repeat (destruct Hin as [Hin|Hin]; [discriminate|]); done.
Qed.

Lemma In_fetch_ok_tail k r p pending tail :
  ok_tail p = Some (pending, tail) -> ~ In (EvFetch k r) tail.
Proof.
  destruct p as [| | | | | | | | | | |[e'|]]; intros H Hin; simplify_eq/=;
    repeat (destruct Hin as [Hin|Hin]; [discriminate|]); done.
Qed.

Lemma In_fetch_exec_events k r rs : ~ In (EvFetch k r) (exec_events rs).
Proof.
  induction rs as [|[a [|e]] rs IH]; [by intros []| |].
  - change (exec_events ((a, ROk) :: rs))
      with (exec_event (a, ROk) ++ exec_events rs).
    rewrite in_app_iff. simpl. intros [[Hin|[]]|Hin]; [discriminate|done].
  - change (exec_events ((a, RErr e) :: rs))
      with (exec_event (a, RErr e) ++ exec_events rs).
    rewrite in_app_iff. simpl. intros [[Hin|[Hin|[]]]|Hin]; [discriminate..|done].
Qed.

(** A worker whose fifth attempt has failed is in the failure branch, with
    the error of that attempt. *)
Lemma fifth_failure_hist_ok t e :
  hist_ok actions t -> In (EvFetch (RtyAttNum - 1) (RErr e)) (t_hist t) ->
  exists tail, fail_tail (t_height t) (t_pc t) = Some (e, tail).
Proof.
  unfold RtyAttNum.
  intros [Hpc Hh|n log es Hpc Hn Hlt Hh _|n log es e' Hpc Hn Hlt Hh _
         |e' tail es Hft Hn Hh|tail pre Hft Hh Hpre|pending tail es rs Hok Hlt Hh _];
    rewrite Hh; unfold RtyAttNum in *; intros Hin.
  - done.
  - apply In_fetch_rounds in Hin. lia.
  - apply in_app_iff in Hin as [Hin|Hin].
    + apply In_fetch_rounds in Hin. lia.
    + apply In_fetch_last_try in Hin. lia.
  - exists tail. rewrite !in_app_iff in Hin. destruct Hin as [Hin|[Hin|Hin]].
    + apply In_fetch_rounds in Hin. lia.
    + apply In_fetch_last_try in Hin as [_ ?]. by simplify_eq.
    + by destruct (In_fetch_fail_tail _ _ _ _ _ _ Hft Hin).
  - exfalso. apply in_app_iff in Hin as [Hin|[Hin|Hin]]; [|done|].
    + destruct Hpre as [->|(es & e' & Hlt & ->)]; [done|].
      apply in_app_iff in Hin as [Hin|Hin].
      * apply In_fetch_rounds in Hin. lia.
      * apply In_fetch_last_try in Hin. lia.
    + by destruct (In_fetch_fail_tail _ _ _ _ _ _ Hft Hin).
  - exfalso. rewrite !in_app_iff in Hin. destruct Hin as [Hin|[Hin|[Hin|Hin]]].
    + apply In_fetch_rounds in Hin. lia.
    + destruct Hin as [Hin|[]]. discriminate.
    + by destruct (In_fetch_exec_events _ _ _ Hin).
    + by destruct (In_fetch_ok_tail _ _ _ _ _ Hok Hin).
Qed.

(** A worker waiting at [mutex.Lock()] of l.90 while the mutex is held is
    not moved by any step, and the mutex stays held. *)
Lemma waiting_step l s s' i t e :
  st_tasks s !! i = Some t -> t_pc t = PLock e -> st_mutex s = true ->
  step l s = Some s' ->
  st_tasks s' !! i = Some t /\ st_mutex s' = true.
Proof.
  intros Hi Hpc Hmx Hstep.
  destruct l as [|j r|j|]; simpl in Hstep.
  - unfold main_step in Hstep.
    destruct (st_main s) as [[|h rest]| |r]; try discriminate.
    + by simplify_eq.
    + destruct (Nat.ltb _ _); [|discriminate]. simplify_eq. simpl.
      split; [|done]. by apply lookup_app_l_Some.
    + destruct (forallb is_done (st_tasks s)) eqn:Hall; [|discriminate].
      exfalso. rewrite forallb_forall in Hall.
      assert (Hin : In t (st_tasks s)).
      { apply list_elem_of_In, list_elem_of_lookup. eauto. }
      apply Hall in Hin. unfold is_done in Hin. by rewrite Hpc in Hin.
  - destruct (st_tasks s !! j) as [tj|] eqn:Hj; [|discriminate].
    destruct (task_step r s tj) as [[s1 t1]|] eqn:Hts; [|discriminate].
    simplify_eq. simpl.
    destruct (task_step_frame _ _ _ _ _ _ Hts) as (_ & _ & -> & _ & _ & Hmono).
    split; [|auto].
    destruct (decide (j = i)) as [->|Hne].
    + simplify_eq. by rewrite (lock_blocked _ _ _ _ _ Hmx Hpc) in Hts.
    + by rewrite list_lookup_insert_ne.
  - unfold handoff_step in Hstep.
    destruct (st_main s) as [[|h rest]| |r0]; try discriminate.
    destruct (st_sem s); [|discriminate].
    destruct (st_tasks s !! j) as [tj|] eqn:Hj; [|discriminate].
    destruct (recv_next tj) as [t1|] eqn:Hr; [|discriminate].
    simplify_eq. simpl. split; [|done].
    apply lookup_app_l_Some.
    destruct (decide (j = i)) as [->|Hne].
    + simplify_eq. unfold recv_next in Hr. by rewrite Hpc in Hr.
    + by rewrite list_lookup_insert_ne.
  - by simplify_eq.
Qed.

Lemma failed_held blocks s :
  reachable blocks s -> st_failed s <> [] -> st_mutex s = true.
Proof.
  intros Hreach Hne. pose proof (append_inv_reachable _ _ _ _ Hreach) as Hinv.
  unfold append_inv in Hinv. destruct (st_mutex s); [done|].
  destruct (st_failed s); [done|simpl in Hinv; lia].
Qed.

Lemma failed_full_step blocks l s s' :
  reachable blocks s -> st_failed s <> [] -> step l s = Some s' ->
  st_failed s' = st_failed s.
Proof.
  intros Hreach Hne Hstep.
  destruct (failed_grows _ _ _ _ _ (engine_inv_reachable _ _ _ _ Hreach) Hstep)
    as [more Hmore].
  assert (Hreach' : reachable blocks s') by (eapply reach_step; eauto).
  pose proof (append_inv_reachable _ _ _ _ Hreach') as Hinv.
  unfold append_inv in Hinv. rewrite Hmore, length_app in Hinv.
  destruct (st_failed s) as [|h0 f]; [done|].
  destruct more; [by rewrite Hmore, app_nil_r|].
  simpl in Hinv. destruct (st_mutex s'); lia.
Qed.

(** Once a height is in [failedBlocks], a worker waiting at
    [mutex.Lock()] of l.90 waits for ever and [failedBlocks] does not
    change any more. *)
Lemma waiting_run blocks ls s s' i t e :
  reachable blocks s -> st_failed s <> [] ->
  st_tasks s !! i = Some t -> t_pc t = PLock e ->
  run ls s = Some s' ->
  st_tasks s' !! i = Some t /\ st_failed s' = st_failed s /\ st_mutex s' = true.
Proof.
  revert s. induction ls as [|l ls IH]; intros s Hreach Hne Hi Hpc Hrun;
    simpl in Hrun.
  - simplify_eq. split; [done|]. split; [done|]. by eapply failed_held.
  - destruct (Indexer.step actions concurrentBlocks l s) as [s1|] eqn:Hstep;
      [|discriminate].
    pose proof (failed_held _ _ Hreach Hne) as Hmx.
    destruct (waiting_step _ _ _ _ _ _ Hi Hpc Hmx Hstep) as [Hi1 _].
    pose proof (failed_full_step _ _ _ _ Hreach Hne Hstep) as Hf1.
    assert (Hreach1 : reachable blocks s1) by (eapply reach_step; eauto).
    destruct (IH s1 Hreach1 ltac:(by rewrite Hf1) Hi1 Hpc Hrun) as (H1 & H2 & H3).
    split; [done|]. split; [congruence|done].
Qed.

End RetryFacts.

(** C5. The claim: the fetch of a height is retried 5 times, 400ms apart
    with exponential back-off, only the last error is kept, and a height
    whose fetch always fails is fetched exactly 5 times and then added to
    the Failure Set.  The code: the retry is as claimed, the addition is
    not.
    - The first worker whose five attempts fail calls the chain node five
      times, waits 400ms, 800ms, 1.6s and 3.2s in between and appends its
      height.
    - Any worker, whatever the other goroutines do, that enters
      [retry.Do] with a live context and is failed five times has made
      exactly these five attempts and delays when [retry.Do] returns the
      error of the fifth.
    - On every schedule a worker in the failure branch whose retry was not
      given up on the context has exactly that history, and a worker whose
      fifth attempt has failed is in the failure branch with the error of
      that attempt.
    - But once a height is in [failedBlocks], on every schedule a worker
      that has used up its attempts and waits at [mutex.Lock()] of l.90
      waits there for ever and [failedBlocks] never changes again: its
      height is never added. *)
Theorem exhausted_fetch_is_not_always_recorded :
  (forall actions c h rest e0 e1 e2 e3 e4,
     run actions (S c) (LMain :: failing_schedule 0 e0 e1 e2 e3 e4) (init (h :: rest)) =
     Some (mkState 0 (MLoop rest) 1 true [h] None false false
             [mkTask h (PDeferred e4)
                (exhausted_history e0 e1 e2 e3 e4 ++ [EvLock; EvAppend h])])) /\
  (forall actions s h hist e0 e1 e2 e3 e4,
     egctx_done s = false ->
     solo actions (exhausting_answers e0 e1 e2 e3 e4) s (mkTask h PRetry hist) =
     Some (s, mkTask h (PLock e4) (hist ++ exhausted_history e0 e1 e2 e3 e4))) /\
  (forall actions c blocks s i t e tail,
     reachable actions c blocks s -> st_tasks s !! i = Some t ->
     fail_tail (t_height t) (t_pc t) = Some (e, tail) ->
     ~ In EvCtxAbort (t_hist t) ->
     exists e0 e1 e2 e3, t_hist t = exhausted_history e0 e1 e2 e3 e ++ tail) /\
  (forall actions c blocks s i t e,
     reachable actions c blocks s -> st_tasks s !! i = Some t ->
     In (EvFetch (RtyAttNum - 1) (RErr e)) (t_hist t) ->
     exists tail, fail_tail (t_height t) (t_pc t) = Some (e, tail)) /\
  (forall actions c blocks s i t e,
     reachable actions c blocks s -> st_failed s <> [] ->
     st_tasks s !! i = Some t -> t_pc t = PLock e ->
     forall ls s', run actions c ls s = Some s' ->
       st_tasks s' !! i = Some t /\ st_failed s' = st_failed s /\
       (forall r, step actions c (LTask i r) s' = None)).
Proof.
  split; [intros; reflexivity|].
  split; [intros; by apply solo_exhausting|].
  split; [|split].
  - intros actions c blocks s i t e tail Hreach Hi Hft Hno.
    eapply hist_ok_exhausted; eauto.
    eapply Forall_lookup_1; [apply (hist_ok_reachable _ _ _ _ Hreach)|exact Hi].
  - intros actions c blocks s i t e Hreach Hi Hin.
    eapply fifth_failure_hist_ok; eauto.
    eapply Forall_lookup_1; [apply (hist_ok_reachable _ _ _ _ Hreach)|exact Hi].
  - intros actions c blocks s i t e Hreach Hne Hi Hpc ls s' Hrun.
    destruct (waiting_run _ _ _ _ _ _ _ _ _ Hreach Hne Hi Hpc Hrun) as (Hi' & Hf' & Hmx').
    split; [done|]. split; [done|].
    intros r. simpl. rewrite Hi'.
    by rewrite (lock_blocked _ _ _ _ _ Hmx' Hpc).
Qed.

(* ===================================================================== *)
(** * Further properties of the commands *)
(* ===================================================================== *)

Section StartMore.
Import Cmd.

Lemma block_range_length b e : length (block_range b e) = Z.to_nat (e - b).
Proof. unfold block_range. by rewrite length_map, length_seq. Qed.

Lemma block_range_lookup b e i :
  (i < Z.to_nat (e - b))%nat -> block_range b e !! i = Some (b + Z.of_nat i).
Proof.
  intros Hi. unfold block_range.
  assert (Hmap : forall (f : nat -> Z) l k x,
             l !! k = Some x -> map f l !! k = Some (f x)).
  { intros f l. induction l as [|y l IH]; intros [|k] x Hk; simplify_eq/=; auto. }
  apply (Hmap (fun k => b + Z.of_nat k) _ i i). by apply lookup_seq_lt.
Qed.

Lemma block_range_In b e h : In h (block_range b e) <-> b <= h < e.
Proof.
  unfold block_range. rewrite in_map_iff. split.
  - intros (k & <- & Hk). apply in_seq in Hk. lia.
  - intros Hh. exists (Z.to_nat (h - b)). split; [lia|].
    apply in_seq. lia.
Qed.

Ltac prelude_paths :=
  unfold prelude, bind, try, check, emit, fail, ret;
  repeat (simpl in *; case_match; simplify_eq/=).

(** What the first half of the command hands on: the first height is the
    flag, the end is the flag or, when the flag is 0, the latest height of
    the chain, which is asked for in that case only. *)
Lemma prelude_range flags cfg env chainID c b e t :
  prelude flags cfg env chainID [] = (inr (c, b, e), t) ->
  flagBeginBlock flags = inr b /\
  (flagEndBlock flags = inr e /\ e <> 0 /\ ~ In CallQueryLatestHeight t \/
   flagEndBlock flags = inr 0 /\ QueryLatestHeight env = inr e /\
   In CallQueryLatestHeight t).
Proof.
  prelude_paths; intros; simplify_eq.
  all: split; [done|].
  all: match goal with
       | H : (?x =? 0) = true |- _ => apply Z.eqb_eq in H; subst; right
       | H : (?x =? 0) = false |- _ => apply Z.eqb_neq in H; left
       end.
  all: repeat split; auto.
  all: try (intros Hin; repeat (destruct Hin as [Hin|Hin]; [discriminate|]);
            exact Hin).
  all: simpl; auto 10.
Qed.

Lemma prelude_debug flags cfg env chainID c b e t :
  prelude flags cfg env chainID [] = (inr (c, b, e), t) ->
  flagConcurrentBlocks flags = inr c /\
  exists addr, flagDebugAddr flags = inr addr /\
    match addr with
    | EmptyString => forall a, ~ In (CallListen a) t /\ ~ In (CallStartDebugServer a) t
    | _ => Listen env addr = None /\ In (CallListen addr) t /\
           In (CallStartDebugServer addr) t
    end.
Proof.
  prelude_paths; intros; simplify_eq.
  all: split; [done|].
  all: eexists; split; [reflexivity|]; simpl.
  all: try (intros a0; split; intros Hin;
            repeat (destruct Hin as [Hin|Hin]; [discriminate|]); exact Hin).
  all: repeat split; auto; rewrite ?in_app_iff; simpl; auto 10.
Qed.

(** When the command calls [ForEachBlock], this is its last call, the
    first half of the command has succeeded and the arguments are the
    range of heights, the resolved actions and the concurrency. *)
Lemma run_start_call flags cfg env chainID blocks acts c :
  In (CallForEachBlock blocks acts c) (snd (run_start flags cfg env chainID)) ->
  exists b e t,
    prelude flags cfg env chainID [] = (inr (c, b, e), t) /\
    blocks = block_range b e /\ acts = resolved (Actions cfg) /\
    run_start flags cfg env chainID =
      (ForEachBlock env blocks acts c,
       t ++ skipped (Actions cfg) ++ [CallForEachBlock blocks acts c]).
Proof.
  rewrite run_start_shape.
  destruct (prelude flags cfg env chainID []) as [[err|[[c0 b] e]] t] eqn:Hp.
  - simpl. intros Hin. pose proof (prelude_trace _ _ _ _ _ _ Hp) as Hf.
    rewrite Forall_forall in Hf. apply list_elem_of_In in Hin.
    by destruct (Hf _ Hin).
  - assert (Hno : forall l, In (CallForEachBlock blocks acts c) (t ++ skipped (Actions cfg) ++ l) ->
                            In (CallForEachBlock blocks acts c) l).
    { intros l Hin. rewrite !in_app_iff in Hin. destruct Hin as [Hin|[Hin|Hin]]; [| |done].
      - pose proof (prelude_trace _ _ _ _ _ _ Hp) as Hf.
        rewrite Forall_forall in Hf. apply list_elem_of_In in Hin.
        by destruct (Hf _ Hin).
      - unfold skipped in Hin. apply in_map_iff in Hin as (? & ? & _). done. }
    destruct (resolved (Actions cfg)) as [|a rest] eqn:Hr; simpl; intros Hin.
    + rewrite <- (app_nil_r (skipped _)) in Hin. destruct (Hno _ Hin).
    + apply Hno in Hin. destruct Hin as [Heq|[]]. simplify_eq.
      by exists b, e, t.
Qed.

(** [start] indexes the heights from the begin flag up to, and not
    including, the end: when [ForEachBlock] is called, its [blocks] are the
    heights [b], [b+1], ... in ascending order, [h] being one of them
    exactly when [b <= h < e], where [e] is the end flag or, when that flag
    is 0, the latest height of the chain (asked for in that case only).
    The end height itself, and so the latest block of the chain, is not
    indexed; when the end is not above the begin, no height is. *)
Theorem start_indexes_a_half_open_range flags cfg env chainID blocks acts c :
  In (CallForEachBlock blocks acts c) (snd (run_start flags cfg env chainID)) ->
  exists b e,
    flagBeginBlock flags = inr b /\
    (flagEndBlock flags = inr e /\ e <> 0 /\
       ~ In CallQueryLatestHeight (snd (run_start flags cfg env chainID)) \/
     flagEndBlock flags = inr 0 /\ QueryLatestHeight env = inr e /\
       In CallQueryLatestHeight (snd (run_start flags cfg env chainID))) /\
    length blocks = Z.to_nat (e - b) /\
    (forall i, (i < length blocks)%nat -> blocks !! i = Some (b + Z.of_nat i)) /\
    (forall h, In h blocks <-> b <= h < e) /\
    (e <= b -> blocks = []).
Proof.
  intros Hin. destruct (run_start_call _ _ _ _ _ _ _ Hin) as (b & e & t & Hp & -> & -> & Hrun).
  destruct (prelude_range _ _ _ _ _ _ _ _ Hp) as (Hb & He).
  exists b, e. split; [exact Hb|]. rewrite Hrun. simpl. split.
  - destruct He as [(He & Hne & Hq)|(He & Hl & Hq)]; [left|right];
      repeat split; auto.
    + rewrite !in_app_iff. intros [?|[Hs|[?|[]]]]; [done| |done].
      unfold skipped in Hs. apply in_map_iff in Hs as (? & ? & _). done.
    + rewrite in_app_iff. by left.
  - split; [apply block_range_length|]. split.
    + intros i Hi. rewrite block_range_length in Hi. by apply block_range_lookup.
    + split; [apply block_range_In|].
      intros Hle. unfold block_range.
      replace (Z.to_nat (e - b)) with 0%nat by lia. reflexivity.
Qed.

(** [ForEachBlock] is the last thing the command does and is called at
    most once: when it is called, everything before it in the trace is
    something else and the command returns what [ForEachBlock] returned;
    when it is not called, the command returns an error. *)
Theorem start_returns_what_the_indexer_returns flags cfg env chainID :
  (forall blocks acts c,
     In (CallForEachBlock blocks acts c) (snd (run_start flags cfg env chainID)) ->
     fst (run_start flags cfg env chainID) = ForEachBlock env blocks acts c /\
     exists before,
       snd (run_start flags cfg env chainID) =
         before ++ [CallForEachBlock blocks acts c] /\
       Forall (fun x => is_run x = false) before) /\
  (Forall (fun x => is_run x = false) (snd (run_start flags cfg env chainID)) ->
   exists e, fst (run_start flags cfg env chainID) = Some e).
Proof.
  split.
  - intros blocks acts c Hin.
    destruct (run_start_call _ _ _ _ _ _ _ Hin) as (b & e & t & Hp & -> & -> & Hrun).
    rewrite Hrun. simpl. split; [done|].
    exists (t ++ skipped (Actions cfg)). split; [by rewrite <- app_assoc|].
    apply Forall_app_2.
    + eapply Forall_impl; [exact (prelude_trace _ _ _ _ _ _ Hp)|]. by intros ? [_ ?].
    + unfold skipped. induction (unknown (Actions cfg)); constructor; auto.
  - rewrite run_start_shape.
    destruct (prelude flags cfg env chainID []) as [[err|[[c0 b] e]] t] eqn:Hp;
      [by eexists|].
    destruct (resolved (Actions cfg)) as [|a rest]; simpl; [by eexists|].
    intros Hf. rewrite !Forall_app in Hf. destruct Hf as (_ & _ & Hf).
    by inversion Hf.
Qed.

(** Started without any flag, the command listens on [localhost:49666]
    for its debug server, asks the chain for its latest height and runs
    [ForEachBlock] with 100 workers over the heights from 1 up to, but not
    including, the latest height. *)
Theorem start_without_flags cfg env chainID blocks acts c :
  In (CallForEachBlock blocks acts c) (snd (run_start default_flags cfg env chainID)) ->
  c = 100%nat /\
  In (CallListen "localhost:49666") (snd (run_start default_flags cfg env chainID)) /\
  In CallQueryLatestHeight (snd (run_start default_flags cfg env chainID)) /\
  exists latest,
    QueryLatestHeight env = inr latest /\
    forall h, In h blocks <-> 1 <= h < latest.
Proof.
  intros Hin. destruct (run_start_call _ _ _ _ _ _ _ Hin) as (b & e & t & Hp & -> & -> & Hrun).
  destruct (prelude_range _ _ _ _ _ _ _ _ Hp) as (Hb & He).
  destruct (prelude_debug _ _ _ _ _ _ _ _ Hp) as (Hc & addr & Ha & Hd).
  simpl in Hb, Hc, Ha. simplify_eq. simpl in Hd. destruct Hd as (_ & Hl & _).
  rewrite Hrun. simpl. split; [done|].
  destruct He as [(He & Hne & _)|(_ & Hq & Hi)]; [simpl in He; simplify_eq|].
  split; [rewrite in_app_iff; by left|].
  split; [rewrite in_app_iff; by left|].
  exists e. split; [done|]. apply block_range_In.
Qed.

Lemma prelude_listen flags cfg env chainID r t addr e :
  prelude flags cfg env chainID [] = (r, t) ->
  flagDebugAddr flags = inr addr -> Listen env addr = Some e ->
  In (CallListen addr) t ->
  r = inl (ErrDebugListen addr e) /\
  ~ In CallQueryLatestHeight t /\ ~ In (CallStartDebugServer addr) t.
Proof.
  prelude_paths; intros; simplify_eq.
  all: try match goal with
           | H : In _ _ |- _ =>
               by repeat (destruct H as [H|H]; [discriminate|])
           end.
  all: split; [done|]; split; intros Hin;
    by repeat (destruct Hin as [Hin|Hin]; [discriminate|]).
Qed.

Lemma prelude_no_listen flags cfg env chainID r t :
  prelude flags cfg env chainID [] = (r, t) ->
  flagDebugAddr flags = inr EmptyString ->
  forall a, ~ In (CallListen a) t /\ ~ In (CallStartDebugServer a) t.
Proof.
  prelude_paths; intros; simplify_eq.
  all: split; intros Hin;
    by repeat (destruct Hin as [Hin|Hin]; [discriminate|]).
Qed.

Lemma run_start_trace flags cfg env chainID x :
  is_call x = true -> is_run x = false ->
  In x (snd (run_start flags cfg env chainID)) ->
  In x (snd (prelude flags cfg env chainID [])).
Proof.
  intros Hc Hr. rewrite run_start_shape.
  destruct (prelude flags cfg env chainID []) as [[err|[[c0 b] e]] t]; [done|].
  assert (Hsk : ~ In x (skipped (Actions cfg))).
  { unfold skipped. intros (? & <- & _)%in_map_iff. done. }
  destruct (resolved (Actions cfg)); simpl; rewrite !in_app_iff.
  - intros [?|?]; [done|tauto].
  - intros [?|[?|[<-|[]]]]; [done|tauto|done].
Qed.

(** The debug server.  With an empty debug address the command never
    listens and starts no debug server.  With an address on which it
    cannot listen, the command returns the error of the listener, wrapped
    with the address, and stops there: no debug server is started, the
    latest height is not asked for and [ForEachBlock] is not called. *)
Theorem debug_listen_failure_stops_the_start flags cfg env chainID :
  (flagDebugAddr flags = inr EmptyString ->
   forall a, ~ In (CallListen a) (snd (run_start flags cfg env chainID)) /\
             ~ In (CallStartDebugServer a) (snd (run_start flags cfg env chainID))) /\
  (forall addr e,
     flagDebugAddr flags = inr addr -> Listen env addr = Some e ->
     In (CallListen addr) (snd (run_start flags cfg env chainID)) ->
     fst (run_start flags cfg env chainID) = Some (ErrDebugListen addr e) /\
     ~ In (CallStartDebugServer addr) (snd (run_start flags cfg env chainID)) /\
     ~ In CallQueryLatestHeight (snd (run_start flags cfg env chainID)) /\
     Forall (fun x => is_run x = false) (snd (run_start flags cfg env chainID))).
Proof.
  split.
  - intros Ha a.
    destruct (prelude flags cfg env chainID []) as [r t] eqn:Hp.
    destruct (prelude_no_listen _ _ _ _ _ _ Hp Ha a) as [H1 H2].
    split; intros Hin; apply run_start_trace in Hin; try done;
      rewrite Hp in Hin; auto.
  - intros addr e Ha Hl Hin.
    apply run_start_trace in Hin; [|done|done].
    destruct (prelude flags cfg env chainID []) as [r t] eqn:Hp. simpl in Hin.
    destruct (prelude_listen _ _ _ _ _ _ _ _ Hp Ha Hl Hin) as (-> & Hq & Hs).
    rewrite run_start_shape, Hp. simpl. repeat split; auto.
    eapply Forall_impl; [exact (prelude_trace _ _ _ _ _ _ Hp)|]. by intros ? [_ ?].
Qed.

Lemma resolved_replicate names :
  resolved names = replicate (length (known names)) NewIBCTransfer.
Proof.
  induction names as [|name names IH]; [done|].
  rewrite resolved_cons, known_cons.
  destruct (String.eqb name IBC.BlockActionName); simpl; by rewrite IH.
Qed.

(** The only action there is to register is the IBC transfer action, and
    it is registered once for every time its name is written in the
    configuration: when [ForEachBlock] is called, its actions are as many
    copies of that action as the configuration names it, so that a name
    written twice makes every block be indexed twice. *)
Theorem every_occurrence_registers_the_action flags cfg env chainID blocks acts c :
  In (CallForEachBlock blocks acts c) (snd (run_start flags cfg env chainID)) ->
  acts = replicate (length (known (Actions cfg))) NewIBCTransfer /\
  Forall (fun a => Name a = IBC.BlockActionName) acts /\
  (1 <= length (known (Actions cfg)))%nat.
Proof.
  intros Hin.
  destruct (run_start_call _ _ _ _ _ _ _ Hin) as (b & e & t & Hp & -> & -> & Hrun).
  rewrite resolved_replicate. split; [done|]. split.
  - induction (length (known (Actions cfg))); simpl; by constructor.
  - rewrite run_start_shape, Hp in Hrun.
    rewrite resolved_replicate in Hrun.
    destruct (length (known (Actions cfg))); [|lia].
    simpl in Hrun. injection Hrun as _ Ht.
    apply (f_equal length) in Ht. rewrite !length_app in Ht. simpl in Ht. lia.
Qed.

(* --------------------------------------------------------------------- *)
(** ** The configured chains *)
(* --------------------------------------------------------------------- *)

Lemma GetChainConfig_In chains chainID :
  GetChainConfig chains chainID = inr chainID <-> In chainID chains.
Proof.
  induction chains as [|x chains IH]; simpl; [split; [done|tauto]|].
  destruct (String.eqb chainID x) eqn:Hx.
  - apply String.eqb_eq in Hx. subst. split; auto.
  - apply String.eqb_neq in Hx. rewrite IH. split; [auto|].
    intros [?|?]; [congruence|done].
Qed.

Lemma GetChainConfig_cases chains chainID :
  (In chainID chains /\ GetChainConfig chains chainID = inr chainID) \/
  (~ In chainID chains /\ GetChainConfig chains chainID = inl (ErrChainNotConfigured chainID)).
Proof.
  induction chains as [|x chains IH]; simpl; [right; tauto|].
  destruct (String.eqb chainID x) eqn:Hx.
  - apply String.eqb_eq in Hx. subst. left. auto.
  - apply String.eqb_neq in Hx.
    destruct IH as [[? ?]|[? ?]]; [left; auto|right].
    split; [|done]. intros [?|?]; [congruence|done].
Qed.

(** [GetChainConfig] finds a chain exactly when it is configured; asked
    for a chain that is not, [start] returns the error of [GetChainConfig]
    before it has created a client, connected to the database or called
    anything else. *)
Theorem unconfigured_chain_stops_the_start flags cfg env chainID c :
  flagConcurrentBlocks flags = inr c -> (1 <= c)%nat ->
  (In chainID (ChainConfigs cfg) <->
   GetChainConfig (ChainConfigs cfg) chainID = inr chainID) /\
  (~ In chainID (ChainConfigs cfg) ->
   run_start flags cfg env chainID = (Some (ErrChainNotConfigured chainID), [])) /\
  (In chainID (ChainConfigs cfg) ->
   exists rest, snd (run_start flags cfg env chainID) = CallNewChainClient chainID :: rest).
Proof.
  intros Hc Hle. split; [by rewrite GetChainConfig_In|].
  assert (Hlt : Nat.ltb c 1 = false) by (apply Nat.ltb_ge; lia).
  destruct (GetChainConfig_cases (ChainConfigs cfg) chainID) as [[Hin Hg]|[Hin Hg]].
  - split; [done|]. intros _. rewrite run_start_shape.
    unfold prelude, bind, try, check, emit, fail, ret. rewrite Hc, Hlt, Hg. simpl.
    repeat (case_match; simplify_eq/=); eauto.
  - split; [|done]. intros _. rewrite run_start_shape.
    unfold prelude, bind, try, check, emit, fail, ret. by rewrite Hc, Hlt, Hg.
Qed.

Lemma AddChainConfig_cases c chainID :
  (chainID = EmptyString /\ AddChainConfig c chainID = (Some ErrEmptyChainID, c)) \/
  (chainID <> EmptyString /\ In chainID (ChainConfigs c) /\
   AddChainConfig c chainID = (Some (ErrChainExists chainID), c)) \/
  (chainID <> EmptyString /\ ~ In chainID (ChainConfigs c) /\
   AddChainConfig c chainID =
     (None, mkConfig (ChainConfigs c ++ [chainID]) (Actions c))).
Proof.
  destruct chainID as [|a chainID]; [by left|right].
  unfold AddChainConfig.
  destruct (GetChainConfig_cases (ChainConfigs c) (String a chainID)) as [[Hin ->]|[Hin ->]];
    [left|right]; done.
Qed.

(** [AddChainConfig] followed by [GetChainConfig]: a chain that was added
    is found, the other chains are found or not as before, the actions are
    untouched, and adding the same chain again is refused and changes
    nothing. *)
Theorem added_chain_is_found c chainID c' :
  AddChainConfig c chainID = (None, c') ->
  GetChainConfig (ChainConfigs c') chainID = inr chainID /\
  (forall other, other <> chainID ->
     GetChainConfig (ChainConfigs c') other = GetChainConfig (ChainConfigs c) other) /\
  Actions c' = Actions c /\
  AddChainConfig c' chainID = (Some (ErrChainExists chainID), c').
Proof.
  intros Hadd.
  destruct (AddChainConfig_cases c chainID) as [[_ H]|[(_ & _ & H)|(Hne & Hnin & H)]];
    rewrite H in Hadd; simplify_eq/=.
  assert (Hin : In chainID (ChainConfigs c ++ [chainID])) by (apply in_or_app; right; by left).
  split; [by apply GetChainConfig_In|]. split; [|split; [done|]].
  - intros other Hother.
    destruct (GetChainConfig_cases (ChainConfigs c ++ [chainID]) other) as [[Hi ->]|[Hi ->]];
      destruct (GetChainConfig_cases (ChainConfigs c) other) as [[Hj ->]|[Hj ->]];
      try done.
    + apply in_app_or in Hi as [?|[?|[]]]; [done|congruence].
    + destruct Hi. apply in_or_app. by left.
  - destruct (AddChainConfig_cases (mkConfig (ChainConfigs c ++ [chainID]) (Actions c)) chainID)
      as [[? _]|[(_ & _ & H')|(_ & Hnin' & _)]]; done.
Qed.

Lemma AddChainConfig_keeps c chainID :
  NoDup (ChainConfigs c) -> ~ In EmptyString (ChainConfigs c) ->
  NoDup (ChainConfigs (snd (AddChainConfig c chainID))) /\
  ~ In EmptyString (ChainConfigs (snd (AddChainConfig c chainID))) /\
  exists more, ChainConfigs (snd (AddChainConfig c chainID)) = ChainConfigs c ++ more.
Proof.
  intros Hnd Hne.
  destruct (AddChainConfig_cases c chainID) as [[_ ->]|[(_ & _ & ->)|(Hn & Hnin & ->)]];
    simpl.
  - repeat split; auto. exists []. by rewrite app_nil_r.
  - repeat split; auto. exists []. by rewrite app_nil_r.
  - split; [|split; [|by eexists]].
    + apply NoDup_app. repeat split; auto.
      * intros x Hx [->|[]]%list_elem_of_In. by apply list_elem_of_In in Hx.
      * apply NoDup_singleton.
    + intros [?|[?|[]]]%in_app_or; [done|congruence].
Qed.

(** However chains are added, and whatever each [AddChainConfig] returns,
    a configuration whose chain IDs are distinct and not empty stays so, the
    chains it had stay where they were, and every chain that was asked for
    with an ID that is not empty is configured in the end. *)
Theorem chain_ids_stay_distinct c chainIDs :
  NoDup (ChainConfigs c) -> ~ In EmptyString (ChainConfigs c) ->
  NoDup (ChainConfigs (add_all c chainIDs)) /\
  ~ In EmptyString (ChainConfigs (add_all c chainIDs)) /\
  (exists more, ChainConfigs (add_all c chainIDs) = ChainConfigs c ++ more) /\
  (forall chainID, In chainID chainIDs -> chainID <> EmptyString ->
     GetChainConfig (ChainConfigs (add_all c chainIDs)) chainID = inr chainID).
Proof.
  revert c. induction chainIDs as [|x chainIDs IH]; intros c Hnd Hne.
  - simpl. split; [done|]. split; [done|]. split; [|by intros ? []].
    exists []. by rewrite app_nil_r.
  - destruct (AddChainConfig_keeps c x Hnd Hne) as (Hnd1 & Hne1 & more1 & Hm1).
    destruct (IH _ Hnd1 Hne1) as (Hnd2 & Hne2 & (more2 & Hm2) & Hall).
    change (add_all c (x :: chainIDs)) with (add_all (snd (AddChainConfig c x)) chainIDs).
    split; [done|]. split; [done|]. split.
    + exists (more1 ++ more2). by rewrite Hm2, Hm1, <- app_assoc.
    + intros chainID [->|Hin] Hn; [|by apply Hall].
      apply GetChainConfig_In. rewrite Hm2. apply in_or_app. left.
      destruct (AddChainConfig_cases c chainID) as [[? _]|[(_ & Hi & ->)|(_ & _ & ->)]];
        [done| |]; simpl.
      * done.
      * apply in_or_app. right. by left.
Qed.

End StartMore.

(* ===================================================================== *)
(** * Properties of the chains command *)
(* ===================================================================== *)

Section ChainsFacts.
Import Cmd Chains.
Context {W I : Type} (r : Registry W I).

Lemma try_chain_unknown chain possible (a : app W) :
  ~ In chain possible ->
  try_chain r chain false possible a =
  (None, mkApp (world a) (Cfg a) (warnings a ++ not_found chain (length possible))).
Proof.
  revert a. induction possible as [|p possible IH]; intros a Hin.
  - simpl. rewrite app_nil_r. by destruct a.
  - simpl. destruct (String.eqb chain p) eqn:Hp.
    + apply String.eqb_eq in Hp. subst. destruct Hin. by left.
    + simpl. rewrite IH by (intros ?; apply Hin; by right).
      simpl. by rewrite <- app_assoc.
Qed.

Lemma add_chains_unknown allChains chains (a : app W) :
  Forall (fun chain => ~ In chain allChains) chains ->
  add_chains r allChains chains a =
  (None, mkApp (world a) (Cfg a)
           (warnings a ++ flat_map (fun chain => not_found chain (length allChains)) chains)).
Proof.
  intros Hall. revert a. induction Hall as [|chain chains Hc _ IH]; intros a.
  - simpl. rewrite app_nil_r. by destruct a.
  - simpl. rewrite (try_chain_unknown _ _ _ Hc), IH. simpl.
    by rewrite <- app_assoc.
Qed.

(** Asked for chains the registry does not list, the function adds
    nothing and still returns [nil]: the configuration is as it was, and
    all it has done is log "Unable to find chain" once per registry entry
    for every chain asked for. *)
Theorem unknown_chains_are_accepted_silently chains allChains (a : app W) w :
  ListChains r (world a) = (inr allChains, w) ->
  Forall (fun chain => ~ In chain allChains) chains ->
  addChainConfigsFromRegistry r chains a =
  (None, mkApp w (Cfg a)
           (warnings a ++ flat_map (fun chain => not_found chain (length allChains)) chains)).
Proof.
  intros Hl Hall. unfold addChainConfigsFromRegistry. rewrite Hl.
  by rewrite (add_chains_unknown _ _ _ Hall).
Qed.

Lemma try_chain_before chain before rest (a : app W) :
  ~ In chain before ->
  try_chain r chain false (before ++ rest) a =
  try_chain r chain false rest
    (mkApp (world a) (Cfg a) (warnings a ++ not_found chain (length before))).
Proof.
  revert a. induction before as [|p before IH]; intros a Hin.
  - simpl. rewrite app_nil_r. by destruct a.
  - simpl. destruct (String.eqb chain p) eqn:Hp.
    + apply String.eqb_eq in Hp. subst. destruct Hin. by left.
    + simpl. rewrite IH by (intros ?; apply Hin; by right).
      simpl. by rewrite <- app_assoc.
Qed.

(** A chain the registry lists is added at its first occurrence in the
    list of the registry, after "Unable to find chain" has been logged for
    it once for every entry that comes before; the entries after it are not
    looked at. *)
Theorem listed_chain_is_added_after_warnings chain before after (a : app W)
    info w1 chainConfig w2 c' :
  ~ In chain before ->
  GetChain r chain (world a) = (inr info, w1) ->
  ChainInfoConfig r info w1 = (inr chainConfig, w2) ->
  AddChainConfig (Cfg a) chainConfig = (None, c') ->
  try_chain r chain false (before ++ chain :: after) a =
  (None, mkApp w2 c' (warnings a ++ not_found chain (length before))) /\
  ChainConfigs c' = ChainConfigs (Cfg a) ++ [chainConfig].
Proof.
  intros Hin Hg Hc Hadd. rewrite (try_chain_before _ _ _ _ Hin). simpl.
  rewrite String.eqb_refl. simpl. rewrite Hg, Hc, Hadd. split; [done|].
  destruct (AddChainConfig_cases (Cfg a) chainConfig) as [[_ H]|[(_ & _ & H)|(_ & _ & H)]];
    rewrite H in Hadd; by simplify_eq/=.
Qed.

Lemma try_chain_unreachable chain possible (a : app W) :
  (forall w, exists e, fst (GetChain r chain w) = inl e) ->
  fst (try_chain r chain true possible a) = None /\
  Cfg (snd (try_chain r chain true possible a)) = Cfg a /\
  warnings (snd (try_chain r chain true possible a)) =
    warnings a ++ replicate (length possible) ("Error retrieving chain"%string, chain).
Proof.
  intros Hfail. revert a. induction possible as [|p possible IH]; intros a.
  - simpl. by rewrite app_nil_r.
  - simpl. replace (if String.eqb chain p then true else true) with true
      by (by destruct (String.eqb chain p)).
    simpl. destruct (Hfail (world a)) as [e He].
    destruct (GetChain r chain (world a)) as [[e'|info] w]; [|done].
    destruct (IH (warn "Error retrieving chain" chain (set_world w a))) as (H1 & H2 & H3).
    split; [done|]. split; [done|]. rewrite H3. simpl. by rewrite <- app_assoc.
Qed.

(** A listed chain whose metadata the registry cannot deliver is asked for
    again at every later entry of the registry's list and then given up
    without an error: nothing is added, the loop returns no error, and
    "Error retrieving chain" has been logged once for the entry of the
    chain and once for every entry after it. *)
Theorem unreachable_chain_is_asked_for_at_every_later_entry chain before after
    (a : app W) :
  ~ In chain before ->
  (forall w, exists e, fst (GetChain r chain w) = inl e) ->
  fst (try_chain r chain false (before ++ chain :: after) a) = None /\
  Cfg (snd (try_chain r chain false (before ++ chain :: after) a)) = Cfg a /\
  warnings (snd (try_chain r chain false (before ++ chain :: after) a)) =
    warnings a ++ not_found chain (length before)
      ++ replicate (S (length after)) ("Error retrieving chain"%string, chain).
Proof.
  intros Hin Hfail. rewrite (try_chain_before _ _ _ _ Hin).
  set (a1 := mkApp (world a) (Cfg a) (warnings a ++ not_found chain (length before))).
  pose proof (try_chain_unreachable chain (chain :: after) a1 Hfail) as Hu.
  assert (Heq : try_chain r chain false (chain :: after) a1 =
                try_chain r chain true (chain :: after) a1).
  { simpl. by rewrite String.eqb_refl. }
  rewrite Heq. destruct Hu as (H1 & H2 & H3).
  split; [done|]. split; [done|]. rewrite H3. simpl. by rewrite <- app_assoc.
Qed.

Lemma try_chain_keeps chain found possible (a : app W) :
  NoDup (ChainConfigs (Cfg a)) -> ~ In EmptyString (ChainConfigs (Cfg a)) ->
  let a' := snd (try_chain r chain found possible a) in
  NoDup (ChainConfigs (Cfg a')) /\ ~ In EmptyString (ChainConfigs (Cfg a')) /\
  Actions (Cfg a') = Actions (Cfg a) /\
  (exists more, ChainConfigs (Cfg a') = ChainConfigs (Cfg a) ++ more) /\
  (exists more, warnings a' = warnings a ++ more).
Proof.
  revert found a. induction possible as [|p possible IH]; intros found a Hnd Hne.
  - simpl. repeat split; auto; exists []; by rewrite app_nil_r.
  - simpl.
    assert (Hwarn : forall msg w,
      let a' := snd (try_chain r chain (if String.eqb chain p then true else found)
                       possible (warn msg chain (set_world w a))) in
      NoDup (ChainConfigs (Cfg a')) /\ ~ In EmptyString (ChainConfigs (Cfg a')) /\
      Actions (Cfg a') = Actions (Cfg a) /\
      (exists more, ChainConfigs (Cfg a') = ChainConfigs (Cfg a) ++ more) /\
      (exists more, warnings a' = warnings a ++ more)).
    { intros msg w.
      destruct (IH (if String.eqb chain p then true else found)
                  (warn msg chain (set_world w a)) Hnd Hne)
        as (H1 & H2 & H3 & H4 & (more & H5)).
      split; [done|]. split; [done|]. split; [done|]. split; [done|].
      exists ([(msg, chain)] ++ more). rewrite H5. simpl. by rewrite <- app_assoc. }
    destruct (negb (if String.eqb chain p then true else found)).
    { replace (warn "Unable to find chain" chain a)
        with (warn "Unable to find chain" chain (set_world (world a) a))
        by (by destruct a).
      apply Hwarn. }
    destruct (GetChain r chain (world a)) as [[e|info] w]; [apply Hwarn|].
    destruct (ChainInfoConfig r info w) as [[e|chainConfig] w']; [apply Hwarn|].
    destruct (AddChainConfig_keeps (Cfg a) chainConfig Hnd Hne) as (H1 & H2 & H3).
    assert (Hact : Actions (snd (AddChainConfig (Cfg a) chainConfig)) = Actions (Cfg a)).
    { destruct (AddChainConfig_cases (Cfg a) chainConfig)
        as [[_ ->]|[(_ & _ & ->)|(_ & _ & ->)]]; done. }
    destruct (AddChainConfig (Cfg a) chainConfig) as [[e|] c]; simpl in *.
    + split; [done|]. split; [done|]. split; [done|]. split; [done|]. by eexists.
    + split; [done|]. split; [done|]. split; [done|]. split; [done|].
      exists []. by rewrite app_nil_r.
Qed.

(** Whatever the registry answers, [addChainConfigsFromRegistry] only
    ever appends to the configured chains: the chains configured before
    stay where they were, the chain IDs stay distinct and not empty, the
    actions are untouched and no warning is lost; and when it returns an
    error of [AddChainConfig], the chains added before the error are still
    in the configuration in memory. *)
Theorem registry_only_appends_chains chains (a : app W) :
  NoDup (ChainConfigs (Cfg a)) -> ~ In EmptyString (ChainConfigs (Cfg a)) ->
  let a' := snd (addChainConfigsFromRegistry r chains a) in
  NoDup (ChainConfigs (Cfg a')) /\ ~ In EmptyString (ChainConfigs (Cfg a')) /\
  Actions (Cfg a') = Actions (Cfg a) /\
  (exists more, ChainConfigs (Cfg a') = ChainConfigs (Cfg a) ++ more) /\
  (exists more, warnings a' = warnings a ++ more).
Proof.
  intros Hnd Hne. unfold addChainConfigsFromRegistry.
  destruct (ListChains r (world a)) as [[e|allChains] w]; simpl.
  { repeat split; auto; exists []; by rewrite app_nil_r. }
  change (ChainConfigs (Cfg a)) with (ChainConfigs (Cfg (set_world w a))) in *.
  change (Actions (Cfg a)) with (Actions (Cfg (set_world w a))).
  change (warnings a) with (warnings (set_world w a)).
  generalize dependent (set_world w a). clear a.
  induction chains as [|chain chains IH]; intros a Hnd Hne.
  - simpl. repeat split; auto; exists []; by rewrite app_nil_r.
  - simpl.
    pose proof (try_chain_keeps chain false allChains a Hnd Hne) as Hk.
    destruct (try_chain r chain false allChains a) as [[e|] a1]; simpl in Hk.
    + exact Hk.
    + destruct Hk as (H1 & H2 & H3 & (m4 & H4) & (m5 & H5)).
      destruct (IH a1 H1 H2) as (G1 & G2 & G3 & (n4 & G4) & (n5 & G5)).
      split; [done|]. split; [done|]. split; [congruence|]. split.
      * exists (m4 ++ n4). by rewrite G4, H4, <- app_assoc.
      * exists (m5 ++ n5). by rewrite G5, H5, <- app_assoc.
Qed.

End ChainsFacts.

(* ===================================================================== *)
(** * Further properties of the IBC transfer action *)
(* ===================================================================== *)

Section IBCMore.
Import IBC.
Context {W : Type} (c : Collaborators W).

Ltac run_monad :=
  unfold set_msg_hash, create_msg, LogTxInsertion, bind, call, log, ret, panic in *;
  simpl in *.







(** The context is looked at before every transaction: when it is done
    once the transactions [pre] have been indexed, [Execute] returns the
    error of the context at once; the transaction it was about to index and
    those after it are neither decoded nor looked up, and nothing is
    written or logged for them. *)
Theorem cancelled_context_stops_the_block block pre tx post s0 s1 w1 :
  Txs block = pre ++ tx :: post ->
  index_txs c block 0 pre s0 = (Normal None, s1) ->
  CtxDone c (fst s1) = (true, w1) ->
  Execute c block s0 = (Normal (Some ContextCanceled), (w1, snd s1)).
Proof.
  intros Htxs Hpre Hctx.
  unfold Execute, IndexIBCTransfers. rewrite Htxs, index_txs_app, Hpre.
  simpl. unfold bind at 1. unfold call at 1. by rewrite Hctx.
Qed.

(* --------------------------------------------------------------------- *)
(** ** The rows handed to the database *)
(* --------------------------------------------------------------------- *)

Lemma HandleIBCMsg_rows msg i height hash w rows l :
  exists w' new l',
    HandleIBCMsg (recording c) msg i height hash ((w, rows), l) =
      (Normal tt, ((w', rows ++ new), l')) /\
    match msg with
    | MsgOther => new = []
    | _ =>
        exists row, new = [row] /\
          same_kind msg row = true /\ row_index row = Some i /\
          row_hash row = match ByteaSet c hash with
                         | None => Some hash
                         | Some _ => None
                         end
    end.
Proof.
  destruct msg; unfold HandleIBCMsg; run_monad.
  all: try (destruct (ByteaSet c hash) as [e|]; simpl;
            match goal with
            | |- context [DBCreate c ?row ?w0] =>
                destruct (DBCreate c row w0) as [[e'|] w'] eqn:Hdb
            end; simpl; eexists _, [_], _; (split; [reflexivity|]);
            eexists; (split; [reflexivity|]); simpl; auto).
  exists w, [], l. split; [by rewrite app_nil_r|done].
Qed.

(** The rows of the messages of a transaction. *)
Lemma handle_msgs_rows msgs i height hash w rows l :
  exists w' new l',
    handle_msgs (recording c) i msgs height hash ((w, rows), l) =
      (Normal tt, ((w', rows ++ new), l')) /\
    length new = length (List.filter is_ibc msgs) /\
    forall j row, new !! j = Some row ->
      exists k m, msgs !! k = Some m /\ same_kind m row = true /\
        length (List.filter is_ibc (take k msgs)) = j /\
        row_index row = Some (i + k)%nat /\
        row_hash row = match ByteaSet c hash with
                       | None => Some hash
                       | Some _ => None
                       end.
Proof.
  revert i w rows l. induction msgs as [|m msgs IH]; intros i w rows l.
  - exists w, [], l. simpl. rewrite app_nil_r. repeat split; auto.
    intros j row Hj. done.
  - simpl. unfold bind at 1.
    destruct (HandleIBCMsg_rows m i height hash w rows l) as (w1 & new1 & l1 & -> & Hrow).
    destruct (IH (S i) w1 (rows ++ new1) l1) as (w2 & new & l2 & -> & Hlen & Hnew).
    exists w2, (new1 ++ new), l2. split; [by rewrite <- app_assoc|].
    destruct (is_ibc m) eqn:Hibc.
    + assert (exists row, new1 = [row] /\
                same_kind m row = true /\ row_index row = Some i /\
                row_hash row = match ByteaSet c hash with
                               | None => Some hash
                               | Some _ => None
                               end) as (row0 & -> & Hk0 & Hi0 & Hh0)
        by (by destruct m).
      split; [simpl; by rewrite Hlen|].
      intros [|j] row Hj; simplify_eq/=.
      * exists 0%nat, m. repeat split; auto. by rewrite Nat.add_0_r.
      * destruct (Hnew _ _ Hj) as (k & m' & Hk & Hs & Hc & Hi & Hh).
        exists (S k), m'. simpl. rewrite Hibc. simpl.
        repeat split; auto. by rewrite Nat.add_succ_r.
    + assert (new1 = []) as -> by (by destruct m).
      split; [done|]. simpl.
      intros j row Hj. destruct (Hnew _ _ Hj) as (k & m' & Hk & Hs & Hc & Hi & Hh).
      exists (S k), m'. simpl. rewrite Hibc. repeat split; auto.
      by rewrite Nat.add_succ_r.
Qed.

(** [HandleIBCMsg] never stops the loop over the messages of a
    transaction and never gives up a row: whatever the database and the
    [pgtype] setter answer, one row is handed to [DB.Create] for every
    transfer, receive, timeout and acknowledgement message, in the order of
    the messages and of the model of the message; its [MsgIndex] is the
    position of the message among all the messages of the transaction, the
    other messages included; and when the hash cannot be set the row is
    handed over without it. *)
Theorem every_ibc_message_gets_a_row msgs height hash w rows l :
  exists w' new l',
    handle_msgs (recording c) 0 msgs height hash ((w, rows), l) =
      (Normal tt, ((w', rows ++ new), l')) /\
    length new = length (List.filter is_ibc msgs) /\
    forall j row, new !! j = Some row ->
      exists k m, msgs !! k = Some m /\ same_kind m row = true /\
        length (List.filter is_ibc (take k msgs)) = j /\
        row_index row = Some k /\
        row_hash row = match ByteaSet c hash with
                       | None => Some hash
                       | Some _ => None
                       end.
Proof.
  destruct (handle_msgs_rows msgs 0 height hash w rows l) as (w' & new & l' & H1 & H2 & H3).
  exists w', new, l'. split; [done|]. split; [done|].
  intros j row Hj. destruct (H3 _ _ Hj) as (k & m & ?). by exists k, m.
Qed.

Lemma index_tx_rows block i tx w rows l out s' :
  index_tx (recording c) block i tx ((w, rows), l) = (out, s') ->
  snd (fst s') = rows \/
  exists g, snd (fst s') = rows ++ group_rows g /\ tx_rows c block tx w g.
Proof.
  unfold index_tx. simpl.
  destruct (TxDecoder c tx) as [e|sdkTx] eqn:Hd.
  { run_monad. intros; simplify_eq/=. by left. }
  unfold bind at 1. unfold call at 1. simpl.
  destruct (QueryTx c (TxHash c tx) w) as [[e|txRes] w1] eqn:Hq; simpl.
  { run_monad. intros; simplify_eq/=. by left. }
  destruct (asFeeTx sdkTx) as [fee|] eqn:Hf.
  2:{ unfold panic. intros; simplify_eq/=. by left. }
  destruct (ByteaSet c (TxHash c tx)) eqn:Hb.
  { run_monad. intros; simplify_eq/=. by left. }
  destruct (TimestampSet c (Time block)) eqn:Ht.
  { run_monad. intros; simplify_eq/=. by left. }
  destruct (JSONBSet c _) eqn:Hj.
  { run_monad. intros; simplify_eq/=. by left. }
  unfold bind at 1. unfold call at 1. simpl.
  match goal with |- context [DBCreate c (RowTx ?r) w1] =>
    set (txrow := r); destruct (DBCreate c (RowTx txrow) w1) as [r0 w2] end.
  simpl. unfold bind at 1.
  assert (Hlog : exists l2, @LogTxInsertion (W * list Row) r0 i (Height block)
                              (w2, rows ++ [RowTx txrow], l) =
                            (Normal tt, (w2, rows ++ [RowTx txrow], l2))).
  { unfold LogTxInsertion, log. destruct r0; by eexists. }
  destruct Hlog as [l2 ->].
  destruct (handle_msgs_rows (GetMsgs sdkTx) 0 (Height block) (TxHash c tx) w2
              (rows ++ [RowTx txrow]) l2) as (w3 & new & l3 & -> & Hlen & Hnew).
  intros; simplify_eq/=. right.
  exists (txrow, new).
  split; [unfold group_rows; simpl; by rewrite <- app_assoc|].
  exists sdkTx, fee, txRes, w1. simpl.
  split; [done|]. split; [done|]. split; [done|]. split; [done|].
  split; [done|]. split; [exact Hj|]. split; [done|]. split; [done|].
  rewrite Forall_forall. intros row Hin.
  apply list_elem_of_lookup in Hin as [j Hj'].
  destruct (Hnew _ _ Hj') as (k & m & _ & Hs & _ & _ & Hh). rewrite Hb in Hh.
  split; [|done]. by destruct m, row.
Qed.

(** The loop from the transaction at position [length before] on, in the
    run of [Execute] from [s0]. *)
Lemma index_txs_rows block s0 before txs s out s' :
  Txs block = before ++ txs ->
  index_txs (recording c) block 0 before s0 = (Normal None, s) ->
  index_txs (recording c) block (length before) txs s = (out, s') ->
  exists groups,
    snd (fst s') = snd (fst s) ++ flat_map (fun ig => group_rows (snd ig)) groups /\
    Forall (fun ig => (length before <= fst ig < length (Txs block))%nat) groups /\
    StronglySorted lt (map fst groups) /\
    Forall (tx_group c block s0) groups.
Proof.
  revert before s. induction txs as [|tx txs IH]; intros before s Htxs Hpre; simpl.
  - unfold ret. intros; simplify_eq/=. exists []. simpl.
    rewrite app_nil_r. repeat split; constructor.
  - destruct s as [[w rows] l].
    unfold bind at 1. unfold call at 1. simpl.
    destruct (CtxDone c w) as [[|] w1] eqn:Hctx; simpl.
    { unfold ret. intros; simplify_eq/=. exists []. simpl.
      rewrite app_nil_r. repeat split; constructor. }
    unfold bind at 1.
    destruct (index_tx (recording c) block (length before) tx (w1, rows, l))
      as [o [[w2 rows2] l2]] eqn:Htx.
    pose proof (index_tx_rows _ _ _ _ _ _ _ _ Htx) as Hrows. simpl in Hrows.
    assert (Hpos : Txs block !! length before = Some tx)
      by (rewrite Htxs; apply list_lookup_middle; done).
    assert (Hlt : (length before < length (Txs block))%nat)
      by (by eapply lookup_lt_Some).
    assert (Htake : take (length before) (Txs block) = before)
      by (rewrite Htxs; apply take_app_length).
    assert (Hgroup : forall g, tx_rows c block tx w1 g ->
                               tx_group c block s0 (length before, g)).
    { intros g Hg. exists tx, (w, rows, l), w1. simpl.
      rewrite Htake. by repeat split. }
    destruct o as [[]|reason].
    + intros Hrest.
      assert (Hpre' : index_txs (recording c) block 0 (before ++ [tx]) s0 =
                      (Normal None, (w2, rows2, l2))).
      { rewrite index_txs_app, Hpre. simpl.
        unfold bind at 1. unfold call at 1. simpl. rewrite Hctx. simpl.
        unfold bind at 1. by rewrite Htx. }
      assert (Htxs' : Txs block = (before ++ [tx]) ++ txs)
        by (by rewrite <- app_assoc).
      assert (Hlen' : length (before ++ [tx]) = S (length before))
        by (rewrite length_app; simpl; lia).
      rewrite <- Hlen' in Hrest.
      destruct (IH _ _ Htxs' Hpre' Hrest) as (groups & Hg & Hbnd & Hsort & Hall).
      rewrite Hlen' in Hbnd. simpl in Hg.
      destruct Hrows as [->|(g & -> & Hok)].
      * exists groups. split; [done|]. split; [|done].
        eapply Forall_impl; [exact Hbnd|]. simpl. intros; lia.
      * exists ((length before, g) :: groups). split; [|split; [|split]].
        -- rewrite Hg. simpl. by rewrite <- app_assoc.
        -- constructor; [simpl; lia|].
           eapply Forall_impl; [exact Hbnd|]. simpl. intros; lia.
        -- simpl. constructor; [done|].
           rewrite Forall_forall in Hbnd. rewrite Forall_forall.
           intros k Hk. apply list_elem_of_In, in_map_iff in Hk as (ig & <- & Hig).
           apply list_elem_of_In, Hbnd in Hig. lia.
        -- constructor; [by apply Hgroup|done].
    + intros; simplify_eq/=.
      destruct Hrows as [->|(g & -> & Hok)].
      * exists []. simpl. rewrite app_nil_r. repeat split; constructor.
      * exists [(length before, g)]. simpl. rewrite app_nil_r.
        split; [done|]. split; [|split].
        -- constructor; [simpl; lia|constructor].
        -- repeat constructor.
        -- constructor; [by apply Hgroup|constructor].
Qed.

(* --------------------------------------------------------------------- *)
(** ** The record of the rows changes nothing else *)
(* --------------------------------------------------------------------- *)

Lemma HandleIBCMsg_forget msg i height hash s :
  HandleIBCMsg c msg i height hash (forget s) =
  (fst (HandleIBCMsg (recording c) msg i height hash s),
   forget (snd (HandleIBCMsg (recording c) msg i height hash s))).
Proof.
  destruct s as [[w rows] l]. unfold forget.
  destruct msg; unfold HandleIBCMsg; run_monad; try done.
  all: destruct (ByteaSet c hash) as [e|]; simpl;
    match goal with
    | |- context [DBCreate c ?row ?w0] => destruct (DBCreate c row w0) as [[e'|] w']
    end; done.
Qed.

Lemma handle_msgs_forget msgs i height hash s :
  handle_msgs c i msgs height hash (forget s) =
  (fst (handle_msgs (recording c) i msgs height hash s),
   forget (snd (handle_msgs (recording c) i msgs height hash s))).
Proof.
  revert i s. induction msgs as [|m msgs IH]; intros i s; [done|].
  simpl. unfold bind. rewrite HandleIBCMsg_forget.
  destruct (HandleIBCMsg (recording c) m i height hash s) as [[[]|reason] s1]; simpl;
    [apply IH|done].
Qed.

Lemma index_tx_forget block i tx s :
  index_tx c block i tx (forget s) =
  (fst (index_tx (recording c) block i tx s),
   forget (snd (index_tx (recording c) block i tx s))).
Proof.
  destruct s as [[w rows] l]. unfold index_tx. simpl.
  destruct (TxDecoder c tx) as [e|sdkTx]; [done|].
  unfold bind, call, forget, log; simpl.
  destruct (QueryTx c (TxHash c tx) w) as [[e|txRes] w1]; simpl; [done|].
  destruct (asFeeTx sdkTx) as [fee|]; [|done].
  destruct (ByteaSet c (TxHash c tx)); [done|].
  destruct (TimestampSet c (Time block)); [done|].
  destruct (JSONBSet c _); [done|].
  simpl.
  match goal with |- context [DBCreate c ?row w1] =>
    set (txrow := row); destruct (DBCreate c txrow w1) as [r w2] end.
  simpl.
  pose proof (handle_msgs_forget (GetMsgs sdkTx) 0 (Height block) (TxHash c tx)) as Hm.
  unfold forget in Hm.
  destruct r as [e|]; unfold LogTxInsertion, log; simpl.
  - apply (Hm (w2, rows ++ [txrow], _)).
  - apply (Hm (w2, rows ++ [txrow], _)).
Qed.

Lemma index_txs_forget block i txs s :
  index_txs c block i txs (forget s) =
  (fst (index_txs (recording c) block i txs s),
   forget (snd (index_txs (recording c) block i txs s))).
Proof.
  revert i s. induction txs as [|tx txs IH]; intros i s; [done|].
  destruct s as [[w rows] l]. simpl.
  unfold bind, call. simpl. unfold forget at 1. simpl.
  destruct (CtxDone c w) as [[|] w1]; simpl; [done|].
  pose proof (index_tx_forget block i tx (w1, rows, l)) as Htx.
  unfold forget at 1 in Htx. simpl in Htx. rewrite Htx.
  destruct (index_tx (recording c) block i tx (w1, rows, l)) as [[[]|reason] s1]; simpl;
    [apply IH|done].
Qed.

(** The rows [Execute] hands to [DB.Create] come in groups, one group for
    each of some of the transactions of the block, in the order of the
    transactions and at most one per position in the block.  The group of
    the transaction at position [i] is its [Tx] row followed by one row per
    IBC message of the transaction, each carrying the hash of the [Tx] row;
    the transaction decodes to a fee transaction, its hash, the time of the
    block and its raw log can be set, and the [Tx] row is built from the
    results the chain node gave for its hash in the state it was in at the
    turn of that transaction, after the transactions before it had been
    gone through and the context had been found live.  So a transaction
    that does not decode, whose results are not found or whose fields
    cannot be set gets no row, and no message row is handed over without
    the [Tx] row it refers to having been handed over first.  Keeping the
    record changes neither the result, nor the log, nor the state of the
    outside world. *)
Theorem rows_come_in_groups_per_transaction block s0 out s' :
  Execute (recording c) block s0 = (out, s') ->
  Execute c block (forget s0) = (out, forget s') /\
  exists groups,
    snd (fst s') = snd (fst s0) ++ flat_map (fun ig => group_rows (snd ig)) groups /\
    StronglySorted lt (map fst groups) /\
    Forall (fun ig => (fst ig < length (Txs block))%nat) groups /\
    Forall (tx_group c block s0) groups.
Proof.
  intros Hex. split.
  - unfold Execute, IndexIBCTransfers in *.
    pose proof (index_txs_forget block 0 (Txs block) s0) as Hf.
    rewrite Hex in Hf. exact Hf.
  - destruct (index_txs_rows block s0 [] (Txs block) s0 out s' eq_refl eq_refl Hex)
      as (groups & Hg & Hbnd & Hsort & Hall).
    exists groups. split; [done|]. split; [done|]. split; [|done].
    eapply Forall_impl; [exact Hbnd|]. simpl. intros; lia.
Qed.

End IBCMore.

(* ===================================================================== *)
(** * The theorems at concrete inputs *)
(* ===================================================================== *)

Lemma stuck_state_reachable : reachable sample_actions 1 [7; 8] stuck_state.
Proof. apply (run_reachable _ _ _ stuck_schedule). reflexivity. Qed.

Lemma exec_state_reachable : reachable sample_actions 1 [7; 8] exec_state.
Proof. apply (run_reachable _ _ _ exec_schedule). reflexivity. Qed.

(** [failed_append_deadlocks] at the run of the examples. *)
Lemma failed_append_deadlocks_witness :
  reachable sample_actions 1 [7; 8] stuck_state /\
  st_tasks stuck_state !! 0%nat = Some stuck_task /\
  t_pc stuck_task = PDeferred (EnvError 4) /\
  st_mutex stuck_state = true /\
  forall ls s', run sample_actions 1 ls stuck_state = Some s' ->
    st_tasks s' !! 0%nat = Some stuck_task /\ st_mutex s' = true /\
    (forall r, step sample_actions 1 (LTask 0 r) s' = None) /\
    (forall j tj ej r, st_tasks s' !! j = Some tj -> t_pc tj = PLock ej ->
                       step sample_actions 1 (LTask j r) s' = None).
Proof.
  split; [exact stuck_state_reachable|].
  split; [reflexivity|]. split; [reflexivity|].
  exact (failed_append_deadlocks sample_actions 1 [7; 8] stuck_state 0 stuck_task
           (EnvError 4) stuck_state_reachable eq_refl eq_refl).
Defined.

(** [failed_height_is_never_retried] at the run of the examples. *)
Lemma failed_height_is_never_retried_witness :
  reachable sample_actions 1 [7; 8] stuck_state /\
  st_pass stuck_state = 0%nat /\
  (st_failed stuck_state <> [] ->
   forall ls s', run sample_actions 1 ls stuck_state = Some s' ->
     st_pass s' = 0%nat /\ st_failed s' <> [] /\
     (forall r, st_main s' <> MReturned r) /\
     exists i t e, st_tasks s' !! i = Some t /\ t_pc t = PDeferred e).
Proof.
  split; [exact stuck_state_reachable|].
  exact (failed_height_is_never_retried sample_actions 1 [7; 8] stuck_state
           stuck_state_reachable).
Defined.

(** [failed_worker_keeps_its_slot] at the run of the examples. *)
Lemma failed_worker_keeps_its_slot_witness :
  reachable sample_actions 1 [7; 8] stuck_state /\
  (st_sem stuck_state = in_flight stuck_state /\ (in_flight stuck_state <= 1)%nat) /\
  forall i t, st_tasks stuck_state !! i = Some t -> failed_fetch t = true ->
    forall ls s', run sample_actions 1 ls stuck_state = Some s' ->
      exists t', st_tasks s' !! i = Some t' /\ failed_fetch t' = true /\
                 holds_slot t' = true /\ (1 <= st_sem s')%nat.
Proof.
  split; [exact stuck_state_reachable|].
  exact (failed_worker_keeps_its_slot sample_actions 1 [7; 8] stuck_state
           stuck_state_reachable).
Defined.

Lemma both_failing_state_reachable :
  reachable sample_actions 2 [7; 8] both_failing_state.
Proof. apply (run_reachable _ _ _ both_failing_schedule). reflexivity. Qed.

(** [exhausted_fetch_is_not_always_recorded] at the run of the examples
    with two blocks at a time: the chain node has failed the five attempts
    at height 8, and height 8 is never added to [failedBlocks]. *)
Lemma exhausted_fetch_is_not_always_recorded_witness :
  run sample_actions 2 both_failing_schedule (init [7; 8]) = Some both_failing_state /\
  reachable sample_actions 2 [7; 8] both_failing_state /\
  st_failed both_failing_state <> [] /\
  st_tasks both_failing_state !! 1%nat = Some waiting_task /\
  t_pc waiting_task = PLock (EnvError 9) /\
  fetches (t_hist waiting_task) = 5%nat /\
  In (EvFetch (RtyAttNum - 1) (RErr (EnvError 9))) (t_hist waiting_task) /\
  ~ In (t_height waiting_task) (st_failed both_failing_state) /\
  (exists tail, fail_tail (t_height waiting_task) (t_pc waiting_task) =
                  Some (EnvError 9, tail)) /\
  forall ls s', run sample_actions 2 ls both_failing_state = Some s' ->
    st_tasks s' !! 1%nat = Some waiting_task /\
    st_failed s' = st_failed both_failing_state /\
    (forall r, step sample_actions 2 (LTask 1 r) s' = None).
Proof.
  assert (Hne : st_failed both_failing_state <> []) by discriminate.
  assert (Hin : In (EvFetch (RtyAttNum - 1) (RErr (EnvError 9))) (t_hist waiting_task)).
  { simpl. do 12 right. left. reflexivity. }
  split; [reflexivity|]. split; [exact both_failing_state_reachable|].
  split; [exact Hne|]. split; [reflexivity|]. split; [reflexivity|].
  split; [reflexivity|]. split; [exact Hin|].
  split; [simpl; intros [H|[]]; discriminate H|].
  split.
  - exact (proj1 (proj2 (proj2 (proj2 exhausted_fetch_is_not_always_recorded)))
             sample_actions 2%nat [7; 8] both_failing_state 1%nat waiting_task
             (EnvError 9) both_failing_state_reachable eq_refl Hin).
  - exact (proj2 (proj2 (proj2 (proj2 exhausted_fetch_is_not_always_recorded)))
             sample_actions 2%nat [7; 8] both_failing_state 1%nat waiting_task
             (EnvError 9) both_failing_state_reachable Hne eq_refl eq_refl).
Defined.

(** [actions_run_in_registration_order] at the run of the examples. *)
Lemma actions_run_in_registration_order_witness :
  reachable sample_actions 1 [7; 8] exec_state /\
  st_tasks exec_state !! 0%nat = Some exec_task /\
  match ok_tail (t_pc exec_task) with
  | Some (pending, _) => executed (t_hist exec_task) ++ pending = sample_actions
  | None => executed (t_hist exec_task) = []
  end /\
  forall a rest r, t_pc exec_task = PExec (a :: rest) ->
    exists s' t', step sample_actions 1 (LTask 0 r) exec_state = Some s' /\
                  st_tasks s' !! 0%nat = Some t' /\
                  t_height t' = t_height exec_task /\
                  t_pc t' = exec_from rest /\
                  executed (t_hist t') = executed (t_hist exec_task) ++ [a].
Proof.
  split; [exact exec_state_reachable|]. split; [reflexivity|].
  exact (actions_run_in_registration_order sample_actions 1 [7; 8] exec_state 0
           exec_task exec_state_reachable eq_refl).
Defined.

(** [action_errors_are_only_logged] at the run of the examples: action [A]
    fails on height 7, action [B] is executed all the same, height 8 is
    processed and [ForEachBlock] returns [nil]. *)
Lemma action_errors_are_only_logged_witness :
  st_tasks exec_state !! 0%nat = Some exec_task /\
  t_pc exec_task = PExec sample_actions /\
  step sample_actions 1 (LTask 0 (RErr (EnvError 9))) exec_state =
    Some (mkState 0 (MLoop [8]) 1 false [] None false false
            [mkTask 7 (PExec [mkBlockAction "B"])
               [EvFetch 0 ROk;
                EvExecute (mkBlockAction "A") (RErr (EnvError 9));
                EvWarn (mkBlockAction "A") (EnvError 9)]]) /\
  run sample_actions 1 (sequential_schedule sample_actions sample_answers 0 [7; 8])
      (init [7; 8]) =
    Some (mkState 0 (MReturned None) 0 false [] None false false
            [mkTask 7 (PDone None)
               [EvFetch 0 ROk;
                EvExecute (mkBlockAction "A") (RErr (EnvError 9));
                EvWarn (mkBlockAction "A") (EnvError 9);
                EvExecute (mkBlockAction "B") ROk;
                EvRecv; EvReturn None];
             mkTask 8 (PDone None)
               [EvFetch 0 ROk;
                EvExecute (mkBlockAction "A") ROk;
                EvExecute (mkBlockAction "B") ROk;
                EvRecv; EvReturn None]]) /\
  (1 <= 1)%nat /\
  reachable sample_actions 1 [7; 8] exec_state /\
  undisturbed exec_state /\
  (forall r, st_main exec_state <> MReturned r) /\
  (exists l s', is_move l = true /\
                step sample_actions 1 l exec_state = Some s' /\ undisturbed s') /\
  (length (List.filter is_move exec_schedule) <= (2 + 18) * 2 + 2)%nat /\
  (forall r, st_main exec_state = MReturned r -> r = None /\ st_failed exec_state = []).
Proof.
  assert (Hund : undisturbed exec_state).
  { split; [repeat constructor|reflexivity]. }
  assert (Hnr : forall r, st_main exec_state <> MReturned r) by (intros r; discriminate).
  split; [reflexivity|]. split; [reflexivity|].
  split; [exact (proj1 action_errors_are_only_logged sample_actions 1%nat exec_state
                   0%nat exec_task (mkBlockAction "A") [mkBlockAction "B"]
                   (EnvError 9) eq_refl eq_refl)|].
  split; [exact (proj1 (proj2 action_errors_are_only_logged) sample_actions 0%nat
                   sample_answers [7; 8])|].
  split; [exact (le_n 1)|].
  split; [exact exec_state_reachable|].
  split; [exact Hund|]. split; [exact Hnr|].
  split; [exact (proj1 (proj2 (proj2 action_errors_are_only_logged)) sample_actions
                   1%nat [7; 8] exec_state (le_n 1) exec_state_reachable Hund Hnr)|].
  split; [exact (proj1 (proj2 (proj2 (proj2 action_errors_are_only_logged)))
                   sample_actions 1%nat [7; 8] exec_schedule exec_state eq_refl)|].
  intros r.
  exact (proj2 (proj2 (proj2 (proj2 action_errors_are_only_logged))) sample_actions
           1%nat [7; 8] exec_state r exec_state_reachable).
Defined.

(** [unknown_action_names_are_skipped] at the start of the examples: with
    an unknown name and the name of the IBC action the indexer runs; with
    the unknown name alone the command returns the error "no block actions
    configured". *)
Lemma unknown_action_names_are_skipped_witness :
  In (Cmd.CallForEachBlock [1; 2] [Cmd.NewIBCTransfer] 2)
     (snd (Cmd.run_start Cmd.sample_flags
             (Cmd.sample_config ["bogus"%string; IBC.BlockActionName])
             Cmd.sample_env "cosmoshub-4")) /\
  ([Cmd.NewIBCTransfer] = Cmd.resolved ["bogus"%string; IBC.BlockActionName] /\
   [Cmd.NewIBCTransfer] <> [] /\
   forall name, In name (Cmd.unknown ["bogus"%string; IBC.BlockActionName]) ->
     In (Cmd.LogInfo "Failed to get block action" name)
        (snd (Cmd.run_start Cmd.sample_flags
                (Cmd.sample_config ["bogus"%string; IBC.BlockActionName])
                Cmd.sample_env "cosmoshub-4"))) /\
  Cmd.prelude Cmd.sample_flags (Cmd.sample_config ["bogus"%string]) Cmd.sample_env
    "cosmoshub-4" [] =
    (inr (2%nat, 1, 3),
     [Cmd.CallNewChainClient "cosmoshub-4"; Cmd.CallConnectToDatabase;
      Cmd.CallNewIndexer;
      Cmd.LogInfo "Skipping debug server due to empty debug address flag" EmptyString]) /\
  Cmd.run_start Cmd.sample_flags (Cmd.sample_config ["bogus"%string]) Cmd.sample_env
    "cosmoshub-4" =
    (Some ErrNoBlockActionsConfigured,
     [Cmd.CallNewChainClient "cosmoshub-4"; Cmd.CallConnectToDatabase;
      Cmd.CallNewIndexer;
      Cmd.LogInfo "Skipping debug server due to empty debug address flag" EmptyString]
       ++ Cmd.skipped ["bogus"%string]).
Proof.
  assert (Hin : In (Cmd.CallForEachBlock [1; 2] [Cmd.NewIBCTransfer] 2)
     (snd (Cmd.run_start Cmd.sample_flags
             (Cmd.sample_config ["bogus"%string; IBC.BlockActionName])
             Cmd.sample_env "cosmoshub-4"))).
  { simpl. do 5 right. left. reflexivity. }
  split; [exact Hin|].
  split; [exact (proj1 (proj2 (proj2 (unknown_action_names_are_skipped Cmd.sample_flags
                   (Cmd.sample_config ["bogus"%string; IBC.BlockActionName])
                   Cmd.sample_env "cosmoshub-4"))) [1; 2] [Cmd.NewIBCTransfer] 2%nat Hin)|].
  split; [reflexivity|].
  exact (proj2 (proj2 (proj2 (unknown_action_names_are_skipped Cmd.sample_flags
           (Cmd.sample_config ["bogus"%string]) Cmd.sample_env "cosmoshub-4")))
           2%nat 1 3 _ eq_refl).
Defined.

(** [concurrency_is_validated_by_start] at a flag of zero and at a call of
    [ForEachBlock] with a concurrency of zero and no height. *)
Lemma concurrency_is_validated_by_start_witness :
  Cmd.flagConcurrentBlocks (Cmd.mkFlags (inr 0%nat) (inr EmptyString) (inr 1) (inr 3))
    = inr 0%nat /\
  (0 < 1)%nat /\
  Cmd.run_start (Cmd.mkFlags (inr 0%nat) (inr EmptyString) (inr 1) (inr 3))
    (Cmd.sample_config [IBC.BlockActionName]) Cmd.sample_env "cosmoshub-4" =
    (Some (ErrInvalidConcurrentBlocks 0), []) /\
  reachable sample_actions 0 [] (init []) /\
  st_tasks (init []) = [] /\
  forall r, st_main (init []) = MReturned r -> r = None /\ @nil Z = [].
Proof.
  split; [reflexivity|]. split; [lia|].
  split; [exact (proj1 concurrency_is_validated_by_start
                   (Cmd.mkFlags (inr 0%nat) (inr EmptyString) (inr 1) (inr 3))
                   (Cmd.sample_config [IBC.BlockActionName]) Cmd.sample_env
                   "cosmoshub-4" 0%nat eq_refl (le_n 1))|].
  split; [apply reach_init|].
  exact (proj2 (proj2 concurrency_is_validated_by_start) sample_actions []
           (init []) (reach_init sample_actions 0 [])).
Defined.

(** [unchecked_fee_assertion_panics] at a block of one transaction. *)
Lemma unchecked_fee_assertion_panics_witness :
  IBC.Txs (IBC.mkBlock 7 0 ["tx"%string]) = [] ++ "tx"%string :: [] /\
  IBC.index_txs IBC.sample_collaborators (IBC.mkBlock 7 0 ["tx"%string]) 0 [] (tt, [])
    = (IBC.Normal None, (tt, [])) /\
  IBC.CtxDone IBC.sample_collaborators tt = (false, tt) /\
  IBC.TxDecoder IBC.sample_collaborators "tx" = inr (IBC.mkSdkTx [IBC.MsgOther] None) /\
  IBC.QueryTx IBC.sample_collaborators (IBC.TxHash IBC.sample_collaborators "tx") tt
    = (inr (IBC.mkTxResult 0 EmptyString 10 20), tt) /\
  IBC.asFeeTx (IBC.mkSdkTx [IBC.MsgOther] None) = None /\
  exists reason,
    IBC.Execute IBC.sample_collaborators (IBC.mkBlock 7 0 ["tx"%string]) (tt, [])
    = (IBC.Panic reason, (tt, [])).
Proof.
  repeat (split; [reflexivity|]).
  exact (unchecked_fee_assertion_panics IBC.sample_collaborators
           (IBC.mkBlock 7 0 ["tx"%string]) [] "tx" [] (tt, []) (tt, []) tt tt
           (IBC.mkSdkTx [IBC.MsgOther] None) (IBC.mkTxResult 0 EmptyString 10 20)
           eq_refl eq_refl eq_refl eq_refl eq_refl eq_refl).
Defined.

(* ===================================================================== *)
(** * The further properties at the examples *)
(* ===================================================================== *)

Lemma done_state_reachable : reachable sample_actions 1 [7; 8] done_state.
Proof.
  apply (run_reachable _ _ _ (sequential_schedule sample_actions sample_answers 0 [7; 8])).
  reflexivity.
Qed.

Lemma cancelled_state_reachable : reachable sample_actions 1 [7; 8] cancelled_state.
Proof. apply (run_reachable _ _ _ [LCancel]). reflexivity. Qed.

(** [heights_are_launched_at_most_once_in_order] at the run of the
    examples: height 8 is still to launch. *)
Lemma heights_are_launched_at_most_once_in_order_witness :
  reachable sample_actions 1 [7; 8] stuck_state /\
  map t_height (st_tasks stuck_state) ++ pending_heights stuck_state = [7; 8] /\
  (length (st_tasks stuck_state) <= length [7; 8])%nat /\
  (forall i t, st_tasks stuck_state !! i = Some t -> [7; 8] !! i = Some (t_height t)) /\
  ((forall rest, st_main stuck_state <> MLoop rest) ->
   map t_height (st_tasks stuck_state) = [7; 8]).
Proof.
  split; [exact stuck_state_reachable|].
  exact (heights_are_launched_at_most_once_in_order sample_actions 1 [7; 8] stuck_state
           stuck_state_reachable).
Defined.

(** [returned_run_has_executed_everything] at the run of the examples. *)
Lemma returned_run_has_executed_everything_witness :
  reachable sample_actions 1 [7; 8] done_state /\
  st_main done_state = MReturned None /\
  map t_height (st_tasks done_state) = [7; 8] /\
  Forall (fun t => t_pc t = PDone None /\ executed (t_hist t) = sample_actions)
         (st_tasks done_state).
Proof.
  split; [exact done_state_reachable|]. split; [reflexivity|].
  exact (returned_run_has_executed_everything sample_actions 1 [7; 8] done_state None
           done_state_reachable eq_refl).
Defined.

(** [failed_blocks_holds_at_most_one_height] at the run of the examples. *)
Lemma failed_blocks_holds_at_most_one_height_witness :
  reachable sample_actions 1 [7; 8] stuck_state /\
  (length (st_failed stuck_state) <= 1)%nat /\
  (forall h, In h (st_failed stuck_state) -> In h [7; 8]) /\
  (st_mutex stuck_state = false ->
   st_failed stuck_state = [] /\
   Forall (fun t => at_append t = false) (st_tasks stuck_state)).
Proof.
  split; [exact stuck_state_reachable|].
  exact (failed_blocks_holds_at_most_one_height sample_actions 1 [7; 8] stuck_state
           stuck_state_reachable).
Defined.

(** [at_most_five_fetches_per_height] at the run of the examples. *)
Lemma at_most_five_fetches_per_height_witness :
  reachable sample_actions 1 [7; 8] stuck_state /\
  Forall (fun t => (fetches (t_hist t) <= RtyAttNum)%nat) (st_tasks stuck_state) /\
  (total_fetches stuck_state <= RtyAttNum * length [7; 8])%nat.
Proof.
  split; [exact stuck_state_reachable|].
  exact (at_most_five_fetches_per_height sample_actions 1 [7; 8] stuck_state
           stuck_state_reachable).
Defined.

(** [cancelled_run_never_returns] at the run of the examples. *)
Lemma cancelled_run_never_returns_witness :
  reachable sample_actions 1 [7; 8] cancelled_state /\
  st_ctx cancelled_state = true /\
  st_main cancelled_state = MLoop (7 :: [8]) /\
  forall ls s', run sample_actions 1 ls cancelled_state = Some s' ->
    st_ctx s' = true /\ forall r, st_main s' <> MReturned r.
Proof.
  split; [exact cancelled_state_reachable|]. split; [reflexivity|].
  split; [reflexivity|].
  exact (cancelled_run_never_returns sample_actions 1 [7; 8] cancelled_state
           cancelled_state_reachable eq_refl
           (or_introl (ex_intro _ 7 (ex_intro _ [8] eq_refl)))).
Defined.

Section CommandExamples.
Import Cmd.

(** [start_indexes_a_half_open_range] at the start of the examples: the
    flags ask for the heights from 1 to 3 and the heights indexed are 1
    and 2. *)
Lemma start_indexes_a_half_open_range_witness :
  In (CallForEachBlock [1; 2] [NewIBCTransfer] 2)
     (snd (run_start sample_flags (sample_config [IBC.BlockActionName]) sample_env
             "cosmoshub-4")) /\
  exists b e,
    flagBeginBlock sample_flags = inr b /\
    (flagEndBlock sample_flags = inr e /\ e <> 0 /\
       ~ In CallQueryLatestHeight
           (snd (run_start sample_flags (sample_config [IBC.BlockActionName]) sample_env
                   "cosmoshub-4")) \/
     flagEndBlock sample_flags = inr 0 /\ QueryLatestHeight sample_env = inr e /\
       In CallQueryLatestHeight
          (snd (run_start sample_flags (sample_config [IBC.BlockActionName]) sample_env
                  "cosmoshub-4"))) /\
    length [1; 2] = Z.to_nat (e - b) /\
    (forall i, (i < length [1; 2])%nat -> [1; 2] !! i = Some (b + Z.of_nat i)) /\
    (forall h, In h [1; 2] <-> b <= h < e) /\
    (e <= b -> [1; 2] = []).
Proof.
  assert (Hin : In (CallForEachBlock [1; 2] [NewIBCTransfer] 2)
                   (snd (run_start sample_flags (sample_config [IBC.BlockActionName])
                           sample_env "cosmoshub-4")))
    by (simpl; tauto).
  split; [exact Hin|].
  exact (start_indexes_a_half_open_range sample_flags
           (sample_config [IBC.BlockActionName]) sample_env "cosmoshub-4"
           [1; 2] [NewIBCTransfer] 2%nat Hin).
Defined.

(** [start_returns_what_the_indexer_returns] at the start of the examples. *)
Lemma start_returns_what_the_indexer_returns_witness :
  In (CallForEachBlock [1; 2] [NewIBCTransfer] 2)
     (snd (run_start sample_flags (sample_config [IBC.BlockActionName]) sample_env
             "cosmoshub-4")) /\
  fst (run_start sample_flags (sample_config [IBC.BlockActionName]) sample_env
         "cosmoshub-4") =
    ForEachBlock sample_env [1; 2] [NewIBCTransfer] 2 /\
  exists before,
    snd (run_start sample_flags (sample_config [IBC.BlockActionName]) sample_env
           "cosmoshub-4") =
      before ++ [CallForEachBlock [1; 2] [NewIBCTransfer] 2] /\
    Forall (fun x => is_run x = false) before.
Proof.
  assert (Hin : In (CallForEachBlock [1; 2] [NewIBCTransfer] 2)
                   (snd (run_start sample_flags (sample_config [IBC.BlockActionName])
                           sample_env "cosmoshub-4")))
    by (simpl; tauto).
  split; [exact Hin|].
  exact (proj1 (start_returns_what_the_indexer_returns sample_flags
                  (sample_config [IBC.BlockActionName]) sample_env "cosmoshub-4")
               [1; 2] [NewIBCTransfer] 2%nat Hin).
Defined.

(** [start_without_flags] at the configuration and collaborators of the
    examples, the latest height of the chain being 100. *)
Lemma start_without_flags_witness :
  In (CallForEachBlock (block_range 1 100) [NewIBCTransfer] 100)
     (snd (run_start default_flags (sample_config [IBC.BlockActionName]) sample_env
             "cosmoshub-4")) /\
  100%nat = 100%nat /\
  In (CallListen "localhost:49666")
     (snd (run_start default_flags (sample_config [IBC.BlockActionName]) sample_env
             "cosmoshub-4")) /\
  In CallQueryLatestHeight
     (snd (run_start default_flags (sample_config [IBC.BlockActionName]) sample_env
             "cosmoshub-4")) /\
  exists latest,
    QueryLatestHeight sample_env = inr latest /\
    forall h, In h (block_range 1 100) <-> 1 <= h < latest.
Proof.
  assert (Hin : In (CallForEachBlock (block_range 1 100) [NewIBCTransfer] 100)
                   (snd (run_start default_flags (sample_config [IBC.BlockActionName])
                           sample_env "cosmoshub-4"))).
  { rewrite run_start_shape. simpl. do 7 right. left. reflexivity. }
  split; [exact Hin|].
  exact (start_without_flags (sample_config [IBC.BlockActionName]) sample_env
           "cosmoshub-4" (block_range 1 100) [NewIBCTransfer] 100%nat Hin).
Defined.

(** [unconfigured_chain_stops_the_start] at the flags of the examples and
    a chain that is not configured. *)
Lemma unconfigured_chain_stops_the_start_witness :
  flagConcurrentBlocks sample_flags = inr 2%nat /\ (1 <= 2)%nat /\
  (In "osmosis-1"%string (ChainConfigs (sample_config [IBC.BlockActionName])) <->
   GetChainConfig (ChainConfigs (sample_config [IBC.BlockActionName])) "osmosis-1" =
     inr "osmosis-1"%string) /\
  (~ In "osmosis-1"%string (ChainConfigs (sample_config [IBC.BlockActionName])) ->
   run_start sample_flags (sample_config [IBC.BlockActionName]) sample_env "osmosis-1" =
     (Some (ErrChainNotConfigured "osmosis-1"), [])) /\
  (In "osmosis-1"%string (ChainConfigs (sample_config [IBC.BlockActionName])) ->
   exists rest,
     snd (run_start sample_flags (sample_config [IBC.BlockActionName]) sample_env
            "osmosis-1") = CallNewChainClient "osmosis-1" :: rest).
Proof.
  split; [reflexivity|]. split; [lia|].
  apply (unconfigured_chain_stops_the_start sample_flags
           (sample_config [IBC.BlockActionName]) sample_env "osmosis-1" 2%nat eq_refl).
  lia.
Defined.

(** [every_occurrence_registers_the_action] at a configuration that names
    the IBC transfer action twice. *)
Lemma every_occurrence_registers_the_action_witness :
  In (CallForEachBlock [1; 2] [NewIBCTransfer; NewIBCTransfer] 2)
     (snd (run_start sample_flags
             (sample_config [IBC.BlockActionName; IBC.BlockActionName]) sample_env
             "cosmoshub-4")) /\
  [NewIBCTransfer; NewIBCTransfer] =
    replicate (length (known (Actions (sample_config
                                         [IBC.BlockActionName; IBC.BlockActionName]))))
              NewIBCTransfer /\
  Forall (fun a => Name a = IBC.BlockActionName) [NewIBCTransfer; NewIBCTransfer] /\
  (1 <= length (known (Actions (sample_config
                                  [IBC.BlockActionName; IBC.BlockActionName]))))%nat.
Proof.
  assert (Hin : In (CallForEachBlock [1; 2] [NewIBCTransfer; NewIBCTransfer] 2)
                   (snd (run_start sample_flags
                           (sample_config [IBC.BlockActionName; IBC.BlockActionName])
                           sample_env "cosmoshub-4")))
    by (simpl; tauto).
  split; [exact Hin|].
  exact (every_occurrence_registers_the_action sample_flags
           (sample_config [IBC.BlockActionName; IBC.BlockActionName]) sample_env
           "cosmoshub-4" [1; 2] [NewIBCTransfer; NewIBCTransfer] 2%nat Hin).
Defined.

(** [debug_listen_failure_stops_the_start] at a start whose debug port
    is taken. *)
Lemma debug_listen_failure_stops_the_start_witness :
  flagDebugAddr debug_flags = inr "localhost:49666"%string /\
  Listen busy_env "localhost:49666" = Some (EnvError 2) /\
  In (CallListen "localhost:49666")
     (snd (run_start debug_flags (sample_config [IBC.BlockActionName]) busy_env
             "cosmoshub-4")) /\
  fst (run_start debug_flags (sample_config [IBC.BlockActionName]) busy_env
         "cosmoshub-4") = Some (ErrDebugListen "localhost:49666" (EnvError 2)) /\
  ~ In (CallStartDebugServer "localhost:49666")
       (snd (run_start debug_flags (sample_config [IBC.BlockActionName]) busy_env
               "cosmoshub-4")) /\
  ~ In CallQueryLatestHeight
       (snd (run_start debug_flags (sample_config [IBC.BlockActionName]) busy_env
               "cosmoshub-4")) /\
  Forall (fun x => is_run x = false)
         (snd (run_start debug_flags (sample_config [IBC.BlockActionName]) busy_env
                 "cosmoshub-4")).
Proof.
  assert (Hin : In (CallListen "localhost:49666")
                   (snd (run_start debug_flags (sample_config [IBC.BlockActionName])
                           busy_env "cosmoshub-4")))
    by (simpl; tauto).
  split; [reflexivity|]. split; [reflexivity|]. split; [exact Hin|].
  exact (proj2 (debug_listen_failure_stops_the_start debug_flags
                  (sample_config [IBC.BlockActionName]) busy_env "cosmoshub-4")
               "localhost:49666"%string (EnvError 2) eq_refl eq_refl Hin).
Defined.

(** [added_chain_is_found] at a configuration of one chain. *)
Lemma added_chain_is_found_witness :
  AddChainConfig (sample_config []) "osmosis-1" =
    (None, mkConfig ["cosmoshub-4"; "osmosis-1"]%string []) /\
  GetChainConfig ["cosmoshub-4"; "osmosis-1"]%string "osmosis-1" = inr "osmosis-1"%string /\
  (forall other, other <> "osmosis-1"%string ->
     GetChainConfig ["cosmoshub-4"; "osmosis-1"]%string other =
     GetChainConfig ["cosmoshub-4"]%string other) /\
  Actions (mkConfig ["cosmoshub-4"; "osmosis-1"]%string []) = Actions (sample_config []) /\
  AddChainConfig (mkConfig ["cosmoshub-4"; "osmosis-1"]%string []) "osmosis-1" =
    (Some (ErrChainExists "osmosis-1"), mkConfig ["cosmoshub-4"; "osmosis-1"]%string []).
Proof.
  split; [reflexivity|].
  exact (added_chain_is_found (sample_config []) "osmosis-1"
           (mkConfig ["cosmoshub-4"; "osmosis-1"]%string []) eq_refl).
Defined.

(** [chain_ids_stay_distinct] at a configuration of one chain to which
    the same chain, a new chain and a chain without an ID are added. *)
Lemma chain_ids_stay_distinct_witness :
  NoDup (ChainConfigs (sample_config [])) /\
  ~ In EmptyString (ChainConfigs (sample_config [])) /\
  NoDup (ChainConfigs (add_all (sample_config [])
                         ["cosmoshub-4"; "osmosis-1"; EmptyString; "osmosis-1"]%string)) /\
  ~ In EmptyString
       (ChainConfigs (add_all (sample_config [])
                        ["cosmoshub-4"; "osmosis-1"; EmptyString; "osmosis-1"]%string)) /\
  (exists more,
     ChainConfigs (add_all (sample_config [])
                     ["cosmoshub-4"; "osmosis-1"; EmptyString; "osmosis-1"]%string) =
     ChainConfigs (sample_config []) ++ more) /\
  (forall chainID,
     In chainID ["cosmoshub-4"; "osmosis-1"; EmptyString; "osmosis-1"]%string ->
     chainID <> EmptyString ->
     GetChainConfig
       (ChainConfigs (add_all (sample_config [])
                        ["cosmoshub-4"; "osmosis-1"; EmptyString; "osmosis-1"]%string))
       chainID = inr chainID).
Proof.
  assert (Hnd : NoDup (ChainConfigs (sample_config []))).
  { simpl. apply NoDup_singleton. }
  assert (Hne : ~ In EmptyString (ChainConfigs (sample_config []))).
  { simpl. intros [H|[]]. discriminate H. }
  split; [exact Hnd|]. split; [exact Hne|].
  exact (chain_ids_stay_distinct (sample_config [])
           ["cosmoshub-4"; "osmosis-1"; EmptyString; "osmosis-1"]%string Hnd Hne).
Defined.

(** [unknown_chains_are_accepted_silently] at a chain the registry of the
    examples does not list. *)
Lemma unknown_chains_are_accepted_silently_witness :
  Chains.ListChains Chains.sample_registry (Chains.world Chains.sample_app) =
    (inr ["akash"; "cosmoshub"; "osmosis"]%string, tt) /\
  Forall (fun chain => ~ In chain ["akash"; "cosmoshub"; "osmosis"]%string) ["juno"%string] /\
  Chains.addChainConfigsFromRegistry Chains.sample_registry ["juno"%string]
    Chains.sample_app =
  (None, Chains.mkApp tt (mkConfig [] [])
           [("Unable to find chain"%string, "juno"%string);
            ("Unable to find chain"%string, "juno"%string);
            ("Unable to find chain"%string, "juno"%string)]).
Proof.
  assert (Hall : Forall (fun chain => ~ In chain ["akash"; "cosmoshub"; "osmosis"]%string)
                        ["juno"%string]).
  { constructor; [|constructor]. simpl.
    intros [H|[H|[H|[]]]]; discriminate H. }
  split; [reflexivity|]. split; [exact Hall|].
  exact (unknown_chains_are_accepted_silently Chains.sample_registry ["juno"%string]
           ["akash"; "cosmoshub"; "osmosis"]%string Chains.sample_app tt eq_refl Hall).
Defined.

(** [listed_chain_is_added_after_warnings] at the second chain of the
    registry of the examples. *)
Lemma listed_chain_is_added_after_warnings_witness :
  ~ In "cosmoshub"%string ["akash"%string] /\
  Chains.GetChain Chains.sample_registry "cosmoshub" tt = (inr "cosmoshub"%string, tt) /\
  Chains.ChainInfoConfig Chains.sample_registry "cosmoshub"%string tt =
    (inr "cosmoshub-1"%string, tt) /\
  AddChainConfig (mkConfig [] []) "cosmoshub-1" =
    (None, mkConfig ["cosmoshub-1"%string] []) /\
  Chains.try_chain Chains.sample_registry "cosmoshub" false
    (["akash"%string] ++ "cosmoshub"%string :: ["osmosis"%string]) Chains.sample_app =
  (None, Chains.mkApp tt (mkConfig ["cosmoshub-1"%string] [])
           ([] ++ Chains.not_found "cosmoshub" 1)) /\
  ChainConfigs (mkConfig ["cosmoshub-1"%string] []) =
    ChainConfigs (Chains.Cfg Chains.sample_app) ++ ["cosmoshub-1"%string].
Proof.
  assert (Hin : ~ In "cosmoshub"%string ["akash"%string]).
  { simpl. intros [H|[]]. discriminate H. }
  split; [exact Hin|]. split; [reflexivity|]. split; [reflexivity|].
  split; [reflexivity|].
  exact (listed_chain_is_added_after_warnings Chains.sample_registry "cosmoshub"
           ["akash"%string] ["osmosis"%string] Chains.sample_app "cosmoshub"%string tt
           "cosmoshub-1"%string tt (mkConfig ["cosmoshub-1"%string] [])
           Hin eq_refl eq_refl eq_refl).
Defined.

(** [unreachable_chain_is_asked_for_at_every_later_entry] at the second
    chain of a registry that cannot deliver any metadata. *)
Lemma unreachable_chain_is_asked_for_at_every_later_entry_witness :
  ~ In "cosmoshub"%string ["akash"%string] /\
  (forall w, exists e,
     fst (Chains.GetChain Chains.failing_registry "cosmoshub" w) = inl e) /\
  fst (Chains.try_chain Chains.failing_registry "cosmoshub" false
         (["akash"%string] ++ "cosmoshub"%string :: ["osmosis"%string])
         Chains.sample_app) = None /\
  Chains.Cfg (snd (Chains.try_chain Chains.failing_registry "cosmoshub" false
                     (["akash"%string] ++ "cosmoshub"%string :: ["osmosis"%string])
                     Chains.sample_app)) = Chains.Cfg Chains.sample_app /\
  Chains.warnings (snd (Chains.try_chain Chains.failing_registry "cosmoshub" false
                          (["akash"%string] ++ "cosmoshub"%string :: ["osmosis"%string])
                          Chains.sample_app)) =
    Chains.warnings Chains.sample_app ++ Chains.not_found "cosmoshub" (length ["akash"%string])
      ++ replicate (S (length ["osmosis"%string]))
           ("Error retrieving chain"%string, "cosmoshub"%string).
Proof.
  assert (Hin : ~ In "cosmoshub"%string ["akash"%string]).
  { simpl. intros [H|[]]. discriminate H. }
  assert (Hfail : forall w : unit, exists e,
            fst (Chains.GetChain Chains.failing_registry "cosmoshub" w) = inl e).
  { intros w. exists (EnvError 5). reflexivity. }
  split; [exact Hin|]. split; [exact Hfail|].
  exact (unreachable_chain_is_asked_for_at_every_later_entry Chains.failing_registry
           "cosmoshub" ["akash"%string] ["osmosis"%string] Chains.sample_app Hin Hfail).
Defined.

(** [registry_only_appends_chains] at the registry of the examples. *)
Lemma registry_only_appends_chains_witness :
  NoDup (ChainConfigs (Chains.Cfg Chains.sample_app)) /\
  ~ In EmptyString (ChainConfigs (Chains.Cfg Chains.sample_app)) /\
  let a' := snd (Chains.addChainConfigsFromRegistry Chains.sample_registry
                   ["osmosis"; "juno"; "osmosis"]%string Chains.sample_app) in
  NoDup (ChainConfigs (Chains.Cfg a')) /\
  ~ In EmptyString (ChainConfigs (Chains.Cfg a')) /\
  Actions (Chains.Cfg a') = Actions (Chains.Cfg Chains.sample_app) /\
  (exists more, ChainConfigs (Chains.Cfg a') =
                ChainConfigs (Chains.Cfg Chains.sample_app) ++ more) /\
  (exists more, Chains.warnings a' = Chains.warnings Chains.sample_app ++ more).
Proof.
  assert (Hnd : NoDup (ChainConfigs (Chains.Cfg Chains.sample_app))).
  { simpl. apply NoDup_nil_2. }
  assert (Hne : ~ In EmptyString (ChainConfigs (Chains.Cfg Chains.sample_app))).
  { simpl. intros []. }
  split; [exact Hnd|]. split; [exact Hne|].
  exact (registry_only_appends_chains Chains.sample_registry
           ["osmosis"; "juno"; "osmosis"]%string Chains.sample_app Hnd Hne).
Defined.

End CommandExamples.


(** [cancelled_context_stops_the_block] at a block of one transaction and
    a context that is done from the start. *)
Lemma cancelled_context_stops_the_block_witness :
  IBC.Txs (IBC.mkBlock 7 0 ["a"%string]) = [] ++ "a"%string :: [] /\
  IBC.index_txs IBC.cancelled_collaborators (IBC.mkBlock 7 0 ["a"%string]) 0 [] (tt, [])
    = (IBC.Normal None, (tt, [])) /\
  IBC.CtxDone IBC.cancelled_collaborators tt = (true, tt) /\
  IBC.Execute IBC.cancelled_collaborators (IBC.mkBlock 7 0 ["a"%string]) (tt, []) =
    (IBC.Normal (Some ContextCanceled), (tt, [])).
Proof.
  repeat (split; [reflexivity|]).
  exact (cancelled_context_stops_the_block IBC.cancelled_collaborators
           (IBC.mkBlock 7 0 ["a"%string]) [] "a" [] (tt, []) (tt, []) tt
           eq_refl eq_refl eq_refl).
Defined.

(** [every_ibc_message_gets_a_row] at the messages of the transaction of
    the examples and a database that refuses every row. *)
Lemma every_ibc_message_gets_a_row_witness :
  exists w' new l',
    IBC.handle_msgs (IBC.recording IBC.refusing_collaborators) 0
      (IBC.GetMsgs IBC.sample_tx) 7 "a" ((tt, []), []) =
      (IBC.Normal tt, ((w', [] ++ new), l')) /\
    length new = length (List.filter IBC.is_ibc (IBC.GetMsgs IBC.sample_tx)) /\
    forall j row, new !! j = Some row ->
      exists k m, IBC.GetMsgs IBC.sample_tx !! k = Some m /\
        IBC.same_kind m row = true /\
        length (List.filter IBC.is_ibc (take k (IBC.GetMsgs IBC.sample_tx))) = j /\
        IBC.row_index row = Some k /\
        IBC.row_hash row =
          match IBC.ByteaSet IBC.refusing_collaborators "a" with
          | None => Some "a"%string
          | Some _ => None
          end.
Proof.
  exact (every_ibc_message_gets_a_row IBC.refusing_collaborators
           (IBC.GetMsgs IBC.sample_tx) 7 "a" tt [] []).
Defined.

(** [rows_come_in_groups_per_transaction] at a block of two transactions
    and a database that refuses every row: six rows are handed over. *)
Lemma rows_come_in_groups_per_transaction_witness :
  let s0 : (unit * list IBC.Row) * list IBC.LogEntry := ((tt, []), []) in
  let r := IBC.Execute (IBC.recording IBC.refusing_collaborators)
             (IBC.mkBlock 7 0 ["a"; "b"]%string) s0 in
  length (snd (fst (snd r))) = 6%nat /\
  IBC.Execute IBC.refusing_collaborators (IBC.mkBlock 7 0 ["a"; "b"]%string)
    (IBC.forget s0) = (fst r, IBC.forget (snd r)) /\
  exists groups,
    snd (fst (snd r)) =
      snd (fst s0) ++ flat_map (fun ig => IBC.group_rows (snd ig)) groups /\
    StronglySorted lt (map fst groups) /\
    Forall (fun ig => (fst ig < length (IBC.Txs (IBC.mkBlock 7 0 ["a"; "b"]%string)))%nat)
           groups /\
    Forall (IBC.tx_group IBC.refusing_collaborators (IBC.mkBlock 7 0 ["a"; "b"]%string) s0)
           groups.
Proof.
  intros s0 r. split; [vm_compute; reflexivity|].
  apply (rows_come_in_groups_per_transaction IBC.refusing_collaborators
           (IBC.mkBlock 7 0 ["a"; "b"]%string) s0 (fst r) (snd r)).
  vm_compute. reflexivity.
Defined.
